(** * Hub/edge file replication: a shallow embedding of the hub
      ([src/server/index.js], class [FileSystemServer]) and of the edge
      (class [FileSystemClient]) and the properties of the replication
      protocol checked on it.

    Layout: the [path] functions of Node the code calls, the filesystem the
    [fs-extra] calls act on, the snapshot walk, the two agents as
    state-passing programs that log every effect, then the theorems. *)

From Stdlib Require Import Ascii.
From stdpp Require Import gmap strings list.

(* ===================================================================== *)
(** ** Node's [path] module (POSIX flavour), as far as the code uses it  *)
(* ===================================================================== *)

Module Path.

Definition sep : ascii := "/"%char.

(** [s.split('/')]: the pieces between separators, empty pieces kept. *)
Fixpoint split (s : string) : list string :=
  match s with
  | EmptyString => [EmptyString]
  | String c s' =>
      if Ascii.eqb c sep then EmptyString :: split s'
      else match split s' with
           | [] => [String c EmptyString]
           | seg :: rest => String c seg :: rest
           end
  end.

(** The segment loop of Node's [normalizeString]. [stack] holds the
    segments kept so far, innermost first. An empty segment and [.] are
    dropped; [..] pops a kept segment, and is itself kept only when the
    path is relative ([allowAboveRoot]) and nothing is left to pop. *)
Fixpoint normalize_stack (allowAboveRoot : bool) (stack segs : list string)
  : list string :=
  match segs with
  | [] => stack
  | seg :: rest =>
      if String.eqb seg EmptyString || String.eqb seg "." then
        normalize_stack allowAboveRoot stack rest
      else if String.eqb seg ".." then
        match stack with
        | top :: below =>
            if String.eqb top ".." then
              normalize_stack allowAboveRoot
                (if allowAboveRoot then ".." :: stack else stack) rest
            else normalize_stack allowAboveRoot below rest
        | [] =>
            normalize_stack allowAboveRoot
              (if allowAboveRoot then [".."] else []) rest
        end
      else normalize_stack allowAboveRoot (seg :: stack) rest
  end.

Definition normalize_segs (allowAboveRoot : bool) (segs : list string)
  : list string :=
  rev (normalize_stack allowAboveRoot [] segs).

Definition isAbsolute (p : string) : bool :=
  match p with String c _ => Ascii.eqb c sep | EmptyString => false end.

Fixpoint endsWithSep (p : string) : bool :=
  match p with
  | EmptyString => false
  | String c EmptyString => Ascii.eqb c sep
  | String _ p' => endsWithSep p'
  end.

(** [path.normalize]. *)
Definition normalize (p : string) : string :=
  match p with
  | EmptyString => "."
  | _ =>
      let abs := isAbsolute p in
      let trailing := endsWithSep p in
      let body := String.concat "/" (normalize_segs (negb abs) (split p)) in
      match body with
      | EmptyString => if abs then "/" else if trailing then "./" else "."
      | _ =>
          (if abs then "/" else EmptyString) +:+ body
          +:+ (if trailing then "/" else EmptyString)
      end
  end.

(** [path.join(a, b)]: the non-empty arguments glued with a separator,
    then normalized. *)
Definition join (a b : string) : string :=
  match a, b with
  | EmptyString, EmptyString => "."
  | EmptyString, _ => normalize b
  | _, EmptyString => normalize a
  | _, _ => normalize (a +:+ "/" +:+ b)
  end.

(** How the operating system resolves an absolute path (no symbolic
    links in the model): the list of directory names from [/] down. It is
    also what [path.resolve] computes for an absolute path. *)
Definition resolve (p : string) : list string :=
  normalize_segs false (split p).

Definition render_abs (segs : list string) : string :=
  "/" +:+ String.concat "/" segs.

(** [path.dirname] of an absolute path as [join] returns them: the path
    without its last segment. *)
Definition dirname (p : string) : string :=
  render_abs (removelast (resolve p)).

Fixpoint strip_common (from to : list string)
  : list string * list string :=
  match from, to with
  | f :: from', t :: to' =>
      if String.eqb f t then strip_common from' to' else (from, to)
  | _, _ => (from, to)
  end.

(** [path.relative(from, to)] for absolute arguments: one [..] for every
    segment of [from] below the common ancestor, then what is left of
    [to]; the empty string when they resolve to the same place. *)
Definition relative (from to : string) : string :=
  let '(up, down) := strip_common (resolve from) (resolve to) in
  String.concat "/" (map (fun _ => "..") up ++ down).

(** [name.startsWith('.')]. *)
Definition startsWithDot (name : string) : bool :=
  match name with String c _ => Ascii.eqb c "."%char | EmptyString => false end.

(** The segments of a root-relative path as it travels in a message. *)
Definition segments (p : string) : list string := split p.

(** [p] lies at or below [root]. *)
Definition inside (root p : string) : Prop :=
  resolve root `prefix_of` resolve p.

(** A message path none of whose segments is [..]. *)
Definition dotdot_free (p : string) : Prop := ".." ∉ split p.

(** A segment that names an entry: not empty, not [.], not [..]. *)
Definition proper (seg : string) : bool :=
  negb (String.eqb seg EmptyString) && negb (String.eqb seg ".")
  && negb (String.eqb seg "..").

(** A message path that names something below the root it is joined to. *)
Definition names_entry (p : string) : Prop :=
  Exists (fun seg => proper seg = true) (split p).

Definition slash_free (s : string) : Prop :=
  Forall (fun c => c <> sep) (String.list_ascii_of_string s).

(** A root-relative path written from its segments. *)
Definition render (segs : list string) : string := String.concat "/" segs.

(** [p] lies below the directory [dir], both root-relative. *)
Definition strictly_under (dir p : string) : Prop :=
  exists rest, rest <> [] /\ segments p = segments dir ++ rest.

End Path.

(* ===================================================================== *)
(** ** The filesystem the [fs-extra] calls act on                        *)
(* ===================================================================== *)

(** One tree from [/] down. A directory lists its entries in the order
    [readdir] reports them. Contents are byte strings. Permission bits are
    stored but not enforced, symbolic links are absent, and a call sees the
    tree at one instant: the errors of the model are those the shape of the
    tree decides (a missing path, a file where a directory is needed, a
    directory where a file is needed). *)

Module Fs.

Inductive errno := ENOENT | ENOTDIR | EEXIST | EISDIR | EINVAL | EBUSY.

#[warnings="-register-all"] Inductive node :=
| File (mode : N) (content : string)
| Dir (mode : N) (entries : list (string * node))
| Special (mode : N).

Inductive result (A : Type) :=
| Ok (a : A)
| Err (e : errno).
Arguments Ok {A} a.
Arguments Err {A} e.

Definition and_then {A B} (r : result A) (k : A -> result B) : result B :=
  match r with Ok a => k a | Err e => Err e end.

(** Modes of what [writeFile] and [mkdir] create under the usual umask 022. *)
Definition default_file_mode : N := 420.  (* 0o644 *)
Definition default_dir_mode : N := 493.   (* 0o755 *)

Fixpoint assoc (name : string) (es : list (string * node)) : option node :=
  match es with
  | [] => None
  | (n, c) :: es' => if String.eqb n name then Some c else assoc name es'
  end.

(** Replace the entry called [name], or add it after the others. *)
Fixpoint set_entry (name : string) (c : node) (es : list (string * node))
  : list (string * node) :=
  match es with
  | [] => [(name, c)]
  | (n, c0) :: es' =>
      if String.eqb n name then (n, c) :: es'
      else (n, c0) :: set_entry name c es'
  end.

Fixpoint del_entry (name : string) (es : list (string * node))
  : list (string * node) :=
  match es with
  | [] => []
  | (n, c0) :: es' =>
      if String.eqb n name then es' else (n, c0) :: del_entry name es'
  end.

Definition mode_of (n : node) : N :=
  match n with File m _ => m | Dir m _ => m | Special m => m end.

Definition set_mode (m : N) (n : node) : node :=
  match n with
  | File _ c => File m c
  | Dir _ es => Dir m es
  | Special _ => Special m
  end.

Definition isFile (n : node) : bool :=
  match n with File _ _ => true | _ => false end.

Definition isDirectory (n : node) : bool :=
  match n with Dir _ _ => true | _ => false end.

(** [fs.stat]: the node a path names. *)
Fixpoint stat (k : list string) (n : node) : result node :=
  match k with
  | [] => Ok n
  | name :: k' =>
      match n with
      | Dir _ es =>
          match assoc name es with
          | Some c => stat k' c
          | None => Err ENOENT
          end
      | _ => Err ENOTDIR
      end
  end.

(** [fs.pathExists]: whether [stat] succeeds. *)
Definition pathExists (k : list string) (n : node) : bool :=
  match stat k n with Ok _ => true | Err _ => false end.

(** [fs.readFile]. *)
Definition readFile (k : list string) (n : node) : result string :=
  and_then (stat k n) (fun c =>
    match c with
    | File _ bytes => Ok bytes
    | Dir _ _ => Err EISDIR
    | Special _ => Err EINVAL
    end).

(** [fs.writeFile]: the parent must be a directory; a file that is there
    keeps its mode; a directory in the way is an error. *)
Fixpoint writeFile (k : list string) (bytes : string) (n : node) : result node :=
  match n with
  | Dir m es =>
      match k with
      | [] => Err EISDIR
      | [name] =>
          match assoc name es with
          | Some (File fm _) => Ok (Dir m (set_entry name (File fm bytes) es))
          | Some (Dir _ _) => Err EISDIR
          | Some (Special _) => Ok n
          | None => Ok (Dir m (set_entry name (File default_file_mode bytes) es))
          end
      | name :: k' =>
          match assoc name es with
          | Some c =>
              and_then (writeFile k' bytes c) (fun c' =>
                Ok (Dir m (set_entry name c' es)))
          | None => Err ENOENT
          end
      end
  | _ => match k with [] => Err EINVAL | _ => Err ENOTDIR end
  end.

(** [fs.ensureDir] (mkdir -p): every missing directory on the way is
    created; anything on the way that is not a directory is an error. *)
Fixpoint ensureDir (k : list string) (n : node) : result node :=
  match n with
  | Dir m es =>
      match k with
      | [] => Ok n
      | name :: k' =>
          let child :=
            match assoc name es with
            | Some c => c
            | None => Dir default_dir_mode []
            end in
          and_then (ensureDir k' child) (fun c' =>
            Ok (Dir m (set_entry name c' es)))
      end
  | _ => match k with [] => Err EEXIST | _ => Err ENOTDIR end
  end.

(** [fs.remove] (rm -rf): the entry goes with all below it; a path that is
    not there is no error; a file on the way to it is. *)
Fixpoint remove (k : list string) (n : node) : result node :=
  match n with
  | Dir m es =>
      match k with
      | [] => Err EBUSY
      | [name] => Ok (Dir m (del_entry name es))
      | name :: k' =>
          match assoc name es with
          | Some c =>
              and_then (remove k' c) (fun c' =>
                Ok (Dir m (set_entry name c' es)))
          | None => Ok n
          end
      end
  | _ => match k with [] => Err EBUSY | _ => Err ENOTDIR end
  end.

(** [fs.chmod]. *)
Fixpoint chmod (k : list string) (mode : N) (n : node) : result node :=
  match k with
  | [] => Ok (set_mode mode n)
  | name :: k' =>
      match n with
      | Dir m es =>
          match assoc name es with
          | Some c =>
              and_then (chmod k' mode c) (fun c' =>
                Ok (Dir m (set_entry name c' es)))
          | None => Err ENOENT
          end
      | _ => Err ENOTDIR
      end
  end.

(** Put [c] at [k]; the parent must be a directory that is there. *)
Fixpoint put (k : list string) (c : node) (n : node) : result node :=
  match n with
  | Dir m es =>
      match k with
      | [] => Err EEXIST
      | [name] => Ok (Dir m (set_entry name c es))
      | name :: k' =>
          match assoc name es with
          | Some d =>
              and_then (put k' c d) (fun d' =>
                Ok (Dir m (set_entry name d' es)))
          | None => Err ENOENT
          end
      end
  | _ => Err ENOTDIR
  end.

(** [fs.move] of fs-extra without [overwrite]: the source must exist, the
    destination must not and must not lie at or below the source; the
    destination's parent is created when missing. *)
Definition move (src dst : list string) (n : node) : result node :=
  and_then (stat src n) (fun moved =>
    if bool_decide (src `prefix_of` dst) then Err EINVAL
    else
      and_then (ensureDir (removelast dst) n) (fun n1 =>
        if pathExists dst n1 then Err EEXIST
        else and_then (remove src n1) (fun n2 => put dst moved n2))).

(** A name [readdir] can report: not empty, not [.] or [..], no separator. *)
Definition valid_name (name : string) : bool :=
  negb (String.eqb name EmptyString) && negb (String.eqb name ".")
  && negb (String.eqb name "..")
  && forallb (fun c => negb (Ascii.eqb c Path.sep)) (String.list_ascii_of_string name).

(** A tree as a filesystem has them: in every directory the names are
    valid and occur once. *)
Fixpoint wf (n : node) : bool :=
  match n with
  | Dir _ es =>
      forallb valid_name (map fst es)
      && bool_decide (NoDup (map fst es))
      && (fix wf_entries (es : list (string * node)) : bool :=
            match es with
            | [] => true
            | (_, c) :: es' => wf c && wf_entries es'
            end) es
  | _ => true
  end.

End Fs.

(* ===================================================================== *)
(** ** Messages, effects and the monad of the handlers                   *)
(* ===================================================================== *)

(** One item of a snapshot: [{ path, type, size }]. *)
Record fsEntry := {
  e_path : string;
  e_type : string;
  e_size : option N
}.

(** The payload of [fileOperation] (edge to hub). A field the sender left
    out is [None]. *)
Record opData := {
  op_operation : string;
  op_path : string;
  op_content : option string;
  op_encoding : option string;
  op_newPath : option string;
  op_mode : option N
}.

(** The payload of [fileSystemChange] (hub to edges). [ev_content] is
    [None] when the field is not a string. *)
Record changeData := {
  ev_event : string;
  ev_path : string;
  ev_type : option string;
  ev_content : option string;
  ev_encoding : option string;
  ev_mode : option N
}.

Inductive message :=
| fileSystemState (files : list fsEntry)
| fileSystemChange (d : changeData)
| fileOperation (d : opData)
| requestFileContent (path : string)
| fileContent (path content encoding : string)
| operationError (msg operation : string) (path : option string).

(** Where an [emit] goes: the edge's socket to the hub, one session's
    socket ([socket.emit]), or every session ([io.emit]). *)
Inductive dest :=
| ToHub
| ToSocket (sid : string)
| ToAll.

Inductive fs_call :=
| ensureDir_call (p : string)
| writeFile_call (p bytes : string)
| remove_call (p : string)
| move_call (src dst : string)
| chmod_call (p : string) (mode : N)
| readFile_call (p : string)
| stat_call (p : string)
| pathExists_call (p : string)
| readdir_call (p : string).

(** What a handler does to the world, in the order it does it.
    [SetTimeout ms k] is [setTimeout(() => activeOperations.delete(k), ms)]. *)
Inductive effect :=
| FsCall (c : fs_call)
| Emit (to : dest) (m : message)
| LedgerAdd (k : string)
| LedgerDelete (k : string)
| SetTimeout (ms : N) (k : string).

(** What a JavaScript [throw] carries. *)
Inductive error :=
| FsError (e : Fs.errno) (p : string)
| TypeError (what : string)
| UserError (msg : string).

Definition errno_name (e : Fs.errno) : string :=
  match e with
  | Fs.ENOENT => "ENOENT" | Fs.ENOTDIR => "ENOTDIR" | Fs.EEXIST => "EEXIST"
  | Fs.EISDIR => "EISDIR" | Fs.EINVAL => "EINVAL" | Fs.EBUSY => "EBUSY"
  end.

(** [error.message] (Node's wording shortened to the code and the path). *)
Definition error_message (e : error) : string :=
  match e with
  | FsError c p => errno_name c +:+ ": " +:+ p
  | TypeError what => what
  | UserError msg => msg
  end.

Inductive outcome (A : Type) :=
| Return (a : A)
| Throw (e : error).
Arguments Return {A} a.
Arguments Throw {A} e.

(** A handler: from the agent's state to how it ended, the new state and
    the effects in order. *)
Definition M (S A : Type) : Type := S -> outcome A * S * list effect.

#[global] Instance M_ret {S} : MRet (M S) :=
  fun A a s => (Return a, s, []).

#[global] Instance M_bind {S} : MBind (M S) :=
  fun A B k m s =>
    match m s with
    | (Return a, s1, t1) => let '(r, s2, t2) := k a s1 in (r, s2, t1 ++ t2)
    | (Throw e, s1, t1) => (Throw e, s1, t1)
    end.

Definition throw {S A} (e : error) : M S A := fun s => (Throw e, s, []).

(** [try { m } catch (e) { h e }]. *)
Definition try_catch {S A} (m : M S A) (h : error -> M S A) : M S A :=
  fun s =>
    match m s with
    | (Return a, s1, t1) => (Return a, s1, t1)
    | (Throw e, s1, t1) => let '(r, s2, t2) := h e s1 in (r, s2, t1 ++ t2)
    end.

(** [try { m } finally { c }]: [c] runs however [m] ended. *)
Definition finally {S A} (m : M S A) (c : M S unit) : M S A :=
  fun s =>
    let '(r, s1, t1) := m s in
    match c s1 with
    | (Return _, s2, t2) => (r, s2, t1 ++ t2)
    | (Throw e, s2, t2) => (Throw e, s2, t1 ++ t2)
    end.

Definition get {S} : M S S := fun s => (Return s, s, []).
Definition modify {S} (f : S -> S) : M S unit := fun s => (Return tt, f s, []).
Definition tell {S} (e : effect) : M S unit := fun s => (Return tt, s, [e]).
Definition emit {S} (to : dest) (m : message) : M S unit := tell (Emit to m).

(** [for (const x of l) { await f(x) }]. *)
Fixpoint for_each {S X} (l : list X) (f : X -> M S unit) : M S unit :=
  match l with
  | [] => mret tt
  | x :: l' => f x ;; for_each l' f
  end.

Definition trace_of {S A} (r : outcome A * S * list effect) : list effect := r.2.
Definition state_of {S A} (r : outcome A * S * list effect) : S := r.1.2.
Definition outcome_of {S A} (r : outcome A * S * list effect) : outcome A := r.1.1.

(** The messages a trace sends, with their destinations. *)
Definition emitted (t : list effect) : list (dest * message) :=
  omap (fun e => match e with Emit to m => Some (to, m) | _ => None end) t.

(** The paths the filesystem calls of a trace are given. *)
Definition call_targets (c : fs_call) : list string :=
  match c with
  | ensureDir_call p | writeFile_call p _ | remove_call p | chmod_call p _
  | readFile_call p | stat_call p | pathExists_call p | readdir_call p => [p]
  | move_call src dst => [src; dst]
  end.

Definition fs_targets (t : list effect) : list string :=
  concat (omap (fun e => match e with FsCall c => Some (call_targets c) | _ => None end) t).

(** An agent state that holds a filesystem. *)
Class HasFs (S : Type) := {
  the_fs : S -> Fs.node;
  with_fs : Fs.node -> S -> S
}.

Section fs_calls.
Context {S : Type} `{HasFs S}.

Definition fs_update (c : fs_call) (p : string)
    (f : Fs.node -> Fs.result Fs.node) : M S unit :=
  fun s =>
    match f (the_fs s) with
    | Fs.Ok fs' => (Return tt, with_fs fs' s, [FsCall c])
    | Fs.Err e => (Throw (FsError e p), s, [FsCall c])
    end.

Definition fs_query {A} (c : fs_call) (p : string)
    (f : Fs.node -> Fs.result A) : M S A :=
  fun s =>
    match f (the_fs s) with
    | Fs.Ok a => (Return a, s, [FsCall c])
    | Fs.Err e => (Throw (FsError e p), s, [FsCall c])
    end.

Definition ensureDir (p : string) : M S unit :=
  fs_update (ensureDir_call p) p (Fs.ensureDir (Path.resolve p)).
Definition writeFile (p bytes : string) : M S unit :=
  fs_update (writeFile_call p bytes) p (Fs.writeFile (Path.resolve p) bytes).
Definition remove (p : string) : M S unit :=
  fs_update (remove_call p) p (Fs.remove (Path.resolve p)).
Definition move (src dst : string) : M S unit :=
  fs_update (move_call src dst) src (Fs.move (Path.resolve src) (Path.resolve dst)).
Definition chmod (p : string) (mode : N) : M S unit :=
  fs_update (chmod_call p mode) p (Fs.chmod (Path.resolve p) mode).
Definition readFile (p : string) : M S string :=
  fs_query (readFile_call p) p (Fs.readFile (Path.resolve p)).
Definition stat (p : string) : M S Fs.node :=
  fs_query (stat_call p) p (Fs.stat (Path.resolve p)).
Definition pathExists (p : string) : M S bool :=
  fs_query (pathExists_call p) p (fun n => Fs.Ok (Fs.pathExists (Path.resolve p) n)).

End fs_calls.

(** [Buffer.from(text, encoding)] ([None]: the encoding is unknown and the
    call throws) and [buffer.toString(encoding)], which belong to Node. *)
Class BufferCodec := {
  Buffer_from : string -> string -> option string;
  Buffer_toString : string -> string -> string
}.

(** [x || 'base64'] for a field that may be absent or empty. *)
Definition or_base64 (encoding : option string) : string :=
  match encoding with
  | Some e => if String.eqb e EmptyString then "base64" else e
  | None => "base64"
  end.

(** [stat.mode & 0o777]. *)
Definition perm_bits (n : Fs.node) : N := N.land (Fs.mode_of n) 511.

(* ===================================================================== *)
(** ** The snapshot walk                                                  *)
(* ===================================================================== *)

(** The loop over [entries] of [getFileSystemState] / [getLocalFiles]
    (the two are the same code). [rec] is the recursive call on a
    subdirectory. A name that starts with a dot is skipped with all below
    it; a directory is listed before what it holds; an entry that is
    neither a directory nor a file is left out. *)
Fixpoint walk_entries (rec : string -> Fs.node -> list fsEntry)
    (relativeBasePath : string) (entries : list (string * Fs.node))
  : list fsEntry :=
  match entries with
  | [] => []
  | (name, child) :: rest =>
      if Path.startsWithDot name then walk_entries rec relativeBasePath rest
      else
        let entryRelativePath := Path.join relativeBasePath name in
        match child with
        | Fs.Dir _ _ =>
            {| e_path := entryRelativePath; e_type := "directory"; e_size := None |}
            :: rec entryRelativePath child
            ++ walk_entries rec relativeBasePath rest
        | Fs.File _ bytes =>
            {| e_path := entryRelativePath; e_type := "file";
               e_size := Some (N.of_nat (String.length bytes)) |}
            :: walk_entries rec relativeBasePath rest
        | Fs.Special _ => walk_entries rec relativeBasePath rest
        end
  end.

(** The walk from the node at [currentPath]; [readdir] of anything but a
    directory throws, which the walk catches and answers with no items.
    The recursive call of the source, on the path of a subdirectory, is
    here the call on the node of that entry. The walk sees one tree from
    start to end, so [stat] of a file it has listed does not fail. *)
Fixpoint snapshot_walk (relativeBasePath : string) (current : Fs.node)
  : list fsEntry :=
  match current with
  | Fs.Dir _ entries => walk_entries snapshot_walk relativeBasePath entries
  | _ => []
  end.

(** The walk started at an absolute path of the filesystem. *)
Definition snapshot (root : string) (fs : Fs.node) : list fsEntry :=
  match Fs.stat (Path.resolve root) fs with
  | Fs.Ok current => snapshot_walk EmptyString current
  | Fs.Err _ => []
  end.

(** Directory before descendant: a directory item comes before every item
    below it, and the parent of every item that has one is a directory
    item that comes before it. *)
Definition directories_first (snap : list fsEntry) : Prop :=
  (forall i j d e,
      snap !! i = Some d -> snap !! j = Some e ->
      e_type d = "directory" -> Path.strictly_under (e_path d) (e_path e) ->
      i < j) /\
  (forall j e parent name,
      snap !! j = Some e ->
      Path.segments (e_path e) = parent ++ [name] -> parent <> [] ->
      exists i d, i < j /\ snap !! i = Some d /\ e_type d = "directory"
                  /\ Path.segments (e_path d) = parent).

(** No segment of the path starts with a dot. *)
Definition no_hidden_segment (p : string) : Prop :=
  Forall (fun seg => Path.startsWithDot seg = false) (Path.segments p).

(** The last segment of a path. *)
Definition last_segment (p : string) : string :=
  List.last (Path.segments p) EmptyString.

(** The [ignored] option both watchers are given, [/(^|[\/\\])\../]:
    somewhere in the path, at its start or after a slash or backslash,
    there is a dot followed by one more character. The [.] of a JavaScript
    pattern matches any character but a line terminator. *)
Definition is_line_terminator (c : ascii) : bool :=
  Ascii.eqb c "010"%char || Ascii.eqb c "013"%char.

Definition dot_then_any (s : string) : bool :=
  match s with
  | String c (String c' _) => Ascii.eqb c "."%char && negb (is_line_terminator c')
  | _ => false
  end.

Fixpoint ignored_from (boundary : bool) (s : string) : bool :=
  match s with
  | EmptyString => false
  | String c s' =>
      (boundary && dot_then_any s)
      || ignored_from (Ascii.eqb c "/"%char || Ascii.eqb c "092"%char) s'
  end.

Definition ignored (p : string) : bool := ignored_from true p.

(** [s.includes(t)]. *)
Fixpoint includes (t s : string) : bool :=
  String.prefix t s
  || match s with EmptyString => false | String _ s' => includes t s' end.

(* ===================================================================== *)
(** ** The edge: class [FileSystemClient]                                *)
(* ===================================================================== *)

Module FileSystemClient.

(** The fields of the object, the filesystem it runs on, the clock, and the
    [setTimeout] callbacks that have not fired yet (when each is due and
    the ledger key it deletes). *)
Record client := {
  localDir : string;
  isInitialSync : bool;
  activeOperations : gset string;
  fileModes : gmap string N;
  watcher : bool;
  polling : bool;
  timers : list (N * string);
  now : N;
  fs : Fs.node
}.

Definition set_isInitialSync (b : bool) (c : client) : client :=
  {| localDir := localDir c; isInitialSync := b;
     activeOperations := activeOperations c; fileModes := fileModes c;
     watcher := watcher c; polling := polling c; timers := timers c;
     now := now c; fs := fs c |}.

Definition set_activeOperations (a : gset string) (c : client) : client :=
  {| localDir := localDir c; isInitialSync := isInitialSync c;
     activeOperations := a; fileModes := fileModes c;
     watcher := watcher c; polling := polling c; timers := timers c;
     now := now c; fs := fs c |}.

Definition set_fileModes (m : gmap string N) (c : client) : client :=
  {| localDir := localDir c; isInitialSync := isInitialSync c;
     activeOperations := activeOperations c; fileModes := m;
     watcher := watcher c; polling := polling c; timers := timers c;
     now := now c; fs := fs c |}.

Definition set_watcher (b : bool) (c : client) : client :=
  {| localDir := localDir c; isInitialSync := isInitialSync c;
     activeOperations := activeOperations c; fileModes := fileModes c;
     watcher := b; polling := polling c; timers := timers c;
     now := now c; fs := fs c |}.

Definition set_polling (b : bool) (c : client) : client :=
  {| localDir := localDir c; isInitialSync := isInitialSync c;
     activeOperations := activeOperations c; fileModes := fileModes c;
     watcher := watcher c; polling := b; timers := timers c;
     now := now c; fs := fs c |}.

Definition set_timers (t : list (N * string)) (c : client) : client :=
  {| localDir := localDir c; isInitialSync := isInitialSync c;
     activeOperations := activeOperations c; fileModes := fileModes c;
     watcher := watcher c; polling := polling c; timers := t;
     now := now c; fs := fs c |}.

Definition set_now (t : N) (c : client) : client :=
  {| localDir := localDir c; isInitialSync := isInitialSync c;
     activeOperations := activeOperations c; fileModes := fileModes c;
     watcher := watcher c; polling := polling c; timers := timers c;
     now := t; fs := fs c |}.

Definition set_fs (n : Fs.node) (c : client) : client :=
  {| localDir := localDir c; isInitialSync := isInitialSync c;
     activeOperations := activeOperations c; fileModes := fileModes c;
     watcher := watcher c; polling := polling c; timers := timers c;
     now := now c; fs := n |}.

#[global] Instance client_fs : HasFs client :=
  {| the_fs := fs; with_fs := set_fs |}.

(** [new FileSystemClient(serverUrl, localDir)] on a filesystem where the
    local directory is in place. *)
Definition init (dir : string) (tree : Fs.node) : client :=
  {| localDir := dir; isInitialSync := true; activeOperations := ∅;
     fileModes := ∅; watcher := false; polling := false; timers := [];
     now := 0; fs := tree |}.

(** [`${event}-${path}`]. *)
Definition operationKey (event path : string) : string :=
  event +:+ "-" +:+ path.

(** [this.activeOperations.add(key)] and [.delete(key)]. *)
Definition ledger_add (k : string) : M client unit :=
  modify (fun c => set_activeOperations ({[k]} ∪ activeOperations c) c) ;;
  tell (LedgerAdd k).

Definition ledger_delete (k : string) : M client unit :=
  modify (fun c => set_activeOperations (activeOperations c ∖ {[k]}) c) ;;
  tell (LedgerDelete k).

(** [setTimeout(() => this.activeOperations.delete(k), ms)]. *)
Definition setTimeout_delete (k : string) (ms : N) : M client unit :=
  modify (fun c => set_timers (timers c ++ [((now c + ms)%N, k)]) c) ;;
  tell (SetTimeout ms k).

(** The clock moves on by [dt] milliseconds; the callbacks that are due
    by then run, in the order they were set. *)
Definition advance (dt : N) : M client unit :=
  c ← get;
  let t := (now c + dt)%N in
  let due := filter (fun x => (x.1 <=? t)%N = true) (timers c) in
  let later := filter (fun x => (x.1 <=? t)%N = false) (timers c) in
  modify (fun c => set_timers later (set_now t c)) ;;
  for_each due (fun x => ledger_delete x.2).

Definition cache_set (p : string) (mode : N) : M client unit :=
  modify (fun c => set_fileModes (<[p := mode]> (fileModes c)) c).

Definition cache_delete (p : string) : M client unit :=
  modify (fun c => set_fileModes (delete p (fileModes c)) c).

(** [getLocalFiles()]. *)
Definition getLocalFiles : M client (list fsEntry) :=
  c ← get;
  tell (FsCall (readdir_call (localDir c))) ;;
  mret (snapshot (localDir c) (fs c)).

(** [cacheFileModes()]. *)
Definition cacheFileModes : M client unit :=
  files ← getLocalFiles;
  c ← get;
  for_each files (fun file =>
    let fullPath := Path.join (localDir c) (e_path file) in
    try_catch
      (st ← stat fullPath; cache_set (e_path file) (perm_bits st))
      (fun _ => mret tt)).

Section handlers.
Context {codec : BufferCodec}.

(** [Buffer.from(content, encoding)], which throws on an encoding Node
    does not know. *)
Definition decode (content encoding : string) : M client string :=
  match Buffer_from content encoding with
  | Some bytes => mret bytes
  | None => throw (TypeError ("Unknown encoding: " +:+ encoding))
  end.

Definition chmod_op (p : string) (mode : N) : opData :=
  {| op_operation := "chmod"; op_path := p; op_content := None;
     op_encoding := None; op_newPath := None; op_mode := Some mode |}.

Definition plain_op (operation p : string) : opData :=
  {| op_operation := operation; op_path := p; op_content := None;
     op_encoding := None; op_newPath := None; op_mode := None |}.

Definition write_op (p content : string) : opData :=
  {| op_operation := "write"; op_path := p; op_content := Some content;
     op_encoding := Some "base64"; op_newPath := None; op_mode := None |}.

(** The [switch] of [handleLocalChange]: the message to send afterwards,
    or [None] on the [default] branch, which returns from inside the
    [try]. *)
Definition localSwitch (event filePath relativePath operationKey : string)
  : M client (option opData) :=
  if String.eqb event "add" || String.eqb event "change" then
    content ← readFile filePath;
    st ← stat filePath;
    c ← get;
    (if bool_decide (fileModes c !! relativePath = Some (perm_bits st))
     then mret tt
     else cache_set relativePath (perm_bits st) ;;
          emit ToHub (fileOperation (chmod_op relativePath (perm_bits st)))) ;;
    mret (Some (write_op relativePath (Buffer_toString content "base64")))
  else if String.eqb event "unlink" then
    cache_delete relativePath ;;
    mret (Some (plain_op "delete" relativePath))
  else if String.eqb event "addDir" then
    st ← stat filePath;
    cache_set relativePath (perm_bits st) ;;
    emit ToHub (fileOperation (chmod_op relativePath (perm_bits st))) ;;
    mret (Some (plain_op "mkdir" relativePath))
  else if String.eqb event "unlinkDir" then
    cache_delete relativePath ;;
    mret (Some (plain_op "delete" relativePath))
  else
    ledger_delete operationKey ;;
    mret None.

(** [handleLocalChange(event, filePath)]. *)
Definition handleLocalChange (event filePath : string) : M client unit :=
  c ← get;
  if isInitialSync c then mret tt
  else
    let relativePath := Path.relative (localDir c) filePath in
    if String.eqb relativePath EmptyString then mret tt
    else
      let operationKey := operationKey event relativePath in
      if bool_decide (operationKey ∈ activeOperations c) then mret tt
      else
        ledger_add operationKey ;;
        finally
          (try_catch
             (opData ← localSwitch event filePath relativePath operationKey;
              match opData with
              | Some d => emit ToHub (fileOperation d)
              | None => mret tt
              end)
             (fun _ => mret tt))
          (setTimeout_delete operationKey 500).

(** [applyChmod(relativePath, mode)]. *)
Definition applyChmod (relativePath : string) (mode : N) : M client unit :=
  c ← get;
  let fullPath := Path.join (localDir c) relativePath in
  try_catch
    (chmod fullPath mode ;; cache_set relativePath mode)
    (fun _ => mret tt).

(** The [switch] of [handleServerChange]. *)
Definition serverSwitch (data : changeData) (fullPath : string) : M client unit :=
  let event := ev_event data in
  if String.eqb event "add" || String.eqb event "change" then
    match ev_content data with
    | None => mret tt
    | Some content =>
        ensureDir (Path.dirname fullPath) ;;
        bytes ← decode content (or_base64 (ev_encoding data));
        writeFile fullPath bytes
    end
  else if String.eqb event "unlink" then remove fullPath
  else if String.eqb event "addDir" then ensureDir fullPath
  else if String.eqb event "unlinkDir" then remove fullPath
  else mret tt.

(** [handleServerChange(data)]. *)
Definition handleServerChange (data : changeData) : M client unit :=
  c ← get;
  let fullPath := Path.join (localDir c) (ev_path data) in
  let operationKey := operationKey (ev_event data) (ev_path data) in
  ledger_add operationKey ;;
  finally
    (try_catch (serverSwitch data fullPath) (fun _ => mret tt))
    (ledger_delete operationKey).

(** [data.event === 'chmod' && data.mode]: a mode of 0 is falsy. *)
Definition chmod_with_mode (data : changeData) : option N :=
  if String.eqb (ev_event data) "chmod" then
    match ev_mode data with
    | Some m => if (m =? 0)%N then None else Some m
    | None => None
    end
  else None.

(** The handler of [fileSystemChange]. (Its first test, on
    [isInitialSync], only writes to the console.) *)
Definition on_fileSystemChange (data : changeData) : M client unit :=
  c ← get;
  let operationKey := operationKey (ev_event data) (ev_path data) in
  if bool_decide (operationKey ∈ activeOperations c) then mret tt
  else
    match chmod_with_mode data with
    | Some mode => applyChmod (ev_path data) mode
    | None => handleServerChange data
    end.

(** The handler of [fileContent]. *)
Definition on_fileContent (filePath content : string) (encoding : option string)
  : M client unit :=
  c ← get;
  let fullPath := Path.join (localDir c) filePath in
  let operationKey := "write-" +:+ filePath in
  ledger_add operationKey ;;
  finally
    (try_catch
       (ensureDir (Path.dirname fullPath) ;;
        bytes ← decode content (or_base64 encoding);
        writeFile fullPath bytes)
       (fun _ => mret tt))
    (ledger_delete operationKey).

(** A JavaScript [Set] built from a list: every value once, in the order
    of first insertion. *)
Fixpoint to_set (seen : list string) (l : list string) : list string :=
  match l with
  | [] => []
  | x :: l' =>
      if bool_decide (x ∈ seen) then to_set seen l'
      else x :: to_set (x :: seen) l'
  end.

(** [syncWithServer(files)]. *)
Definition syncWithServer (files : list fsEntry) : M client unit :=
  localFiles ← getLocalFiles;
  c ← get;
  let localFilePaths := to_set [] (map e_path localFiles) in
  let serverFilePaths := map e_path files in
  for_each localFilePaths (fun localPath =>
    if bool_decide (localPath ∈ serverFilePaths) then mret tt
    else
      let fullPath := Path.join (localDir c) localPath in
      ledger_add ("delete-" +:+ localPath) ;;
      remove fullPath ;;
      ledger_delete ("delete-" +:+ localPath)) ;;
  for_each files (fun file =>
    let fullPath := Path.join (localDir c) (e_path file) in
    let isDir := String.eqb (e_type file) "directory" in
    let operationKey :=
      (if isDir then "mkdir" else "write") +:+ "-" +:+ e_path file in
    ledger_add operationKey ;;
    (if isDir then ensureDir fullPath
     else emit ToHub (requestFileContent (e_path file))) ;;
    (if isDir then ledger_delete operationKey else mret tt)) ;;
  cacheFileModes.

(** [setupWatcher()]: the watcher is attached (a second call replaces
    it). *)
Definition setupWatcher : M client unit :=
  modify (set_watcher true).

(** The handler of [fileSystemState]. *)
Definition on_fileSystemState (files : list fsEntry) : M client unit :=
  modify (set_isInitialSync true) ;;
  syncWithServer files ;;
  modify (set_isInitialSync false) ;;
  setupWatcher.

(** The watcher's [ready] event. *)
Definition on_ready : M client unit :=
  cacheFileModes ;; modify (set_polling true).

(** One run of the interval callback of [startModePolling()]. *)
Definition modePoll : M client unit :=
  files ← getLocalFiles;
  c0 ← get;
  for_each files (fun file =>
    let fullPath := Path.join (localDir c0) (e_path file) in
    try_catch
      (st ← stat fullPath;
       c ← get;
       if bool_decide (fileModes c !! e_path file = Some (perm_bits st))
       then mret tt
       else cache_set (e_path file) (perm_bits st) ;;
            emit ToHub (fileOperation (chmod_op (e_path file) (perm_bits st))))
      (fun _ => mret tt)).

(** The change source: chokidar tests a path against [ignored] before it
    calls the listeners, and calls none before [setupWatcher]. *)
Definition on_watch (event filePath : string) : M client unit :=
  c ← get;
  if negb (watcher c) || ignored filePath then mret tt
  else handleLocalChange event filePath.

End handlers.

End FileSystemClient.

(* ===================================================================== *)
(** ** The hub: class [FileSystemServer]                                 *)
(* ===================================================================== *)

Module FileSystemServer.

Record server := {
  watchDir : string;
  clients : gset string;
  fs : Fs.node
}.


Definition set_fs (n : Fs.node) (h : server) : server :=
  {| watchDir := watchDir h; clients := clients h; fs := n |}.

#[global] Instance server_fs : HasFs server :=
  {| the_fs := fs; with_fs := set_fs |}.


(** [getFileSystemState()]. *)
Definition getFileSystemState : M server (list fsEntry) :=
  h ← get;
  tell (FsCall (readdir_call (watchDir h))) ;;
  mret (snapshot (watchDir h) (fs h)).


Section handlers.
Context {codec : BufferCodec}.

Definition decode (content : option string) (encoding : string) : M server string :=
  match content with
  | None => throw (TypeError "The first argument must be of type string")
  | Some text =>
      match Buffer_from text encoding with
      | Some bytes => mret bytes
      | None => throw (TypeError ("Unknown encoding: " +:+ encoding))
      end
  end.

Definition chmod_change (p : string) (mode : N) : changeData :=
  {| ev_event := "chmod"; ev_path := p; ev_type := None; ev_content := None;
     ev_encoding := None; ev_mode := Some mode |}.

(** [handleClientOperation(data)]. Its [catch] logs and throws again. *)
Definition handleClientOperation (data : opData) : M server unit :=
  h ← get;
  let operation := op_operation data in
  let relativePath := op_path data in
  let fullPath := Path.join (watchDir h) relativePath in
  if String.eqb operation "write" then
    ensureDir (Path.dirname fullPath) ;;
    bytes ← decode (op_content data) "base64";
    writeFile fullPath bytes
  else if String.eqb operation "delete" then remove fullPath
  else if String.eqb operation "mkdir" then ensureDir fullPath
  else if String.eqb operation "rename" then
    match op_newPath data with
    | None => throw (TypeError "The path argument must be of type string")
    | Some newPath => move fullPath (Path.join (watchDir h) newPath)
    end
  else if String.eqb operation "chmod" then
    match op_mode data with
    | None => throw (TypeError "The mode argument must be of type number")
    | Some mode =>
        chmod fullPath mode ;;
        emit ToAll (fileSystemChange (chmod_change relativePath mode))
    end
  else throw (UserError ("Unknown client operation: " +:+ operation)).

(** The handler of [fileOperation] on the socket of session [sid]. *)
Definition on_fileOperation (sid : string) (data : opData) : M server unit :=
  try_catch (handleClientOperation data)
    (fun error =>
       emit (ToSocket sid)
         (operationError (error_message error) (op_operation data)
            (Some (op_path data)))).

(** The handler of [requestFileContent] on the socket of session [sid]. *)
Definition on_requestFileContent (sid filePath : string) : M server unit :=
  h ← get;
  let fullPath := Path.join (watchDir h) filePath in
  try_catch
    (there ← pathExists fullPath;
     regular ← (if there : bool then st ← stat fullPath; mret (Fs.isFile st)
                else mret false);
     if regular : bool then
       content ← readFile fullPath;
       emit (ToSocket sid)
         (fileContent filePath (Buffer_toString content "base64") "base64")
     else
       emit (ToSocket sid)
         (operationError ("File not found on server: " +:+ filePath)
            "requestFileContent" (Some filePath)))
    (fun _ =>
       emit (ToSocket sid)
         (operationError ("Error reading file " +:+ filePath)
            "requestFileContent" (Some filePath))).

Definition change (event p : string) (type content encoding : option string)
  : changeData :=
  {| ev_event := event; ev_path := p; ev_type := type; ev_content := content;
     ev_encoding := encoding; ev_mode := None |}.

(** [handleFileChange(event, watchedPath)]. The test on [relativePath] at
    its top is false for every string, so nothing returns there. *)
Definition handleFileChange (event watchedPath : string) : M server unit :=
  h ← get;
  let relativePath := Path.relative (watchDir h) watchedPath in
  try_catch
    (let fullPath := Path.join (watchDir h) relativePath in
     eventData ←
       (if String.eqb event "add" || String.eqb event "change" then
          there ← pathExists fullPath;
          regular ← (if there : bool then st ← stat fullPath; mret (Fs.isFile st)
                     else mret false);
          if regular : bool then
            content ← readFile fullPath;
            mret (change event relativePath (Some "file")
                    (Some (Buffer_toString content "base64")) (Some "base64"))
          else mret (change event relativePath (Some "file") None None)
        else if String.eqb event "addDir" then
          mret (change event relativePath (Some "directory") None None)
        else if String.eqb event "unlink" then
          mret (change event relativePath (Some "file") None None)
        else if String.eqb event "unlinkDir" then
          mret (change event relativePath (Some "directory") None None)
        else mret (change event relativePath None None None));
     emit ToAll (fileSystemChange eventData))
    (fun _ =>
       emit ToAll
         (fileSystemChange
            (change event relativePath
               (Some (if includes "Dir" event then "directory" else "file"))
               None None))).



(** The change source: chokidar tests a path against [ignored] before it
    calls the listeners. *)
Definition on_watch (event watchedPath : string) : M server unit :=
  if ignored watchedPath then mret tt
  else handleFileChange event watchedPath.

End handlers.

End FileSystemServer.

(* ===================================================================== *)
(** ** A codec for the worked examples                                    *)
(* ===================================================================== *)

(** Base64 as [Buffer] writes and reads it: three bytes to four letters,
    padded with [=]; reading skips what is not a letter of the alphabet and
    stops at the padding. Any other encoding is taken as [latin1], where
    text and bytes coincide. *)
Module Base64.

Definition alphabet : string :=
  "ABCDEFGHIJKLMNOPQRSTUVWXYZabcdefghijklmnopqrstuvwxyz0123456789+/".

Definition letter (i : N) : ascii :=
  match String.get (N.to_nat i) alphabet with Some c => c | None => "="%char end.

Fixpoint index_in (c : ascii) (s : string) (i : N) : option N :=
  match s with
  | EmptyString => None
  | String c' s' => if Ascii.eqb c c' then Some i else index_in c s' (i + 1)%N
  end.

Definition value (c : ascii) : option N := index_in c alphabet 0.

Fixpoint encode_bytes (l : list N) : list ascii :=
  match l with
  | [] => []
  | [a] =>
      [letter (a / 4); letter ((a mod 4) * 16); "="%char; "="%char]
  | [a; b] =>
      [letter (a / 4); letter ((a mod 4) * 16 + b / 16);
       letter ((b mod 16) * 4); "="%char]
  | a :: b :: c :: l' =>
      letter (a / 4) :: letter ((a mod 4) * 16 + b / 16)
      :: letter ((b mod 16) * 4 + c / 64) :: letter (c mod 64)
      :: encode_bytes l'
  end%N.

Definition encode (bytes : string) : string :=
  String.string_of_list_ascii
    (encode_bytes (map N_of_ascii (String.list_ascii_of_string bytes))).

Fixpoint decode_values (l : list N) : list N :=
  match l with
  | a :: b :: c :: d :: l' =>
      (a * 4 + b / 16) :: ((b mod 16) * 16 + c / 4) :: ((c mod 4) * 64 + d)
      :: decode_values l'
  | [a; b; c] => [a * 4 + b / 16; (b mod 16) * 16 + c / 4]
  | [a; b] => [a * 4 + b / 16]
  | _ => []
  end%N.

Fixpoint letters (l : list ascii) : list N :=
  match l with
  | [] => []
  | c :: l' =>
      if Ascii.eqb c "="%char then []
      else match value c with
           | Some v => v :: letters l'
           | None => letters l'
           end
  end.

Definition decode (text : string) : string :=
  String.string_of_list_ascii
    (map ascii_of_N (decode_values (letters (String.list_ascii_of_string text)))).

End Base64.

Definition node_codec : BufferCodec :=
  {| Buffer_from text encoding :=
       Some (if String.eqb encoding "base64" then Base64.decode text else text);
     Buffer_toString bytes encoding :=
       if String.eqb encoding "base64" then Base64.encode bytes else bytes |}.

(* ===================================================================== *)
(** ** Predicates of the statements                                       *)
(* ===================================================================== *)

(** Every effect of a handler satisfies [Q], whatever the state. *)
Definition trace_all {S A} (Q : effect -> Prop) (m : M S A) : Prop :=
  forall s, Forall Q (trace_of (m s)).

(** A handler leaves the part [f] of the state as it was. *)
Definition keeps {S A X} (f : S -> X) (m : M S A) : Prop :=
  forall s, f (state_of (m s)) = f s.

Definition is_fs_call (e : effect) : Prop :=
  match e with FsCall _ => True | _ => False end.

(** A filesystem call whose paths all lie at or below [root]. *)
Definition call_inside (root : string) (e : effect) : Prop :=
  match e with
  | FsCall c => Forall (Path.inside root) (call_targets c)
  | _ => True
  end.

(** Every path a trace hands to the filesystem lies at or below [root]. *)
Definition targets_inside (root : string) (t : list effect) : Prop :=
  Forall (Path.inside root) (fs_targets t).


(** A segment the pattern of [ignored] is written for: a dot, then a
    character that is not a line terminator. *)
Definition plainly_hidden (seg : string) : Prop :=
  exists c rest, seg = String "."%char (String c rest) /\ is_line_terminator c = false.

Definition valid (name : string) : Prop := Fs.valid_name name = true.

(** A name the walk lists: valid and not starting with a dot. *)
Definition visible (name : string) : Prop :=
  valid name /\ Path.startsWithDot name = false.

Definition segs_of (e : fsEntry) : list string := Path.segments (e_path e).

(** What holds of the items the walk of one directory returns, [base]
    being the names from the root of the walk down to that directory:
    every item lies below [base] along visible names, no path comes twice,
    and every directory between [base] and an item comes before the item. *)
Definition walk_ok (base : list string) (W : list fsEntry) : Prop :=
  (forall e, e ∈ W ->
     exists rest, rest <> [] /\ Forall visible rest
                  /\ e_path e = Path.render (base ++ rest)) /\
  NoDup (segs_of <$> W) /\
  (forall j e q r,
     W !! j = Some e -> q <> [] -> r <> [] -> segs_of e = base ++ q ++ r ->
     exists i d, i < j /\ W !! i = Some d /\ e_type d = "directory"
                 /\ segs_of d = base ++ q).

(** The same for the loop over some of the entries of that directory,
    called [names]. *)
Definition entries_ok (base names : list string) (W : list fsEntry) : Prop :=
  (forall e, e ∈ W ->
     exists name rest, name ∈ names /\ Forall visible (name :: rest)
                       /\ e_path e = Path.render (base ++ name :: rest)) /\
  NoDup (segs_of <$> W) /\
  (forall j e q r,
     W !! j = Some e -> q <> [] -> r <> [] -> segs_of e = base ++ q ++ r ->
     exists i d, i < j /\ W !! i = Some d /\ e_type d = "directory"
                 /\ segs_of d = base ++ q).

(* ===================================================================== *)
(** ** Worked examples: a hub, an edge and some traffic                   *)
(* ===================================================================== *)

Definition dir (entries : list (string * Fs.node)) : Fs.node :=
  Fs.Dir Fs.default_dir_mode entries.

Definition file (bytes : string) : Fs.node :=
  Fs.File Fs.default_file_mode bytes.

(** The hub's machine: the shared directory [/srv/shared] and, next to
    it, a file that is not shared. *)
Definition hub_tree : Fs.node :=
  dir [("srv",
        dir [("shared",
              dir [("a.txt", file "hello");
                   ("docs", dir [("inner.txt", file "in")]);
                   ("notes.txt", file "n")]);
             ("secret.txt", file "key")])].

Definition hub : FileSystemServer.server :=
  {| FileSystemServer.watchDir := "/srv/shared";
     FileSystemServer.clients := {["s1"; "s2"]};
     FileSystemServer.fs := hub_tree |}.

Definition hub_snapshot : list fsEntry := snapshot "/srv/shared" hub_tree.

(** An edge whose local directory holds a file the hub lacks and a hidden
    directory. *)
Definition edge_tree : Fs.node :=
  dir [("home",
        dir [("u",
              dir [("local",
                    dir [("stale.txt", file "old");
                         (".cache", dir [("x", file "tmp")])])])])].

Definition edge0 : FileSystemClient.client :=
  FileSystemClient.init "/home/u/local" edge_tree.

(** The edge once the hub's state has been handled: initial sync done,
    watcher attached. *)
Definition edge_steady : FileSystemClient.client :=
  state_of (FileSystemClient.on_fileSystemState hub_snapshot edge0).

(** The same edge after the content of [a.txt] has arrived and the
    watcher has reported [ready]. *)
Definition edge_synced : FileSystemClient.client :=
  state_of (FileSystemClient.on_ready
    (state_of (FileSystemClient.on_fileContent (codec:=node_codec)
                 "a.txt" "aGVsbG8=" (Some "base64") edge_steady))).

(** An edge with a regular file where the hub has a directory. *)
Definition edge_conflict : FileSystemClient.client :=
  FileSystemClient.init "/home/u/local"
    (dir [("home", dir [("u", dir [("local", dir [("docs", file "a file")])])])]).

(** Broadcasts of the hub. *)
Definition add_b : changeData :=
  {| ev_event := "add"; ev_path := "b.txt"; ev_type := Some "file";
     ev_content := Some "aGk="; ev_encoding := Some "base64"; ev_mode := None |}.

Definition add_b_without_content : changeData :=
  {| ev_event := "add"; ev_path := "b.txt"; ev_type := Some "file";
     ev_content := None; ev_encoding := None; ev_mode := None |}.


Definition unlink_a : changeData :=
  {| ev_event := "unlink"; ev_path := "a.txt"; ev_type := Some "file";
     ev_content := None; ev_encoding := None; ev_mode := None |}.

(** A [write] sent to the hub. *)
Definition write_evil : opData :=
  {| op_operation := "write"; op_path := "../evil.txt";
     op_content := Some "aGk="; op_encoding := Some "base64";
     op_newPath := None; op_mode := None |}.

Definition write_note : opData :=
  {| op_operation := "write"; op_path := "docs/note.txt";
     op_content := Some "aGk="; op_encoding := Some "base64";
     op_newPath := None; op_mode := None |}.

(** A file name made of a dot, a line feed and [x], and a hub that has
    such a file in its shared directory. *)
Definition dot_newline : string := String "."%char (String "010"%char "x").

Definition hub_dot_newline : FileSystemServer.server :=
  {| FileSystemServer.watchDir := "/srv/shared";
     FileSystemServer.clients := {["s1"]};
     FileSystemServer.fs :=
       dir [("srv", dir [("shared", dir [(dot_newline, file "hidden")])])] |}.

(** The hub's state after [a.txt] is gone from it. *)
Definition hub_snapshot_without_a : list fsEntry :=
  filter (fun e => e_path e <> "a.txt") hub_snapshot.

(* ===================================================================== *)
(** ** Loop bodies and further predicates                                 *)
(* ===================================================================== *)

(** An item says what a node is: [directory] for a directory, [file] and
    the number of bytes for a regular file. *)
Definition describes (e : fsEntry) (n : Fs.node) : Prop :=
  match n with
  | Fs.Dir _ _ => e_type e = "directory" /\ e_size e = None
  | Fs.File _ bytes =>
      e_type e = "file" /\ e_size e = Some (N.of_nat (String.length bytes))
  | Fs.Special _ => False
  end.



(** A handler whose effects all satisfy [Q] and that keeps [I], when it
    starts in a state where [I] holds. *)
Definition maintains {S A} (I : S -> Prop) (Q : effect -> Prop) (m : M S A) : Prop :=
  forall s, I s -> Forall Q (trace_of (m s)) /\ I (state_of (m s)).

(** A filesystem call all of whose paths satisfy [P]. *)
Definition call_at (P : string -> Prop) (e : effect) : Prop :=
  match e with
  | FsCall c => Forall P (call_targets c)
  | _ => True
  end.

(** A message sent satisfies [P]. *)
Definition sends (P : dest -> message -> Prop) (e : effect) : Prop :=
  match e with
  | Emit to m => P to m
  | _ => True
  end.

(** The path [p] itself or its parent directory. *)
Definition at_or_parent (p q : string) : Prop := q = p \/ q = Path.dirname p.

(** The content requests of the initial sync, in the order of the hub's
    list: one for every item that is not a directory. *)
Definition content_requests (files : list fsEntry) : list (dest * message) :=
  map (fun f => (ToHub, requestFileContent (e_path f)))
    (filter (fun f => String.eqb (e_type f) "directory" = false) files).

Section loop_bodies.
Import FileSystemClient.

(** The edge's tree is well-formed and its root is [root]. *)
Definition rooted (root : string) (c : client) : Prop :=
  Fs.wf (fs c) = true /\ localDir c = root.

(** The body of the loop of [startModePolling], for one item. *)
Definition pollStep (dir : string) (file : fsEntry) : M client unit :=
  let fullPath := Path.join dir (e_path file) in
  try_catch
    (st ← stat fullPath;
     c ← get;
     if bool_decide (fileModes c !! e_path file = Some (perm_bits st))
     then mret tt
     else cache_set (e_path file) (perm_bits st) ;;
          emit ToHub (fileOperation (chmod_op (e_path file) (perm_bits st))))
    (fun _ => mret tt).

(** The body of the loop of [cacheFileModes], for one item. *)
Definition cacheStep (dir : string) (file : fsEntry) : M client unit :=
  let fullPath := Path.join dir (e_path file) in
  try_catch
    (st ← stat fullPath; cache_set (e_path file) (perm_bits st))
    (fun _ => mret tt).

(** The cache holds the mode on disk of every item of [files] that is
    there. *)
Definition cache_current (dir : string) (files : list fsEntry) (c : client) : Prop :=
  forall f node, f ∈ files ->
    Fs.stat (Path.resolve (Path.join dir (e_path f))) (fs c) = Fs.Ok node ->
    fileModes c !! e_path f = Some (perm_bits node).

(** The rounds of [syncWithServer] after the listing of the local
    directory. *)
Definition syncBody (dir : string) (localFiles files : list fsEntry) : M client unit :=
  for_each (to_set [] (map e_path localFiles)) (fun localPath =>
    if bool_decide (localPath ∈ map e_path files) then mret tt
    else
      let fullPath := Path.join dir localPath in
      ledger_add ("delete-" +:+ localPath) ;;
      remove fullPath ;;
      ledger_delete ("delete-" +:+ localPath)) ;;
  for_each files (fun file =>
    let fullPath := Path.join dir (e_path file) in
    let isDir := String.eqb (e_type file) "directory" in
    let operationKey :=
      (if isDir then "mkdir" else "write") +:+ "-" +:+ e_path file in
    ledger_add operationKey ;;
    (if isDir then ensureDir fullPath
     else emit ToHub (requestFileContent (e_path file))) ;;
    (if isDir then ledger_delete operationKey else mret tt)) ;;
  cacheFileModes.

Context {codec : BufferCodec}.

(** The body of the [try] of [handleLocalChange]. *)
Definition localBody (event filePath relativePath key : string) : M client unit :=
  try_catch
    (opData ← localSwitch event filePath relativePath key;
     match opData with
     | Some d => emit ToHub (fileOperation d)
     | None => mret tt
     end)
    (fun _ => mret tt).

End loop_bodies.

(** More traffic for the worked examples: a [chmod] broadcast for [a.txt]
    and the item of the hub's list for [a.txt]. *)
Definition chmod_a : changeData :=
  {| ev_event := "chmod"; ev_path := "a.txt"; ev_type := None;
     ev_content := None; ev_encoding := None; ev_mode := Some 384%N |}.

Definition item_a : fsEntry :=
  {| e_path := "a.txt"; e_type := "file"; e_size := Some 5%N |}.

(* ===================================================================== *)
(** * Properties                                                          *)
(* ===================================================================== *)

(** ** The path functions on the paths of the examples *)

Example join_plain :
  Path.join "/srv/shared" "docs/a.txt" = "/srv/shared/docs/a.txt".
Proof. reflexivity. Qed.

Example join_escape : Path.join "/srv/shared" "../evil.txt" = "/srv/evil.txt".
Proof. reflexivity. Qed.

Example join_absolute_argument :
  Path.join "/srv/shared" "/etc/passwd" = "/srv/shared/etc/passwd".
Proof. reflexivity. Qed.

Example join_first_level : Path.join EmptyString "a" = "a".
Proof. reflexivity. Qed.

Example join_relative_up : Path.join "a" "../../b" = "../b".
Proof. reflexivity. Qed.

Example dirname_file :
  Path.dirname "/srv/shared/docs/a.txt" = "/srv/shared/docs".
Proof. reflexivity. Qed.

Example relative_below :
  Path.relative "/home/u/local" "/home/u/local/docs/a.txt" = "docs/a.txt".
Proof. reflexivity. Qed.

Example relative_same : Path.relative "/home/u/local" "/home/u/local" = EmptyString.
Proof. reflexivity. Qed.

Example base64_hello :
  Base64.encode "hello" = "aGVsbG8=" /\ Base64.decode "aGVsbG8=" = "hello".
Proof. split; reflexivity. Qed.

(** ** Facts about the path functions *)

Module PathFacts.
Import Path.

Lemma split_nonempty s : split s ≠ [].
Proof.
  destruct s as [|c s]; simpl; [done|].
  destruct (Ascii.eqb c sep); [done|]. by destruct (split s).
Qed.

Lemma split_app_sep a b : split (a +:+ "/" +:+ b) = split a ++ split b.
Proof.
  induction a as [|c a IH]; simpl; [done|].
  destruct (Ascii.eqb c sep); simpl.
  - by rewrite IH.
  - rewrite IH. pose proof (split_nonempty a). by destruct (split a).
Qed.

Lemma split_slash_free s : Forall slash_free (split s).
Proof.
  induction s as [|c s IH]; simpl.
  - repeat constructor.
  - destruct (Ascii.eqb c sep) eqn:E.
    + constructor; [constructor | done].
    + destruct (split s) as [|seg rest]; [repeat constructor|].
      * intros ->. by rewrite Ascii.eqb_refl in E.
      * inversion IH; subst. constructor; [|done].
        constructor; [| done]. intros ->. by rewrite Ascii.eqb_refl in E.
Qed.

Lemma split_of_slash_free s : slash_free s → split s = [s].
Proof.
  induction s as [|c s IH]; simpl; [done|].
  intros Hs. inversion Hs as [|? ? Hc Hs']; subst.
  destruct (Ascii.eqb c sep) eqn:E.
  - apply Ascii.eqb_eq in E. done.
  - by rewrite IH.
Qed.

Lemma split_concat segs :
  segs ≠ [] → Forall slash_free segs → split (String.concat "/" segs) = segs.
Proof.
  induction segs as [|s segs IH]; [done|]. intros _ Hs.
  inversion Hs as [|? ? H1 H2]; subst.
  destruct segs as [|s' segs].
  - simpl. by apply split_of_slash_free.
  - change (String.concat "/" (s :: s' :: segs)) with (s +:+ "/" +:+ String.concat "/" (s' :: segs)).
    rewrite split_app_sep, IH by done. by rewrite split_of_slash_free.
Qed.

Lemma proper_inv s : proper s = true → s ≠ EmptyString ∧ s ≠ "." ∧ s ≠ "..".
Proof.
  unfold proper. rewrite !andb_true_iff, !negb_true_iff, !String.eqb_neq. tauto.
Qed.

Lemma normalize_stack_app al st l1 l2 :
  normalize_stack al st (l1 ++ l2) = normalize_stack al (normalize_stack al st l1) l2.
Proof.
  revert st. induction l1 as [|s l1 IH]; intros st; simpl; [done|].
  destruct (String.eqb s EmptyString || String.eqb s "."); [apply IH|].
  destruct (String.eqb s ".."); [|apply IH].
  destruct st as [|top below]; [apply IH|].
  destruct (String.eqb top ".."); apply IH.
Qed.

(** Without [..] the loop only drops the empty segments and [.]. *)
Lemma normalize_stack_dotdot_free al st l :
  ".." ∉ l → normalize_stack al st l = rev (filter (fun s => proper s = true) l) ++ st.
Proof.
  revert st. induction l as [|s l IH]; intros st Hl; simpl; [done|].
  apply not_elem_of_cons in Hl as [Hs Hl].
  destruct (String.eqb s EmptyString) eqn:E1; simpl.
  { rewrite filter_cons_False; [by apply IH|]. unfold proper. by rewrite E1. }
  destruct (String.eqb s ".") eqn:E2; simpl.
  { rewrite filter_cons_False; [by apply IH|]. unfold proper. by rewrite E1, E2. }
  destruct (String.eqb s "..") eqn:E3; simpl.
  { apply String.eqb_eq in E3. by subst. }
  rewrite filter_cons_True by (unfold proper; by rewrite E1, E2, E3).
  rewrite IH by done. simpl. by rewrite <- app_assoc.
Qed.

Lemma normalize_stack_proper al st l :
  Forall (fun s => proper s = true) l → normalize_stack al st l = rev l ++ st.
Proof.
  intros Hl. rewrite normalize_stack_dotdot_free.
  - f_equal. f_equal. induction Hl as [|s l Hs Hl IH]; [done|].
    rewrite filter_cons_True by done. by rewrite IH.
  - intros Hin. rewrite Forall_forall in Hl. apply Hl in Hin. done.
Qed.

Lemma normalize_stack_clean st l :
  Forall (fun s => proper s = true) st →
  Forall (fun s => proper s = true) (normalize_stack false st l).
Proof.
  revert st. induction l as [|s l IH]; intros st Hst; simpl; [done|].
  destruct (String.eqb s EmptyString || String.eqb s ".") eqn:E1; [by apply IH|].
  destruct (String.eqb s "..") eqn:E2.
  - destruct st as [|top below]; [by apply IH|].
    inversion Hst; subst.
    destruct (String.eqb top ".."); by apply IH.
  - apply IH. constructor; [|done]. unfold proper.
    apply orb_false_iff in E1 as [-> ->]. by rewrite E2.
Qed.

Lemma normalize_stack_slash_free al st l :
  Forall slash_free st → Forall slash_free l →
  Forall slash_free (normalize_stack al st l).
Proof.
  revert st. induction l as [|s l IH]; intros st Hst Hl; simpl; [done|].
  inversion Hl; subst.
  assert (slash_free "..") as Hdd.
  { unfold slash_free. simpl. repeat constructor; done. }
  destruct (String.eqb s EmptyString || String.eqb s "."); [by apply IH|].
  destruct (String.eqb s "..").
  - destruct st as [|top below].
    + apply IH; [|done]. destruct al; repeat constructor; done.
    + inversion Hst; subst.
      destruct (String.eqb top ".."); apply IH; try done.
      destruct al; [constructor|]; done.
  - apply IH; [constructor|]; done.
Qed.

Lemma resolve_clean p : Forall (fun s => proper s = true) (resolve p).
Proof.
  unfold resolve, normalize_segs. apply Forall_rev, normalize_stack_clean. constructor.
Qed.

Lemma resolve_slash_free p : Forall slash_free (resolve p).
Proof.
  unfold resolve, normalize_segs. apply Forall_rev, normalize_stack_slash_free;
    [constructor | apply split_slash_free].
Qed.

Lemma concat_nonempty segs :
  segs ≠ [] → Forall (fun s => proper s = true) segs → String.concat "/" segs ≠ EmptyString.
Proof.
  destruct segs as [|s segs]; [done|]. intros _ Hs. inversion Hs as [|? ? H1 H2]; subst.
  apply proper_inv in H1 as (H1 & _ & _).
  destruct s; [done|]. destruct segs; simpl; done.
Qed.

Lemma resolve_render_abs segs :
  Forall (fun s => proper s = true) segs → Forall slash_free segs →
  resolve (render_abs segs) = segs.
Proof.
  intros Hp Hs. unfold resolve, render_abs, normalize_segs.
  destruct segs as [|s segs]; [done|].
  change (split ("/" +:+ String.concat "/" (s :: segs)))
    with (EmptyString :: split (String.concat "/" (s :: segs))).
  rewrite split_concat by done.
  change (normalize_stack false [] (EmptyString :: s :: segs))
    with (normalize_stack false [] (s :: segs)).
  rewrite normalize_stack_proper by done. by rewrite app_nil_r, rev_involutive.
Qed.

Lemma append_nil_r (a : string) : a +:+ EmptyString = a.
Proof.
  induction a as [|c a IH]; [done|].
  change (String c (a +:+ EmptyString) = String c a). by rewrite IH.
Qed.

(** Resolving what [normalize] returns for an absolute path is resolving
    the path. *)
Lemma resolve_normalize_abs p :
  isAbsolute p = true → resolve (normalize p) = resolve p.
Proof.
  intros Habs. destruct p as [|c p]; [done|].
  unfold normalize. rewrite Habs. cbn [negb].
  fold (resolve (String c p)).
  pose proof (resolve_clean (String c p)) as Hc.
  pose proof (resolve_slash_free (String c p)) as Hs.
  destruct (resolve (String c p)) as [|s segs] eqn:E; [done|].
  pose proof (concat_nonempty (s :: segs) ltac:(done) Hc) as Hne.
  destruct (String.concat "/" (s :: segs)) as [|b body] eqn:Eb; [done|].
  rewrite <- Eb.
  destruct (endsWithSep (String c p)).
  - unfold resolve, normalize_segs.
    replace (String.concat "/" (s :: segs) +:+ "/")
      with (String.concat "/" (s :: segs) +:+ "/" +:+ EmptyString) by done.
    change (split ("/" +:+ String.concat "/" (s :: segs) +:+ "/" +:+ EmptyString))
      with (EmptyString :: split (String.concat "/" (s :: segs) +:+ "/" +:+ EmptyString)).
    rewrite split_app_sep, split_concat by done.
    change (normalize_stack false [] (EmptyString :: (s :: segs) ++ split EmptyString))
      with (normalize_stack false [] ((s :: segs) ++ [EmptyString])).
    rewrite normalize_stack_app.
    rewrite (normalize_stack_proper false [] (s :: segs)) by done.
    rewrite app_nil_r.
    change (normalize_stack false (rev (s :: segs)) [EmptyString]) with (rev (s :: segs)).
    by rewrite rev_involutive.
  - rewrite append_nil_r. by apply resolve_render_abs.
Qed.

Lemma isAbsolute_append a b : isAbsolute a = true → isAbsolute (a +:+ b) = true.
Proof. by destruct a. Qed.

(** What a path joined to an absolute root resolves to: the loop of
    [normalizeString] run on the segments of the path, starting from the
    segments of the root. *)
Lemma resolve_join root p :
  isAbsolute root = true →
  resolve (join root p) = rev (normalize_stack false (rev (resolve root)) (split p)).
Proof.
  intros Habs. destruct root as [|c root]; [done|].
  unfold join. destruct p as [|d p].
  - rewrite resolve_normalize_abs by done. simpl. by rewrite rev_involutive.
  - rewrite resolve_normalize_abs by (by apply isAbsolute_append).
    unfold resolve at 1. unfold normalize_segs.
    rewrite split_app_sep, normalize_stack_app.
    unfold resolve, normalize_segs. by rewrite rev_involutive.
Qed.

(** A path without [..] joined to an absolute root resolves to the root's
    segments followed by the path's own. *)
Lemma resolve_join_dotdot_free root p :
  isAbsolute root = true → dotdot_free p →
  resolve (join root p)
  = resolve root ++ filter (fun s => proper s = true) (split p).
Proof.
  intros Habs Hp. rewrite resolve_join by done.
  rewrite normalize_stack_dotdot_free by done.
  by rewrite rev_app_distr, !rev_involutive.
Qed.

Lemma resolve_dirname p : resolve (dirname p) = removelast (resolve p).
Proof.
  unfold dirname. apply resolve_render_abs.
  - pose proof (resolve_clean p) as H. revert H. generalize (resolve p).
    induction l as [|a [|b l] IH]; intros H; simpl; [done|done|].
    inversion H; subst. constructor; [done|]. by apply IH.
  - pose proof (resolve_slash_free p) as H. revert H. generalize (resolve p).
    induction l as [|a [|b l] IH]; intros H; simpl; [done|done|].
    inversion H; subst. constructor; [done|]. by apply IH.
Qed.

Lemma inside_join root p :
  isAbsolute root = true → dotdot_free p → inside root (join root p).
Proof.
  intros Habs Hp. unfold inside. rewrite resolve_join_dotdot_free by done.
  by apply prefix_app_r.
Qed.

(** *** Rendering a list of names as a relative path *)

Lemma valid_proper s : valid s → proper s = true.
Proof.
  unfold valid, Fs.valid_name, proper. rewrite !andb_true_iff. tauto.
Qed.

Lemma valid_slash_free s : valid s → slash_free s.
Proof.
  unfold valid, Fs.valid_name, slash_free. rewrite !andb_true_iff.
  intros (_ & Hs). rewrite forallb_forall in Hs. apply Forall_forall.
  intros c Hc Heq. apply list_elem_of_In, Hs in Hc. subst c.
  by rewrite Ascii.eqb_refl in Hc.
Qed.

Lemma Forall_valid_proper l : Forall valid l → Forall (fun s => proper s = true) l.
Proof. intros Hl. eapply Forall_impl; [exact Hl | apply valid_proper]. Qed.

Lemma Forall_valid_slash_free l : Forall valid l → Forall slash_free l.
Proof. intros Hl. eapply Forall_impl; [exact Hl | apply valid_slash_free]. Qed.

Lemma split_render segs : segs ≠ [] → Forall valid segs → split (render segs) = segs.
Proof. intros. apply split_concat; [done | by apply Forall_valid_slash_free]. Qed.

Lemma render_snoc base name :
  base ≠ [] → render (base ++ [name]) = render base +:+ "/" +:+ name.
Proof.
  induction base as [|s base IH]; [done|]. intros _.
  destruct base as [|s' base]; [done|].
  change (render ((s :: s' :: base) ++ [name]))
    with (s +:+ "/" +:+ render ((s' :: base) ++ [name])).
  rewrite IH by done.
  change (render (s :: s' :: base)) with (s +:+ "/" +:+ render (s' :: base)).
  generalize (render (s' :: base)). intros r.
  induction s as [|c s IHs]; [done|].
  change (String c (s +:+ "/" +:+ r +:+ "/" +:+ name)
          = String c ((s +:+ "/" +:+ r) +:+ "/" +:+ name)).
  by rewrite IHs.
Qed.

Lemma endsWithSep_cons c s : s ≠ EmptyString → endsWithSep (String c s) = endsWithSep s.
Proof. by destruct s. Qed.

Lemma endsWithSep_slash_free s : slash_free s → endsWithSep s = false.
Proof.
  induction s as [|c s IH]; [done|]. intros Hs. inversion Hs as [|? ? Hc Hs']; subst.
  destruct s as [|c' s].
  - simpl. by apply Ascii.eqb_neq.
  - rewrite endsWithSep_cons by done. by apply IH.
Qed.

Lemma endsWithSep_app a b : b ≠ EmptyString → endsWithSep (a +:+ b) = endsWithSep b.
Proof.
  intros Hb. induction a as [|c a IH]; [done|].
  change (endsWithSep (String c (a +:+ b)) = endsWithSep b).
  rewrite endsWithSep_cons; [done|]. destruct a; [done|discriminate].
Qed.

Lemma endsWithSep_render segs : Forall valid segs → endsWithSep (render segs) = false.
Proof.
  induction segs as [|s segs IH]; [done|]. intros Hs. inversion Hs; subst.
  destruct segs as [|s' segs].
  - by apply endsWithSep_slash_free, valid_slash_free.
  - change (render (s :: s' :: segs)) with (s +:+ "/" +:+ render (s' :: segs)).
    rewrite endsWithSep_app by done.
    change (endsWithSep (String "/" (render (s' :: segs))) = false).
    rewrite endsWithSep_cons; [by apply IH|].
    apply concat_nonempty; [done | by apply Forall_valid_proper].
Qed.

Lemma isAbsolute_render segs : Forall valid segs → isAbsolute (render segs) = false.
Proof.
  destruct segs as [|s segs]; [done|]. intros Hs. inversion Hs as [|? ? H1 H2]; subst.
  pose proof (valid_slash_free _ H1) as Hsf.
  apply valid_proper, proper_inv in H1 as (Hne & _).
  destruct s as [|c s]; [done|]. inversion Hsf; subst.
  assert (Ascii.eqb c sep = false) by (by apply Ascii.eqb_neq).
  destruct segs; simpl; done.
Qed.

(** A relative path made of valid names is its own normal form. *)
Lemma normalize_render segs :
  segs ≠ [] → Forall valid segs → normalize (render segs) = render segs.
Proof.
  intros Hne Hs.
  pose proof (concat_nonempty segs Hne (Forall_valid_proper _ Hs)) as Hr.
  fold (render segs) in Hr.
  unfold normalize. destruct (render segs) as [|c r] eqn:E; [done|]. rewrite <- E.
  rewrite isAbsolute_render, endsWithSep_render, split_render by done.
  unfold normalize_segs. cbn [negb].
  rewrite normalize_stack_proper by (by apply Forall_valid_proper).
  rewrite app_nil_r, rev_involutive. fold (render segs). rewrite E, <- E.
  by rewrite append_nil_r.
Qed.

(** [path.join(relativeBasePath, entry.name)] in the walk. *)
Lemma join_render base name :
  Forall valid base → valid name → join (render base) name = render (base ++ [name]).
Proof.
  intros Hb Hn.
  assert (name ≠ EmptyString) as Hne by (apply valid_proper, proper_inv in Hn; tauto).
  destruct base as [|s base].
  - simpl. destruct name as [|c name]; [done|].
    apply (normalize_render [String c name]); [done | by constructor].
  - pose proof (concat_nonempty (s :: base) ltac:(done) (Forall_valid_proper _ Hb)) as Hr.
    fold (render (s :: base)) in Hr.
    rewrite render_snoc by done. unfold join.
    destruct (render (s :: base)) as [|c r] eqn:E; [done|].
    destruct name as [|d name]; [done|]. rewrite <- E.
    rewrite <- render_snoc by done. apply normalize_render.
    + by destruct base.
    + apply Forall_app. split; [done | by constructor].
Qed.

End PathFacts.

Import PathFacts.

(** ** Facts about the snapshot walk *)

Module SnapshotFacts.
Import Path PathFacts.

Lemma map_fmap {A B} (f : A → B) (l : list A) : map f l = f <$> l.
Proof. reflexivity. Qed.

Lemma wf_entries_Forall es :
  (fix wf_entries (es : list (string * Fs.node)) : bool :=
     match es with
     | [] => true
     | (_, c) :: es' => Fs.wf c && wf_entries es'
     end) es = true →
  Forall (fun x => Fs.wf x.2 = true) es.
Proof.
  induction es as [|[name c] es IH]; [constructor|].
  intros H. apply andb_true_iff in H as [H1 H2]. constructor; [done | by apply IH].
Qed.

Lemma wf_Dir_inv m es :
  Fs.wf (Fs.Dir m es) = true →
  Forall valid (es.*1) ∧ NoDup (es.*1) ∧ Forall (fun x => Fs.wf x.2 = true) es.
Proof.
  simpl. rewrite !andb_true_iff. intros [[H1 H2] H3]. split_and!.
  - rewrite forallb_forall in H1. apply Forall_forall. intros x Hx.
    apply H1. by apply list_elem_of_In.
  - by apply bool_decide_eq_true in H2.
  - by apply wf_entries_Forall.
Qed.

Lemma node_ind' (P : Fs.node → Prop) :
  (∀ m c, P (Fs.File m c)) →
  (∀ m es, Forall (fun x => P x.2) es → P (Fs.Dir m es)) →
  (∀ m, P (Fs.Special m)) →
  ∀ n, P n.
Proof.
  intros Hf Hd Hs. fix IH 1. intros [m c|m es|m]; [apply Hf| |apply Hs].
  apply Hd. induction es as [|[name c] es IHes]; constructor; [apply IH | apply IHes].
Qed.

Lemma segs_of_render e segs :
  segs ≠ [] → Forall valid segs → e_path e = render segs → segs_of e = segs.
Proof. intros Hne Hv He. unfold segs_of, segments. rewrite He. by apply split_render. Qed.

Lemma visible_valid l : Forall visible l → Forall valid l.
Proof. intros Hl. eapply Forall_impl; [exact Hl|]. by intros ? [? _]. Qed.

Lemma entries_ok_nil base names : entries_ok base names [].
Proof.
  split_and!.
  - intros e He. by apply elem_of_nil in He.
  - constructor.
  - intros j e q r Hj. by rewrite lookup_nil in Hj.
Qed.

Lemma entries_ok_skip base name names W :
  entries_ok base names W → entries_ok base (name :: names) W.
Proof.
  intros (HA & HB & HC). split_and!; [|done|done].
  intros e He. destruct (HA e He) as (n & rest & Hn & Hr). exists n, rest.
  split; [by apply elem_of_cons; right | done].
Qed.

Lemma entries_ok_walk base names W :
  entries_ok base names W → walk_ok base W.
Proof.
  intros (HA & HB & HC). split_and!; [|done|done].
  intros e He. destruct (HA e He) as (n & rest & _ & Hv & Hp).
  exists (n :: rest). done.
Qed.

(** One more entry: its own item [hd], the items [sub] of the walk below
    it, then the items [W'] of the entries that follow. *)
Lemma entries_ok_cons base name names hd sub W' :
  Forall valid base → visible name → name ∉ names →
  e_path hd = render (base ++ [name]) →
  (e_type hd = "directory" ∨ sub = []) →
  walk_ok (base ++ [name]) sub →
  entries_ok base names W' →
  entries_ok base (name :: names) (hd :: sub ++ W').
Proof.
  intros Hbase Hname Hfresh Hhd Hkind (SA & SB & SC) (WA & WB & WC).
  assert (Forall valid (base ++ [name])) as Hbn.
  { apply Forall_app. split; [done|]. constructor; [apply Hname | constructor]. }
  assert (segs_of hd = base ++ [name]) as Shd.
  { apply segs_of_render; [by destruct base | done | done]. }
  assert (∀ e, e ∈ sub → ∃ rest, rest ≠ [] ∧ segs_of e = base ++ name :: rest) as Ssub.
  { intros e He. destruct (SA e He) as (rest & Hne & Hv & Hp).
    exists rest. split; [done|]. rewrite <- app_assoc in Hp.
    apply segs_of_render; [by destruct base | | done].
    apply Forall_app. split; [done|]. constructor; [apply Hname|].
    by apply visible_valid. }
  assert (∀ e, e ∈ W' → ∃ n rest, n ∈ names ∧ segs_of e = base ++ n :: rest) as SW.
  { intros e He. destruct (WA e He) as (n & rest & Hn & Hv & Hp).
    exists n, rest. split; [done|].
    apply segs_of_render; [by destruct base | | done].
    apply Forall_app. split; [done|]. by apply visible_valid. }
  split_and!.
  - intros e He. apply elem_of_cons in He as [-> | He].
    { exists name, []. split_and!; [by left | by constructor | done]. }
    apply elem_of_app in He as [He | He].
    + destruct (SA e He) as (rest & Hne & Hv & Hp). exists name, rest.
      split_and!; [by left | by constructor | by rewrite <- app_assoc in Hp].
    + destruct (WA e He) as (n & rest & Hn & Hr). exists n, rest.
      split; [by right | done].
  - rewrite fmap_cons, fmap_app. apply NoDup_cons. split.
    + rewrite Shd. intros Hin. apply elem_of_app in Hin as [Hin | Hin];
        apply list_elem_of_fmap in Hin as (e & Heq & He).
      * destruct (Ssub e He) as (rest & Hne & Hs). rewrite Hs in Heq.
        apply app_inv_head in Heq. inversion Heq. by subst.
      * destruct (SW e He) as (n & rest & Hn & Hs). rewrite Hs in Heq.
        apply app_inv_head in Heq. inversion Heq. by subst.
    + apply NoDup_app. split_and!; [done| |done].
      intros x Hx1 Hx2.
      apply list_elem_of_fmap in Hx1 as (e1 & -> & He1).
      apply list_elem_of_fmap in Hx2 as (e2 & Heq & He2).
      destruct (Ssub e1 He1) as (rest1 & _ & Hs1).
      destruct (SW e2 He2) as (n & rest2 & Hn & Hs2).
      rewrite Hs1, Hs2 in Heq. apply app_inv_head in Heq. inversion Heq. by subst.
  - intros j e q r Hj Hq Hr Hs. destruct j as [|j].
    { simpl in Hj. inversion Hj; subst e. rewrite Shd in Hs.
      apply app_inv_head in Hs. destruct q as [|q1 q]; [done|].
      destruct q, r; simpl in Hs; done. }
    simpl in Hj. apply lookup_app_Some in Hj as [Hj | [Hlen Hj]].
    + assert (e ∈ sub) as He by (by eapply list_elem_of_lookup_2).
      destruct (Ssub e He) as (rest & Hne & Hs').
      rewrite Hs' in Hs. apply app_inv_head in Hs.
      destruct q as [|q1 q]; [done|]. simpl in Hs. inversion Hs; subst q1.
      destruct q as [|q2 q].
      * exists 0, hd. split_and!; [lia | done | | done].
        destruct Hkind as [Hk | ->]; [done | by apply elem_of_nil in He].
      * destruct (SC j e (q2 :: q) r Hj ltac:(done) Hr) as (i & d & Hi & Hd & Ht & Hds).
        { rewrite Hs'. rewrite <- app_assoc. simpl. f_equal. f_equal. done. }
        exists (S i), d. split_and!; [lia | | done | ].
        -- simpl. apply lookup_app_Some. by left.
        -- rewrite Hds. by rewrite <- app_assoc.
    + destruct (WC _ e q r Hj Hq Hr Hs) as (i & d & Hi & Hd & Ht & Hds).
      exists (S (length sub + i)), d. split_and!; [lia | | done | done].
      simpl. apply lookup_app_Some. right. split; [lia|].
      by replace (length sub + i - length sub) with i by lia.
Qed.

Lemma walk_ok_nil base : walk_ok base [].
Proof. apply (entries_ok_walk base []), entries_ok_nil. Qed.

Lemma walk_entries_ok base es :
  Forall valid base → Forall valid (es.*1) → NoDup (es.*1) →
  Forall (fun x => Fs.wf x.2 = true ∧
            ∀ base', Forall valid base' →
              walk_ok base' (snapshot_walk (render base') x.2)) es →
  entries_ok base (es.*1) (walk_entries snapshot_walk (render base) es).
Proof.
  intros Hbase. induction es as [|[name child] es IH]; intros Hv Hnd HF.
  { apply entries_ok_nil. }
  rewrite fmap_cons in Hv, Hnd. cbn [fst] in Hv, Hnd.
  inversion Hv as [|? ? Hname Hv']; subst.
  apply NoDup_cons in Hnd as [Hfresh Hnd'].
  inversion HF as [|? ? [Hwf Hchild] HF']; subst. cbn [snd] in Hwf, Hchild.
  specialize (IH Hv' Hnd' HF').
  rewrite fmap_cons. cbn [fst]. cbn [walk_entries].
  destruct (startsWithDot name) eqn:Hdot; [by apply entries_ok_skip|].
  assert (visible name) as Hvis by done.
  rewrite join_render by done.
  destruct child as [m bytes | m ces | m].
  - apply (entries_ok_cons base name (es.*1) _ []); try done.
    + by right.
    + apply walk_ok_nil.
  - apply entries_ok_cons; try done.
    + by left.
    + apply Hchild. apply Forall_app. split; [done | by constructor].
  - by apply entries_ok_skip.
Qed.

(** The walk of a well-formed tree. *)
Lemma snapshot_walk_ok n :
  Fs.wf n = true → ∀ base, Forall valid base →
  walk_ok base (snapshot_walk (render base) n).
Proof.
  induction n as [m c | m es IH | m] using node_ind'; intros Hwf base Hbase;
    [apply walk_ok_nil | | apply walk_ok_nil].
  apply wf_Dir_inv in Hwf as (Hv & Hnd & Hwfs).
  cbn [snapshot_walk].
  apply (entries_ok_walk base (es.*1)).
  apply walk_entries_ok; try done.
  rewrite Forall_forall in IH, Hwfs. apply Forall_forall. intros x Hx.
  split; [by apply Hwfs|]. intros base' Hb'. apply IH; [done | by apply Hwfs | done].
Qed.

Lemma assoc_elem name es c : Fs.assoc name es = Some c → (name, c) ∈ es.
Proof.
  induction es as [|[n c0] es IH]; simpl; [done|].
  destruct (String.eqb n name) eqn:E.
  - intros [= ->]. apply String.eqb_eq in E as ->. by left.
  - intros Hc. right. by apply IH.
Qed.

Lemma stat_wf k : ∀ n c, Fs.wf n = true → Fs.stat k n = Fs.Ok c → Fs.wf c = true.
Proof.
  induction k as [|name k IH]; intros n c Hwf Hstat; simpl in Hstat.
  { by inversion Hstat; subst. }
  destruct n as [| m es |]; try done.
  destruct (Fs.assoc name es) as [child|] eqn:E; [|done].
  apply wf_Dir_inv in Hwf as (_ & _ & Hwfs).
  rewrite Forall_forall in Hwfs. apply assoc_elem, Hwfs in E.
  by apply (IH child).
Qed.

Lemma snapshot_ok root tree :
  Fs.wf tree = true → walk_ok [] (snapshot root tree).
Proof.
  intros Hwf. unfold snapshot.
  destruct (Fs.stat (resolve root) tree) as [current|] eqn:E; [|apply walk_ok_nil].
  apply (snapshot_walk_ok current); [by eapply stat_wf | constructor].
Qed.

Lemma walk_ok_directories_first W : walk_ok [] W → directories_first W.
Proof.
  intros (HA & HB & HC). split.
  - intros i j d e Hi Hj Hdir (rest & Hrest & Hunder).
    destruct (HC j e (segs_of d) rest Hj) as (i' & d' & Hlt & Hi' & _ & Hs); try done.
    { unfold segs_of, segments. apply split_nonempty. }
    assert (i = i'); [|lia].
    eapply (NoDup_lookup (segs_of <$> W)); [done | |].
    + by rewrite list_lookup_fmap, Hi.
    + rewrite list_lookup_fmap, Hi'. simpl. by rewrite Hs.
  - intros j e parent name Hj Hs Hp.
    apply (HC j e parent [name]); done.
Qed.

Lemma walk_ok_no_hidden W e : walk_ok [] W → e ∈ W → no_hidden_segment (e_path e).
Proof.
  intros (HA & _ & _) He. destruct (HA e He) as (rest & Hne & Hv & Hp).
  unfold no_hidden_segment. fold (segs_of e).
  rewrite (segs_of_render e rest); [| done | by apply visible_valid | done].
  eapply Forall_impl; [exact Hv|]. by intros ? [_ ?].
Qed.

End SnapshotFacts.

Import SnapshotFacts.

(** ** Facts about the monad of the handlers *)

Module MonadFacts.

Section facts.
Context {S : Type}.

Lemma bind_get {A} (k : S → M S A) s : (get ≫= k) s = k s s.
Proof. unfold mbind, M_bind, get. by destruct (k s s) as [[r s2] t2]. Qed.

Lemma trace_all_ret {A} Q (a : A) : trace_all (S:=S) Q (mret a).
Proof. intros s. constructor. Qed.

Lemma trace_all_throw {A} Q e : trace_all (S:=S) (A:=A) Q (throw e).
Proof. intros s. constructor. Qed.

Lemma trace_all_get Q : trace_all (S:=S) Q get.
Proof. intros s. constructor. Qed.

Lemma trace_all_modify Q f : trace_all (S:=S) Q (modify f).
Proof. intros s. constructor. Qed.

Lemma trace_all_tell (Q : effect → Prop) e : Q e → trace_all (S:=S) Q (tell e).
Proof. intros He s. by repeat constructor. Qed.

Lemma trace_all_bind {A B} Q (m : M S A) (k : A → M S B) :
  trace_all Q m → (∀ a, trace_all Q (k a)) → trace_all Q (m ≫= k).
Proof.
  intros Hm Hk s. specialize (Hm s). unfold mbind, M_bind, trace_of in *.
  destruct (m s) as [[[a|e] s1] t1]; simpl in *; [|done].
  specialize (Hk a s1). unfold trace_of in Hk.
  destruct (k a s1) as [[r s2] t2]; simpl in *. by apply Forall_app.
Qed.

Lemma trace_all_try_catch {A} Q (m : M S A) h :
  trace_all Q m → (∀ e, trace_all Q (h e)) → trace_all Q (try_catch m h).
Proof.
  intros Hm Hh s. specialize (Hm s). unfold try_catch, trace_of in *.
  destruct (m s) as [[[a|e] s1] t1]; simpl in *; [done|].
  specialize (Hh e s1). unfold trace_of in Hh.
  destruct (h e s1) as [[r s2] t2]; simpl in *. by apply Forall_app.
Qed.

Lemma trace_all_finally {A} Q (m : M S A) c :
  trace_all Q m → trace_all Q c → trace_all Q (finally m c).
Proof.
  intros Hm Hc s. specialize (Hm s). unfold finally, trace_of in *.
  destruct (m s) as [[r s1] t1]; simpl in *.
  specialize (Hc s1). unfold trace_of in Hc.
  destruct (c s1) as [[[u|e] s2] t2]; simpl in *; by apply Forall_app.
Qed.

Lemma trace_all_for_each {X} Q (l : list X) (f : X → M S unit) :
  (∀ x, trace_all Q (f x)) → trace_all Q (for_each l f).
Proof.
  intros Hf. induction l as [|x l IH]; simpl; [apply trace_all_ret|].
  apply trace_all_bind; [apply Hf | by intros _].
Qed.

Lemma keeps_ret {A X} (f : S → X) (a : A) : keeps f (mret a).
Proof. by intros s. Qed.

Lemma keeps_throw {A X} (f : S → X) e : keeps (A:=A) f (throw e).
Proof. by intros s. Qed.

Lemma keeps_tell {X} (f : S → X) e : keeps f (tell e).
Proof. by intros s. Qed.

Lemma keeps_get {X} (f : S → X) : keeps f get.
Proof. by intros s. Qed.

Lemma keeps_bind {A B X} (f : S → X) (m : M S A) (k : A → M S B) :
  keeps f m → (∀ a, keeps f (k a)) → keeps f (m ≫= k).
Proof.
  intros Hm Hk s. specialize (Hm s). unfold mbind, M_bind, state_of in *.
  destruct (m s) as [[[a|e] s1] t1]; simpl in *; [|done].
  specialize (Hk a s1). unfold state_of in Hk.
  destruct (k a s1) as [[r s2] t2]; simpl in *. congruence.
Qed.

Lemma keeps_try_catch {A X} (f : S → X) (m : M S A) h :
  keeps f m → (∀ e, keeps f (h e)) → keeps f (try_catch m h).
Proof.
  intros Hm Hh s. specialize (Hm s). unfold try_catch, state_of in *.
  destruct (m s) as [[[a|e] s1] t1]; simpl in *; [done|].
  specialize (Hh e s1). unfold state_of in Hh.
  destruct (h e s1) as [[r s2] t2]; simpl in *. congruence.
Qed.

Lemma keeps_finally {A X} (f : S → X) (m : M S A) c :
  keeps f m → keeps f c → keeps f (finally m c).
Proof.
  intros Hm Hc s. specialize (Hm s). unfold finally, state_of in *.
  destruct (m s) as [[r s1] t1]; simpl in *.
  specialize (Hc s1). unfold state_of in Hc.
  destruct (c s1) as [[[u|e] s2] t2]; simpl in *; congruence.
Qed.

Lemma keeps_for_each {X Y} (g : S → Y) (l : list X) (f : X → M S unit) :
  (∀ x, keeps g (f x)) → keeps g (for_each l f).
Proof.
  intros Hf. induction l as [|x l IH]; simpl; [apply keeps_ret|].
  apply keeps_bind; [apply Hf | by intros _].
Qed.

Context `{HasFs S}.

Lemma trace_all_fs_update (Q : effect → Prop) c p f :
  Q (FsCall c) → trace_all Q (fs_update c p f).
Proof.
  intros Hc s. unfold fs_update, trace_of.
  destruct (f (the_fs s)); simpl; by repeat constructor.
Qed.

Lemma trace_all_fs_query {A} (Q : effect → Prop) c p (f : Fs.node → Fs.result A) :
  Q (FsCall c) → trace_all Q (fs_query c p f).
Proof.
  intros Hc s. unfold fs_query, trace_of.
  destruct (f (the_fs s)); simpl; by repeat constructor.
Qed.

Lemma keeps_fs_update {X} (g : S → X) c p f :
  (∀ n s, g (with_fs n s) = g s) → keeps g (fs_update c p f).
Proof.
  intros Hg s. unfold fs_update, state_of. destruct (f (the_fs s)); simpl; done.
Qed.

Lemma keeps_fs_query {A X} (g : S → X) c p (f : Fs.node → Fs.result A) :
  keeps g (fs_query c p f).
Proof. intros s. unfold fs_query, state_of. destruct (f (the_fs s)); simpl; done. Qed.

End facts.

End MonadFacts.

Import MonadFacts.

(** ** Facts about the handlers of the edge *)

(** What a handler keeps and what its trace holds follows its shape. *)
Ltac frame_step :=
  first
    [ apply keeps_ret | apply keeps_throw | apply keeps_tell | apply keeps_get
    | apply keeps_fs_query
    | apply keeps_fs_update; by intros ? []
    | apply keeps_bind; [|intros ?]
    | apply keeps_try_catch; [|intros ?]
    | apply keeps_finally
    | apply keeps_for_each; intros ?
    | apply trace_all_ret | apply trace_all_throw | apply trace_all_get
    | apply trace_all_modify
    | apply trace_all_tell; done
    | apply trace_all_fs_query; done
    | apply trace_all_fs_update; done
    | apply trace_all_bind; [|intros ?]
    | apply trace_all_try_catch; [|intros ?]
    | apply trace_all_finally
    | apply trace_all_for_each; intros ?
    | match goal with
      | |- keeps _ (if ?b then _ else _) => destruct b
      | |- keeps _ (match ?x with _ => _ end) => destruct x
      | |- trace_all _ (if ?b then _ else _) => destruct b
      | |- trace_all _ (match ?x with _ => _ end) => destruct x
      end ].

Ltac frame := repeat frame_step.

Section client_facts.
Context {codec : BufferCodec}.
Import FileSystemClient.

Lemma decode_keeps {X} (g : client → X) content encoding :
  keeps g (decode content encoding).
Proof. unfold decode. frame. Qed.

Lemma decode_trace Q content encoding : trace_all Q (decode content encoding).
Proof. unfold decode. frame. Qed.

Lemma serverSwitch_keeps {X} (g : client → X) data fullPath :
  (∀ n s, g (set_fs n s) = g s) → keeps g (serverSwitch data fullPath).
Proof.
  intros Hg. unfold serverSwitch, ensureDir, writeFile, remove.
  frame; try apply decode_keeps; apply keeps_fs_update; apply Hg.
Qed.

Lemma serverSwitch_only_fs data fullPath :
  trace_all is_fs_call (serverSwitch data fullPath).
Proof.
  unfold serverSwitch, ensureDir, writeFile, remove. frame; apply decode_trace.
Qed.

Lemma try_catch_swallow {S} (m : M S unit) s :
  outcome_of (try_catch m (fun _ => mret tt) s) = Return tt.
Proof.
  unfold try_catch, outcome_of. destruct (m s) as [[[[]|e] s1] t1]; done.
Qed.

(** Registering a key, running [body] with every [throw] swallowed, and
    taking the key out in the [finally] block. *)
Lemma register_run_release key (body : M client unit) c :
  keeps activeOperations body → keeps timers body →
  let r := (ledger_add key ;;
            finally (try_catch body (fun _ => mret tt)) (ledger_delete key)) c in
  outcome_of r = Return tt
  ∧ trace_of r
    = LedgerAdd key
      :: trace_of (try_catch body (fun _ => mret tt)
                     (set_activeOperations ({[key]} ∪ activeOperations c) c))
      ++ [LedgerDelete key]
  ∧ activeOperations (state_of r) = activeOperations c ∖ {[key]}
  ∧ timers (state_of r) = timers c.
Proof.
  intros Ha Ht.
  set (c1 := set_activeOperations ({[key]} ∪ activeOperations c) c).
  pose proof (try_catch_swallow body c1) as Ho.
  pose proof (keeps_try_catch activeOperations body (fun _ => mret tt) Ha
                (fun _ => keeps_ret _ _) c1) as Ha'.
  pose proof (keeps_try_catch timers body (fun _ => mret tt) Ht
                (fun _ => keeps_ret _ _) c1) as Ht'.
  unfold ledger_add, ledger_delete, finally, mbind, M_bind, modify, tell.
  fold c1. unfold outcome_of, state_of, trace_of in *.
  destruct (try_catch body (fun _ => mret tt) c1) as [[o c2] t]. simpl in *.
  subst o. split_and!; [done | done | | done].
  rewrite Ha'. apply set_eq. intros x.
  rewrite !elem_of_difference, elem_of_union, elem_of_singleton. tauto.
Qed.

(** [handleServerChange] registers the key, makes its filesystem calls,
    and takes the key out of the ledger before it returns; it sets no
    timer. *)
Lemma handleServerChange_ledger data c :
  let key := operationKey (ev_event data) (ev_path data) in
  let r := handleServerChange data c in
  (∃ calls, trace_of r = (LedgerAdd key :: calls ++ [LedgerDelete key])
            ∧ Forall is_fs_call calls)
  ∧ (key ∉ activeOperations (state_of r))
  ∧ timers (state_of r) = timers c.
Proof.
  intros key r. subst r. unfold handleServerChange. rewrite bind_get. fold key.
  destruct (register_run_release key
              (serverSwitch data (Path.join (localDir c) (ev_path data))) c)
    as (_ & Htr & Hact & Htim).
  { apply serverSwitch_keeps. by intros ? []. }
  { apply serverSwitch_keeps. by intros ? []. }
  split_and!.
  - eexists. split; [exact Htr|].
    apply trace_all_try_catch; [apply serverSwitch_only_fs | intros ?; apply trace_all_ret].
  - rewrite Hact, elem_of_difference, elem_of_singleton. tauto.
  - done.
Qed.

(** The handler of [fileContent] does the same with the key
    [write-<path>]. *)
Lemma on_fileContent_ledger filePath content encoding c :
  let key := "write-" +:+ filePath in
  let r := on_fileContent filePath content encoding c in
  (∃ calls, trace_of r = (LedgerAdd key :: calls ++ [LedgerDelete key])
            ∧ Forall is_fs_call calls)
  ∧ (key ∉ activeOperations (state_of r))
  ∧ timers (state_of r) = timers c.
Proof.
  intros key r. subst r. unfold on_fileContent. rewrite bind_get. fold key.
  set (body := (ensureDir _ ;; _) : M client unit).
  assert (∀ X (g : client → X), (∀ n s, g (set_fs n s) = g s) → keeps g body) as Hk.
  { intros X g Hg. subst body. unfold ensureDir, writeFile.
    frame; try apply decode_keeps; apply keeps_fs_update; apply Hg. }
  destruct (register_run_release key body c) as (_ & Htr & Hact & Htim).
  { apply Hk. by intros ? []. }
  { apply Hk. by intros ? []. }
  split_and!.
  - eexists. split; [exact Htr|].
    apply trace_all_try_catch; [| intros ?; apply trace_all_ret].
    subst body. unfold ensureDir, writeFile. frame; apply decode_trace.
  - rewrite Hact, elem_of_difference, elem_of_singleton. tauto.
  - done.
Qed.

End client_facts.

Section key_facts.
Context {codec : BufferCodec}.
Import FileSystemClient.


End key_facts.

(** ** Facts about the handlers of the hub *)

Section query_facts.
Context {codec : BufferCodec}.
Import FileSystemServer.


End query_facts.

(** ** Where the paths of a message end up *)

Lemma call_inside_targets root t : Forall (call_inside root) t → targets_inside root t.
Proof.
  unfold targets_inside, fs_targets. induction 1 as [|e t He Ht IH]; [constructor|].
  destruct e; simpl; try done. apply Forall_app. split; done.
Qed.

Lemma trace_try_catch_at {S A} Q (m : M S A) h s :
  Forall Q (trace_of (m s)) → (∀ e, trace_all Q (h e)) →
  Forall Q (trace_of (try_catch m h s)).
Proof.
  intros Hm Hh. unfold try_catch, trace_of in *.
  destruct (m s) as [[[a|e] s1] t1]; simpl in *; [done|].
  specialize (Hh e s1). unfold trace_of in Hh.
  destruct (h e s1) as [[r s2] t2]; simpl in *. by apply Forall_app.
Qed.

Lemma filter_proper_nonempty p :
  Path.names_entry p → filter (fun s => Path.proper s = true) (Path.split p) ≠ [].
Proof.
  unfold Path.names_entry. rewrite Exists_exists. intros (seg & Hin & Hp) Hnil.
  assert (seg ∈ filter (fun s => Path.proper s = true) (Path.split p)) as Hf.
  { by apply list_elem_of_filter. }
  rewrite Hnil in Hf. by apply elem_of_nil in Hf.
Qed.

Lemma removelast_app_r {A} (l k : list A) : k ≠ [] → removelast (l ++ k) = l ++ removelast k.
Proof. intros Hk. by apply removelast_app. Qed.

(** The parent of what a path names below the root is at or below the
    root. *)
Lemma inside_dirname_join root p :
  Path.isAbsolute root = true → Path.dotdot_free p → Path.names_entry p →
  Path.inside root (Path.dirname (Path.join root p)).
Proof.
  intros Habs Hdd Hne. unfold Path.inside.
  rewrite resolve_dirname, resolve_join_dotdot_free by done.
  rewrite removelast_app_r by (by apply filter_proper_nonempty).
  by apply prefix_app_r.
Qed.

Ltac inside_call :=
  simpl; repeat constructor;
  first [ by apply inside_join | by apply inside_dirname_join | done ].

Ltac confine :=
  repeat first
    [ apply trace_all_ret | apply trace_all_throw | apply trace_all_get
    | apply trace_all_modify
    | apply trace_all_tell; done
    | apply trace_all_fs_query; inside_call
    | apply trace_all_fs_update; inside_call
    | apply trace_all_bind; [|intros ?]
    | apply trace_all_try_catch; [|intros ?]
    | apply trace_all_finally
    | match goal with
      | |- trace_all _ (if ?b then _ else _) => destruct b
      | |- trace_all _ (match ?x with _ => _ end) => destruct x eqn:?
      end ].

Section confinement.
Context {codec : BufferCodec}.

Lemma hub_operation_inside sid data h :
  Path.isAbsolute (FileSystemServer.watchDir h) = true →
  Path.dotdot_free (op_path data) → Path.names_entry (op_path data) →
  (∀ newPath, op_newPath data = Some newPath → Path.dotdot_free newPath) →
  targets_inside (FileSystemServer.watchDir h)
    (trace_of (FileSystemServer.on_fileOperation sid data h)).
Proof.
  intros Habs Hdd Hne Hnew. apply call_inside_targets.
  unfold FileSystemServer.on_fileOperation.
  apply trace_try_catch_at; [|intros e; unfold emit; confine].
  unfold FileSystemServer.handleClientOperation. rewrite bind_get.
  match goal with |- Forall ?Q (trace_of (?m h)) => assert (trace_all Q m) as Hall end;
    [|apply Hall].
  unfold FileSystemServer.decode, ensureDir, writeFile, remove, move, chmod, emit.
  confine.
  apply trace_all_fs_update. simpl.
  repeat constructor; apply inside_join; try done. by apply Hnew.
Qed.

Lemma hub_query_inside sid p h :
  Path.isAbsolute (FileSystemServer.watchDir h) = true → Path.dotdot_free p →
  targets_inside (FileSystemServer.watchDir h)
    (trace_of (FileSystemServer.on_requestFileContent sid p h)).
Proof.
  intros Habs Hdd. apply call_inside_targets.
  unfold FileSystemServer.on_requestFileContent. rewrite bind_get.
  match goal with |- Forall ?Q (trace_of (?m h)) => assert (trace_all Q m) as Hall end;
    [|apply Hall].
  unfold pathExists, stat, readFile, emit. confine.
Qed.

Lemma edge_change_inside data c :
  Path.isAbsolute (FileSystemClient.localDir c) = true →
  Path.dotdot_free (ev_path data) → Path.names_entry (ev_path data) →
  targets_inside (FileSystemClient.localDir c)
    (trace_of (FileSystemClient.on_fileSystemChange data c)).
Proof.
  intros Habs Hdd Hne. apply call_inside_targets.
  unfold FileSystemClient.on_fileSystemChange. rewrite bind_get.
  case_bool_decide; [constructor|].
  destruct (FileSystemClient.chmod_with_mode data) as [mode|].
  - unfold FileSystemClient.applyChmod. rewrite bind_get.
    match goal with |- Forall ?Q (trace_of (?m c)) => assert (trace_all Q m) as Hall end;
      [|apply Hall].
    unfold chmod, FileSystemClient.cache_set. confine.
  - unfold FileSystemClient.handleServerChange. rewrite bind_get.
    match goal with |- Forall ?Q (trace_of (?m c)) => assert (trace_all Q m) as Hall end;
      [|apply Hall].
    unfold FileSystemClient.serverSwitch, FileSystemClient.ledger_add,
      FileSystemClient.ledger_delete, FileSystemClient.decode,
      ensureDir, writeFile, remove.
    confine.
Qed.

End confinement.

(** ** The pattern of [ignored] *)

Lemma split_first_char s c rest t :
  Path.split s = String c rest :: t → ∃ s', s = String c s'.
Proof.
  destruct s as [|a s]; simpl; [done|].
  destruct (Ascii.eqb a Path.sep); [done|].
  destruct (Path.split s); intros [= -> _]; eauto.
Qed.

Lemma ignored_from_hit s :
  ∀ b seg, plainly_hidden seg →
    (b = true ∧ head (Path.split s) = Some seg) ∨ seg ∈ tail (Path.split s) →
    ignored_from b s = true.
Proof.
  induction s as [|a s IH]; intros b seg (c & rest & -> & Hc) Hseg.
  { simpl in Hseg. destruct Hseg as [[_ [=]] | Hin]. by apply elem_of_nil in Hin. }
  cbn [ignored_from]. apply orb_true_iff.
  assert (plainly_hidden (String "." (String c rest))) as Hh by (by exists c, rest).
  simpl in Hseg. destruct (Ascii.eqb a Path.sep) eqn:Ea.
  - apply Ascii.eqb_eq in Ea as ->. right. simpl in Hseg.
    destruct Hseg as [[_ [=]] | Hin].
    pose proof (split_nonempty s) as Hne.
    destruct (Path.split s) as [|h t] eqn:Es; [done|].
    apply (IH _ _ Hh). simpl.
    apply elem_of_cons in Hin as [<- | Hin]; [by left | by right].
  - pose proof (split_nonempty s) as Hne.
    destruct (Path.split s) as [|h t] eqn:Es; [done|]. simpl in Hseg.
    destruct Hseg as [[-> [= -> ->]] | Hin].
    + left. apply split_first_char in Es as [s' ->]. simpl. by rewrite Hc.
    + right. apply (IH _ _ Hh). by right.
Qed.

(** The pattern matches every path with a segment that starts with a dot
    followed by a character other than a line terminator. *)
Lemma ignored_hidden_segment p seg :
  seg ∈ Path.split p → plainly_hidden seg → ignored p = true.
Proof.
  intros Hin Hh. apply (ignored_from_hit p true seg Hh).
  destruct (Path.split p) as [|h t]; [by apply elem_of_nil in Hin|].
  apply elem_of_cons in Hin as [-> | Hin]; [by left | by right].
Qed.

(** ** The initial sync *)

Section sync.
Context {codec : BufferCodec}.
Import FileSystemClient.

Lemma bind_return_inv {S A B} (m : M S A) (k : A → M S B) s b :
  outcome_of ((m ≫= k) s) = Return b →
  ∃ a s1 t1, m s = (Return a, s1, t1)
    ∧ outcome_of (k a s1) = Return b
    ∧ trace_of ((m ≫= k) s) = t1 ++ trace_of (k a s1).
Proof.
  unfold mbind, M_bind, outcome_of, trace_of.
  destruct (m s) as [[[a|e] s1] t1]; simpl; [|done].
  destruct (k a s1) as [[r s2] t2] eqn:E; simpl. intros ->.
  exists a, s1, t1. by rewrite E.
Qed.

Lemma bind_trace_l {S A B} (m : M S A) (k : A → M S B) s e :
  e ∈ trace_of (m s) → e ∈ trace_of ((m ≫= k) s).
Proof.
  unfold mbind, M_bind, trace_of.
  destruct (m s) as [[[a|err] s1] t1]; simpl; [|done].
  destruct (k a s1) as [[r s2] t2]; simpl. intros. apply elem_of_app. by left.
Qed.

(** A loop that returns has run its body on every element. *)
Lemma for_each_effects {S X} (R : X → Prop) (E : X → effect)
    (f : X → M S unit) :
  (∀ x s, R x → E x ∈ trace_of (f x s)) →
  ∀ l s, outcome_of (for_each l f s) = Return tt →
    ∀ x, x ∈ l → R x → E x ∈ trace_of (for_each l f s).
Proof.
  intros Hf. induction l as [|y l IH]; intros s Hret x Hx Hr.
  { by apply elem_of_nil in Hx. }
  cbn [for_each] in *.
  apply bind_return_inv in Hret as Hinv. destruct Hinv as (a & s1 & t1 & Hm & Hk & Ht).
  rewrite Ht. apply elem_of_app.
  apply elem_of_cons in Hx as [-> | Hx].
  - left. specialize (Hf y s Hr). by rewrite Hm in Hf.
  - right. by apply IH.
Qed.

Lemma to_set_elem x l : ∀ seen, x ∈ to_set seen l ↔ x ∈ l ∧ x ∉ seen.
Proof.
  induction l as [|y l IH]; intros seen; simpl.
  { split; [by intros ?%elem_of_nil | by intros [?%elem_of_nil _]]. }
  case_bool_decide as Hy.
  - rewrite IH, elem_of_cons. split; [tauto|].
    intros [[-> | Hx] Hs]; [done | tauto].
  - rewrite !elem_of_cons, IH, elem_of_cons. split.
    + intros [-> | [Hx Hs]]; [tauto|]. split; [tauto|]. tauto.
    + intros [[-> | Hx] Hs]; [tauto|].
      destruct (decide (x = y)) as [-> | Hne]; [tauto|]. right. tauto.
Qed.

Lemma getLocalFiles_run c :
  getLocalFiles c
  = (Return (snapshot (localDir c) (fs c)), c, [FsCall (readdir_call (localDir c))]).
Proof. done. Qed.

(** What [syncWithServer] has done when it returns: a [remove] for every
    local item whose path the hub's state lacks, an [ensureDir] for every
    directory item of the hub's state, a content request for every other
    item. *)
Lemma syncWithServer_when_it_returns files c :
  outcome_of (syncWithServer files c) = Return tt →
  let t := trace_of (syncWithServer files c) in
  (∀ e, e ∈ snapshot (localDir c) (fs c) → e_path e ∉ map e_path files →
     FsCall (remove_call (Path.join (localDir c) (e_path e))) ∈ t)
  ∧ (∀ f, f ∈ files → e_type f = "directory" →
       FsCall (ensureDir_call (Path.join (localDir c) (e_path f))) ∈ t)
  ∧ (∀ f, f ∈ files → e_type f ≠ "directory" →
       Emit ToHub (requestFileContent (e_path f)) ∈ t).
Proof.
  intros Hret t. subst t. unfold syncWithServer in *.
  apply bind_return_inv in Hret as (a & s1 & t1 & Hm & Hret & ->).
  rewrite getLocalFiles_run in Hm. injection Hm as <- <- <-.
  rewrite bind_get in *.
  apply bind_return_inv in Hret as (u1 & s2 & t2 & Hloop1 & Hret & ->).
  apply bind_return_inv in Hret as (u2 & s3 & t3 & Hloop2 & Hret & ->).
  destruct u1, u2.
  split_and!.
  - intros e He Habs. apply elem_of_app. right. apply elem_of_app. left.
    match type of Hloop1 with for_each ?l ?f c = _ =>
      pose proof (for_each_effects (fun x => x ∉ map e_path files)
                    (fun x => FsCall (remove_call (Path.join (localDir c) x)))
                    f) as Hfe;
      assert (∀ x s, x ∉ map e_path files →
                FsCall (remove_call (Path.join (localDir c) x)) ∈ trace_of (f x s)) as Hbody;
      [| specialize (Hfe Hbody l c) ]
    end.
    { intros x s Hx. cbn beta. rewrite bool_decide_false by done.
      unfold ledger_add, ledger_delete, remove, fs_update, mbind, M_bind, modify, tell, trace_of.
      cbn. destruct (Fs.remove _ _); cbn; repeat constructor. }
    rewrite Hloop1 in Hfe. apply Hfe; [done | | done].
    apply to_set_elem. split; [|by intros ?%elem_of_nil].
    rewrite SnapshotFacts.map_fmap. apply list_elem_of_fmap. by exists e.
  - intros f Hf Hdir. apply elem_of_app. right. apply elem_of_app. right.
    apply elem_of_app. left.
    match type of Hloop2 with for_each ?l ?g s2 = _ =>
      pose proof (for_each_effects (fun x => e_type x = "directory")
                    (fun x => FsCall (ensureDir_call (Path.join (localDir c) (e_path x))))
                    g) as Hfe;
      assert (∀ x s, e_type x = "directory" →
                FsCall (ensureDir_call (Path.join (localDir c) (e_path x)))
                ∈ trace_of (g x s)) as Hbody;
      [| specialize (Hfe Hbody l s2) ]
    end.
    { intros x s Hx. cbn beta. rewrite Hx. cbn.
      unfold ledger_add, ledger_delete, ensureDir, fs_update, mbind, M_bind, modify, tell, trace_of.
      cbn. destruct (Fs.ensureDir _ _); cbn; repeat constructor. }
    rewrite Hloop2 in Hfe. by apply Hfe.
  - intros f Hf Hdir. apply elem_of_app. right. apply elem_of_app. right.
    apply elem_of_app. left.
    match type of Hloop2 with for_each ?l ?g s2 = _ =>
      pose proof (for_each_effects (fun x => e_type x ≠ "directory")
                    (fun x => Emit ToHub (requestFileContent (e_path x)))
                    g) as Hfe;
      assert (∀ x s, e_type x ≠ "directory" →
                Emit ToHub (requestFileContent (e_path x)) ∈ trace_of (g x s)) as Hbody;
      [| specialize (Hfe Hbody l s2) ]
    end.
    { intros x s Hx. cbn beta. apply String.eqb_neq in Hx. rewrite Hx. cbn. repeat constructor. }
    rewrite Hloop2 in Hfe. by apply Hfe.
Qed.

End sync.

(* ===================================================================== *)
(** ** The claims of the specification                                    *)
(* ===================================================================== *)

(** Closed facts about the examples are settled by evaluation. *)
Ltac by_evaluation := compute_done.


(** The local path, for comparison: a change the watcher reports puts its
    key into the ledger and a timer takes it out 500 ms later, not
    before. *)
Example local_change_holds_key_for_500ms :
  let c1 :=
    state_of (FileSystemClient.handleLocalChange (codec:=node_codec)
                "add" "/home/u/local/a.txt" edge_synced) in
  FileSystemClient.timers c1 = [(500%N, "add-a.txt")]
  ∧ "add-a.txt" ∈ FileSystemClient.activeOperations c1
  ∧ "add-a.txt"
    ∈ FileSystemClient.activeOperations (state_of (FileSystemClient.advance 499 c1))
  ∧ "add-a.txt"
    ∉ FileSystemClient.activeOperations (state_of (FileSystemClient.advance 500 c1)).
Proof. split_and!; [reflexivity | by_evaluation ..]. Qed.

(** The remote path on the broadcast that adds [b.txt] at the steady edge:
    the key is registered, the file is written, the key is deleted; when
    the handler returns the ledger does not hold the key and no timer is
    pending. *)
Example remote_add_releases_key_on_return :
  let r := FileSystemClient.on_fileSystemChange (codec:=node_codec)
             add_b edge_steady in
  trace_of r
  = [LedgerAdd "add-b.txt"; FsCall (ensureDir_call "/home/u/local");
     FsCall (writeFile_call "/home/u/local/b.txt" "hi");
     LedgerDelete "add-b.txt"]
  ∧ ("add-b.txt" ∉ FileSystemClient.activeOperations (state_of r))
  ∧ FileSystemClient.timers (state_of r) = [].
Proof. split_and!; [reflexivity | by_evaluation | reflexivity]. Qed.

(** C1 (the code does not do what the claim says). When the edge applies
    a [fileSystemChange] broadcast or a [fileContent] reply it does put the
    operation key into the ledger before the filesystem calls, but the
    [finally] block takes the key out again as soon as the apply is over:
    on return the key is not in the ledger and no timer has been set, so
    these two paths have no grace window of 500 ms. *)
Theorem C1_remote_apply_releases_key_at_once {codec : BufferCodec} :
  (∀ (data : changeData) (c : FileSystemClient.client),
     let key := FileSystemClient.operationKey (ev_event data) (ev_path data) in
     let r := FileSystemClient.handleServerChange data c in
     (∃ calls, trace_of r = (LedgerAdd key :: calls ++ [LedgerDelete key])
               ∧ Forall is_fs_call calls)
     ∧ (key ∉ FileSystemClient.activeOperations (state_of r))
     ∧ FileSystemClient.timers (state_of r) = FileSystemClient.timers c)
  ∧ (∀ (filePath content : string) (encoding : option string)
       (c : FileSystemClient.client),
       let key := "write-" +:+ filePath in
       let r := FileSystemClient.on_fileContent filePath content encoding c in
       (∃ calls, trace_of r = (LedgerAdd key :: calls ++ [LedgerDelete key])
                 ∧ Forall is_fs_call calls)
       ∧ (key ∉ FileSystemClient.activeOperations (state_of r))
       ∧ FileSystemClient.timers (state_of r) = FileSystemClient.timers c).
Proof.
  split; intros; [apply handleServerChange_ledger | apply on_fileContent_ledger].
Qed.

(** C2 (the code does not do what the claim says). The edge is in its
    steady state. It applies the broadcast that adds [b.txt]; the watcher
    then reports [add] for [b.txt]; the edge sends the file back to the hub
    as a [write] (with a [chmod] before it). The same happens for [a.txt]
    after its content reply has been written. *)
Theorem C2_echo_after_remote_apply_is_sent :
  let c1 :=
    state_of (FileSystemClient.on_fileSystemChange (codec:=node_codec)
                add_b edge_steady) in
  let c2 :=
    state_of (FileSystemClient.on_fileContent (codec:=node_codec)
                "a.txt" "aGVsbG8=" (Some "base64") edge_steady) in
  emitted (trace_of (FileSystemClient.on_watch (codec:=node_codec)
                       "add" "/home/u/local/b.txt" c1))
  = [(ToHub, fileOperation (FileSystemClient.chmod_op "b.txt" 420));
     (ToHub, fileOperation (FileSystemClient.write_op "b.txt" "aGk="))]
  ∧ emitted (trace_of (FileSystemClient.on_watch (codec:=node_codec)
                         "add" "/home/u/local/a.txt" c2))
    = [(ToHub, fileOperation (FileSystemClient.chmod_op "a.txt" 420));
       (ToHub, fileOperation (FileSystemClient.write_op "a.txt" "aGVsbG8="))].
Proof. split; vm_compute; reflexivity. Qed.




(** C4, as stated, fails: a [write] whose path is [../evil.txt] reaches
    the hub, whose directory is [/srv/shared]; the path has a [..]
    segment, the hub calls the filesystem on [/srv] and [/srv/evil.txt],
    which is not under its directory, and the file is there afterwards. *)
Lemma C4_dotdot_path_escapes_root :
  let r := FileSystemServer.on_fileOperation (codec:=node_codec)
             "s1" write_evil hub in
  ¬ Path.dotdot_free (op_path write_evil)
  ∧ fs_targets (trace_of r) = ["/srv"; "/srv/evil.txt"]
  ∧ ¬ Path.inside "/srv/shared" "/srv/evil.txt"
  ∧ Fs.readFile ["srv"; "evil.txt"] (FileSystemServer.fs (state_of r))
    = Fs.Ok "hi".
Proof.
  split_and!.
  - intros Hfree. apply Hfree. by_evaluation.
  - vm_compute. reflexivity.
  - intros [k Hk]. vm_compute in Hk. discriminate.
  - vm_compute. reflexivity.
Qed.

(** C4, amended. A replica takes the path of a message as it comes and
    joins it to its root with [path.join]; nothing checks it. When the
    path has no [..] segment and names an entry, every path handed to the
    filesystem while a [fileOperation] or a [requestFileContent] is handled
    by the hub, or a [fileSystemChange] by the edge, lies at or below the
    root of the replica (for a [rename] the new path must have no [..]
    segment either). *)
Theorem C4_dotdot_free_targets_inside_root {codec : BufferCodec}
    (h : FileSystemServer.server) (c : FileSystemClient.client)
    (sid query : string) (op : opData) (change : changeData) :
  Path.isAbsolute (FileSystemServer.watchDir h) = true →
  Path.isAbsolute (FileSystemClient.localDir c) = true →
  Path.dotdot_free (op_path op) → Path.names_entry (op_path op) →
  (∀ newPath, op_newPath op = Some newPath → Path.dotdot_free newPath) →
  Path.dotdot_free query →
  Path.dotdot_free (ev_path change) → Path.names_entry (ev_path change) →
  targets_inside (FileSystemServer.watchDir h)
    (trace_of (FileSystemServer.on_fileOperation sid op h))
  ∧ targets_inside (FileSystemServer.watchDir h)
      (trace_of (FileSystemServer.on_requestFileContent sid query h))
  ∧ targets_inside (FileSystemClient.localDir c)
      (trace_of (FileSystemClient.on_fileSystemChange change c)).
Proof.
  intros. split_and!;
    [by apply hub_operation_inside | by apply hub_query_inside
    | by apply edge_change_inside].
Qed.

(** The amended C4 at work: a [write] of [docs/note.txt], a query for
    [a.txt] and the broadcast that adds [b.txt]. *)
Lemma C4_dotdot_free_targets_inside_root_witness :
  targets_inside "/srv/shared"
    (trace_of (FileSystemServer.on_fileOperation (codec:=node_codec)
                 "s1" write_note hub))
  ∧ targets_inside "/srv/shared"
      (trace_of (FileSystemServer.on_requestFileContent (codec:=node_codec)
                   "s1" "a.txt" hub))
  ∧ targets_inside "/home/u/local"
      (trace_of (FileSystemClient.on_fileSystemChange (codec:=node_codec)
                   add_b edge_steady)).
Proof.
  apply (C4_dotdot_free_targets_inside_root (codec:=node_codec)
           hub edge_steady "s1" "a.txt" write_note add_b).
  - reflexivity.
  - reflexivity.
  - by_evaluation.
  - by_evaluation.
  - intros newPath Hnew. discriminate Hnew.
  - by_evaluation.
  - by_evaluation.
  - by_evaluation.
Defined.

(** C5 (the code does not do what the claim says). The edge has a
    regular file [docs]; the hub's state lists [a.txt], the directory
    [docs], [docs/inner.txt] and [notes.txt]. [ensureDir] throws on
    [docs], nothing in [syncWithServer] catches it, and the sync ends
    there: the content of [docs/inner.txt] and of [notes.txt] is never
    asked for, [isInitialSync] stays set and no watcher is attached. *)
Theorem C5_sync_stops_at_file_in_the_way :
  let r := FileSystemClient.on_fileSystemState hub_snapshot edge_conflict in
  map e_path hub_snapshot = ["a.txt"; "docs"; "docs/inner.txt"; "notes.txt"]
  ∧ outcome_of r = Throw (FsError Fs.EEXIST "/home/u/local/docs")
  ∧ emitted (trace_of r) = [(ToHub, requestFileContent "a.txt")]
  ∧ FileSystemClient.isInitialSync (state_of r) = true
  ∧ FileSystemClient.watcher (state_of r) = false.
Proof. split_and!; vm_compute; reflexivity. Qed.

(** When nothing is in the way the sync runs to its end: the local file
    the hub lacks is removed, the hub's directory is made, and the content
    of each of the hub's files is asked for. *)
Example sync_removes_stale_file :
  let r := FileSystemClient.on_fileSystemState hub_snapshot edge0 in
  outcome_of r = Return tt
  ∧ Fs.pathExists ["home"; "u"; "local"; "stale.txt"] (FileSystemClient.fs edge0)
    = true
  ∧ Fs.pathExists ["home"; "u"; "local"; "stale.txt"]
      (FileSystemClient.fs (state_of r)) = false
  ∧ Fs.stat ["home"; "u"; "local"; "docs"] (FileSystemClient.fs (state_of r))
    = Fs.Ok (dir [])
  ∧ emitted (trace_of r)
    = [(ToHub, requestFileContent "a.txt");
       (ToHub, requestFileContent "docs/inner.txt");
       (ToHub, requestFileContent "notes.txt")].
Proof. split_and!; vm_compute; reflexivity. Qed.

(** C6 (the code does not do what the claim says). The pattern given to
    the watcher as [ignored] does not match the path of a file whose name
    is a dot followed by a line feed; the hub therefore broadcasts the
    [add] of such a file, with a path whose last segment starts with a
    dot. (The snapshot walk, which tests [startsWith('.')], leaves the
    file out.) *)
Theorem C6_dot_newline_name_is_broadcast :
  let watched := "/srv/shared/" +:+ dot_newline in
  Path.startsWithDot (last_segment dot_newline) = true
  ∧ ignored watched = false
  ∧ emitted (trace_of (FileSystemServer.on_watch (codec:=node_codec)
                         "add" watched hub_dot_newline))
    = [(ToAll,
        fileSystemChange
          {| ev_event := "add"; ev_path := dot_newline; ev_type := Some "file";
             ev_content := Some "aGlkZGVu"; ev_encoding := Some "base64";
             ev_mode := None |})]
  ∧ snapshot "/srv/shared" (FileSystemServer.fs hub_dot_newline) = [].
Proof. split_and!; vm_compute; reflexivity. Qed.

(** No path in a snapshot of the hub or of the edge has a segment that
    starts with a dot. *)
Lemma snapshot_has_no_hidden_segment (root : string) (tree : Fs.node) (e : fsEntry) :
  Fs.wf tree = true → e ∈ snapshot root tree → no_hidden_segment (e_path e).
Proof. intros Hwf He. eapply walk_ok_no_hidden; [by apply snapshot_ok | done]. Qed.

(** And the change source is silent on every path with a segment that
    starts with a dot followed by a character other than a line
    terminator. *)
Lemma watchers_skip_plainly_hidden {codec : BufferCodec}
    (event p seg : string) (h : FileSystemServer.server)
    (c : FileSystemClient.client) :
  seg ∈ Path.split p → plainly_hidden seg →
  FileSystemServer.on_watch event p h = (Return tt, h, [])
  ∧ FileSystemClient.on_watch event p c = (Return tt, c, []).
Proof.
  intros Hseg Hhidden. pose proof (ignored_hidden_segment p seg Hseg Hhidden) as Hi.
  unfold FileSystemServer.on_watch, FileSystemClient.on_watch.
  rewrite bind_get, Hi, orb_true_r. done.
Qed.

(** C7. In the snapshot the hub builds and in the snapshot the edge
    builds, a directory item comes before every item whose path lies
    below it, and every item below the root of the walk has its parent
    directory as an item before it: replayed in order, no item needs a
    directory that has not been created yet. *)
Theorem C7_directories_before_descendants
    (h : FileSystemServer.server) (c : FileSystemClient.client) :
  Fs.wf (FileSystemServer.fs h) = true →
  Fs.wf (FileSystemClient.fs c) = true →
  (∃ snap, outcome_of (FileSystemServer.getFileSystemState h) = Return snap
           ∧ directories_first snap)
  ∧ (∃ snap, outcome_of (FileSystemClient.getLocalFiles c) = Return snap
             ∧ directories_first snap).
Proof.
  intros Hh Hc. split.
  - exists (snapshot (FileSystemServer.watchDir h) (FileSystemServer.fs h)).
    split; [done|]. by apply walk_ok_directories_first, snapshot_ok.
  - exists (snapshot (FileSystemClient.localDir c) (FileSystemClient.fs c)).
    split; [done|]. by apply walk_ok_directories_first, snapshot_ok.
Qed.

(** C7 at work on the hub and the edge of the examples. *)
Lemma C7_directories_before_descendants_witness :
  (∃ snap, outcome_of (FileSystemServer.getFileSystemState hub) = Return snap
           ∧ directories_first snap)
  ∧ (∃ snap, outcome_of (FileSystemClient.getLocalFiles edge_synced) = Return snap
             ∧ directories_first snap).
Proof.
  apply (C7_directories_before_descendants hub edge_synced).
  - vm_compute. reflexivity.
  - vm_compute. reflexivity.
Defined.

(** An [unlink] or [unlinkDir] the hub broadcasts, like every other
    broadcast that is not a [chmod], leaves the mode cache as it was. *)
Lemma handleServerChange_keeps_fileModes {codec : BufferCodec}
    (data : changeData) (c : FileSystemClient.client) :
  FileSystemClient.fileModes (state_of (FileSystemClient.handleServerChange data c))
  = FileSystemClient.fileModes c.
Proof.
  revert c. change (keeps FileSystemClient.fileModes
                      (FileSystemClient.handleServerChange data)).
  unfold FileSystemClient.handleServerChange, FileSystemClient.ledger_add,
    FileSystemClient.ledger_delete.
  frame; try (by intros []); apply serverSwitch_keeps; by intros ? [].
Qed.

(** C8 (the code does not do what the claim says). The cache of the edge
    has the mode of [a.txt]. The hub broadcasts [unlink] for [a.txt]: the
    file is removed, the cache entry stays. The same when the hub's state
    arrives anew without [a.txt]: the sync removes the file, the cache
    entry stays. (Only a delete the edge's own watcher reports clears the
    entry.) *)
Theorem C8_remote_delete_keeps_cache_entry :
  let here := ["home"; "u"; "local"; "a.txt"] in
  let r1 := FileSystemClient.on_fileSystemChange (codec:=node_codec)
              unlink_a edge_synced in
  let r2 := FileSystemClient.on_fileSystemState hub_snapshot_without_a
              edge_synced in
  Fs.pathExists here (FileSystemClient.fs edge_synced) = true
  ∧ FileSystemClient.fileModes edge_synced !! "a.txt" = Some 420%N
  ∧ Fs.pathExists here (FileSystemClient.fs (state_of r1)) = false
  ∧ FileSystemClient.fileModes (state_of r1) !! "a.txt" = Some 420%N
  ∧ Fs.pathExists here (FileSystemClient.fs (state_of r2)) = false
  ∧ FileSystemClient.fileModes (state_of r2) !! "a.txt" = Some 420%N
  ∧ FileSystemClient.fileModes
      (state_of (FileSystemClient.on_watch (codec:=node_codec)
                   "unlink" "/home/u/local/a.txt" edge_synced)) !! "a.txt"
    = None.
Proof. split_and!; vm_compute; reflexivity. Qed.




(** C10. An [add] or [change] broadcast whose content is not a string
    makes the edge call the filesystem not at all: the handler returns
    normally, the local filesystem is as before, and nothing is sent. *)
Theorem C10_change_without_content_writes_nothing {codec : BufferCodec}
    (data : changeData) (c : FileSystemClient.client) :
  ev_event data = "add" ∨ ev_event data = "change" →
  ev_content data = None →
  let r := FileSystemClient.on_fileSystemChange data c in
  outcome_of r = Return tt
  ∧ FileSystemClient.fs (state_of r) = FileSystemClient.fs c
  ∧ fs_targets (trace_of r) = []
  ∧ emitted (trace_of r) = [].
Proof.
  intros Hev Hcontent. unfold FileSystemClient.on_fileSystemChange.
  rewrite bind_get. case_bool_decide; [done|].
  assert (FileSystemClient.chmod_with_mode data = None) as ->.
  { unfold FileSystemClient.chmod_with_mode. by destruct Hev as [-> | ->]. }
  unfold FileSystemClient.handleServerChange. rewrite bind_get.
  unfold FileSystemClient.serverSwitch. rewrite Hcontent.
  destruct Hev as [-> | ->]; done.
Qed.

(** C10 at work: the broadcast that adds [b.txt], without content, at the
    steady edge. *)
Lemma C10_change_without_content_writes_nothing_witness :
  let r := FileSystemClient.on_fileSystemChange (codec:=node_codec)
             add_b_without_content edge_steady in
  outcome_of r = Return tt
  ∧ FileSystemClient.fs (state_of r) = FileSystemClient.fs edge_steady
  ∧ fs_targets (trace_of r) = []
  ∧ emitted (trace_of r) = [].
Proof.
  apply (C10_change_without_content_writes_nothing (codec:=node_codec)
           add_b_without_content edge_steady).
  - left. reflexivity.
  - reflexivity.
Defined.

(* ===================================================================== *)
(** * Further properties of the code                                      *)
(* ===================================================================== *)

(** ** The snapshot walk against the tree it walks *)

Lemma stat_app a b n :
  Fs.stat (a ++ b) n = Fs.and_then (Fs.stat a n) (Fs.stat b).
Proof.
  revert n. induction a as [|name a IH]; intros n; simpl; [done|].
  destruct n as [|m es|]; try done. destruct (Fs.assoc name es); [apply IH | done].
Qed.

Lemma assoc_head name c es : Fs.assoc name ((name, c) :: es) = Some c.
Proof. simpl. by rewrite String.eqb_refl. Qed.

Lemma assoc_tail name name0 c0 es :
  name0 ≠ name → Fs.assoc name ((name0, c0) :: es) = Fs.assoc name es.
Proof. intros Hne. simpl. apply String.eqb_neq in Hne. by rewrite Hne. Qed.

Lemma assoc_names name es c : Fs.assoc name es = Some c → name ∈ es.*1.
Proof. intros Hc%assoc_elem. apply list_elem_of_fmap. by exists (name, c). Qed.

(** The items of the loop over the entries [es] of a directory, read
    against that directory. *)
Lemma walk_entries_sound base m es :
  Forall valid base → Forall valid (es.*1) → NoDup (es.*1) →
  Forall (fun x => Fs.wf x.2 = true ∧
            ∀ base' e, Forall valid base' →
              e ∈ snapshot_walk (Path.render base') x.2 →
              ∃ rest node, rest ≠ [] ∧ e_path e = Path.render (base' ++ rest)
                ∧ Fs.stat rest x.2 = Fs.Ok node ∧ describes e node) es →
  ∀ e, e ∈ walk_entries snapshot_walk (Path.render base) es →
    ∃ rest node, rest ≠ [] ∧ e_path e = Path.render (base ++ rest)
      ∧ Fs.stat rest (Fs.Dir m es) = Fs.Ok node ∧ describes e node.
Proof.
  intros Hbase. induction es as [|[name child] es IH]; intros Hv Hnd HF e He.
  { by apply elem_of_nil in He. }
  rewrite fmap_cons in Hv, Hnd. cbn [fst] in Hv, Hnd.
  inversion Hv as [|? ? Hname Hv']; subst.
  apply NoDup_cons in Hnd as [Hfresh Hnd'].
  inversion HF as [|? ? [Hwf Hchild] HF']; subst. cbn [snd] in Hwf, Hchild.
  assert (∀ e, e ∈ walk_entries snapshot_walk (Path.render base) es →
            ∃ rest node, rest ≠ [] ∧ e_path e = Path.render (base ++ rest)
              ∧ Fs.stat rest (Fs.Dir m ((name, child) :: es)) = Fs.Ok node
              ∧ describes e node) as Hrest.
  { intros e' He'. destruct (IH Hv' Hnd' HF' e' He') as (rest & node & Hne & Hp & Hs & Hd).
    exists rest, node. split_and!; try done.
    destruct rest as [|n1 rest]; [done|]. cbn [Fs.stat] in *.
    rewrite assoc_tail; [done|]. intros ->.
    destruct (Fs.assoc n1 es) as [c1|] eqn:E; [|done]. by apply assoc_names in E. }
  cbn [walk_entries] in He.
  destruct (Path.startsWithDot name) eqn:Hdot; [by apply Hrest|].
  rewrite join_render in He by done.
  destruct child as [fm bytes | dm ces | sm].
  - apply elem_of_cons in He as [-> | He]; [|by apply Hrest].
    exists [name], (Fs.File fm bytes). split_and!; try done.
    cbn [Fs.stat]. by rewrite assoc_head.
  - apply elem_of_cons in He as [-> | He].
    { exists [name], (Fs.Dir dm ces). split_and!; try done.
      cbn [Fs.stat]. by rewrite assoc_head. }
    apply elem_of_app in He as [He | He]; [|by apply Hrest].
    destruct (Hchild (base ++ [name]) e) as (rest & node & Hne & Hp & Hs & Hd); try done.
    { apply Forall_app. split; [done | by constructor]. }
    exists (name :: rest), node. split_and!; try done.
    + by rewrite <- app_assoc in Hp.
    + cbn [Fs.stat]. by rewrite assoc_head.
  - by apply Hrest.
Qed.

Lemma snapshot_walk_sound n :
  Fs.wf n = true → ∀ base e, Forall valid base →
  e ∈ snapshot_walk (Path.render base) n →
  ∃ rest node, rest ≠ [] ∧ e_path e = Path.render (base ++ rest)
    ∧ Fs.stat rest n = Fs.Ok node ∧ describes e node.
Proof.
  induction n as [m c | m es IH | m] using node_ind'; intros Hwf base e Hbase He;
    try (by apply elem_of_nil in He).
  apply wf_Dir_inv in Hwf as (Hv & Hnd & Hwfs).
  cbn [snapshot_walk] in He.
  apply (walk_entries_sound base m es); try done.
  rewrite Forall_forall in IH, Hwfs. apply Forall_forall. intros x Hx.
  split; [by apply Hwfs|]. intros base' e' Hb' He'. apply IH; [done | by apply Hwfs | done | done].
Qed.



Lemma stat_names_valid rest : ∀ n node,
  Fs.wf n = true → Fs.stat rest n = Fs.Ok node → Forall valid rest.
Proof.
  induction rest as [|name rest IH]; intros n node Hwf Hs; [constructor|].
  cbn [Fs.stat] in Hs. destruct n as [|m es|]; try done.
  destruct (Fs.assoc name es) as [c|] eqn:E; [|done].
  apply wf_Dir_inv in Hwf as (Hv & _ & Hwfs).
  rewrite Forall_forall in Hv. rewrite Forall_forall in Hwfs. constructor.
  - apply Hv. by eapply assoc_names.
  - apply (IH c node); [|done]. by apply (Hwfs (name, c)), assoc_elem.
Qed.

(** X1. What [getFileSystemState] and [getLocalFiles] list is there: on a
    well-formed tree every item of the snapshot names, by its path below
    the root, a directory or a regular file of the tree, with the type of
    that node and, for a file, its size in bytes. *)
Theorem X1_snapshot_lists_only_what_is_there
    (root : string) (tree : Fs.node) (e : fsEntry) :
  Fs.wf tree = true → e ∈ snapshot root tree →
  ∃ node, Fs.stat (Path.resolve root ++ Path.segments (e_path e)) tree = Fs.Ok node
          ∧ describes e node.
Proof.
  intros Hwf He. unfold snapshot in He.
  destruct (Fs.stat (Path.resolve root) tree) as [current|] eqn:E;
    [|by apply elem_of_nil in He].
  assert (Fs.wf current = true) as Hwfc by (by eapply stat_wf).
  destruct (snapshot_walk_sound current Hwfc [] e) as (rest & node & Hne & Hp & Hs & Hd);
    [constructor | done |].
  exists node. split; [|done]. rewrite stat_app, E. cbn.
  unfold Path.segments. rewrite Hp. cbn [app].
  rewrite split_render; [done | done | by eapply stat_names_valid].
Qed.

(** X1 at work: the item for [a.txt] in the snapshot of the hub. *)
Lemma X1_snapshot_lists_only_what_is_there_witness :
  ∃ node, Fs.stat (Path.resolve "/srv/shared" ++ Path.segments (e_path item_a)) hub_tree
          = Fs.Ok node
          ∧ describes item_a node.
Proof.
  apply (X1_snapshot_lists_only_what_is_there "/srv/shared" hub_tree item_a).
  - vm_compute. reflexivity.
  - vm_compute. left.
Defined.



(** X3. The paths of a snapshot: on a well-formed tree no path comes
    twice, and every path is a non-empty list of names joined by [/], none
    of them empty, [.], [..] or starting with a dot. *)
Theorem X3_snapshot_paths_are_distinct_and_clean (root : string) (tree : Fs.node) :
  Fs.wf tree = true →
  NoDup (e_path <$> snapshot root tree)
  ∧ ∀ e, e ∈ snapshot root tree →
      Path.segments (e_path e) ≠ []
      ∧ Forall visible (Path.segments (e_path e))
      ∧ e_path e = Path.render (Path.segments (e_path e)).
Proof.
  intros Hwf. destruct (snapshot_ok root tree Hwf) as (HA & HB & _). split.
  - apply (NoDup_fmap_1 Path.segments). by rewrite <- list_fmap_compose.
  - intros e He. destruct (HA e He) as (rest & Hne & Hv & Hp). cbn [app] in Hp.
    unfold Path.segments. rewrite Hp, split_render; [done | done | by apply visible_valid].
Qed.

(** X3 at work: the snapshot of the edge's directory. *)
Lemma X3_snapshot_paths_are_distinct_and_clean_witness :
  NoDup (e_path <$> snapshot "/home/u/local" edge_tree)
  ∧ ∀ e, e ∈ snapshot "/home/u/local" edge_tree →
      Path.segments (e_path e) ≠ []
      ∧ Forall visible (Path.segments (e_path e))
      ∧ e_path e = Path.render (Path.segments (e_path e)).
Proof.
  apply (X3_snapshot_paths_are_distinct_and_clean "/home/u/local" edge_tree).
  vm_compute. reflexivity.
Defined.

(** ** Handlers that never throw *)

Section returns.
Context {S : Type}.









Context `{HasFs S}.


End returns.



Section edge_returns.
Context {codec : BufferCodec}.
Import FileSystemClient.


End edge_returns.

Section hub_returns.
Context {codec : BufferCodec}.
Import FileSystemServer.


End hub_returns.

(** ** What the hub sends *)

Lemma emitted_app t1 t2 : emitted (t1 ++ t2) = emitted t1 ++ emitted t2.
Proof. unfold emitted. apply omap_app. Qed.

Lemma emitted_fs_only t : Forall is_fs_call t → emitted t = [].
Proof.
  induction 1 as [|e t He Ht IH]; [done|]. destruct e; try done.
Qed.

Lemma no_emit_either_way {S A} (m : M S A) (s : S) :
  trace_all is_fs_call m →
  emitted (trace_of (m s))
  = match outcome_of (m s) with Return _ => [] | Throw _ => [] end.
Proof.
  intros Hm. rewrite (emitted_fs_only _ (Hm s)). by destruct (outcome_of (m s)).
Qed.

Section hub_sends.
Context {codec : BufferCodec}.
Import FileSystemServer.

(** What [handleClientOperation] itself sends: the [chmod] broadcast when
    a [chmod] went through, nothing otherwise. *)
Lemma handleClientOperation_emitted data h :
  emitted (trace_of (handleClientOperation data h))
  = match outcome_of (handleClientOperation data h) with
    | Return _ =>
        if String.eqb (op_operation data) "chmod" then
          match op_mode data with
          | Some mode =>
              [(ToAll, fileSystemChange (chmod_change (op_path data) mode))]
          | None => []
          end
        else []
    | Throw _ => []
    end.
Proof.
  unfold handleClientOperation. rewrite bind_get.
  destruct (String.eqb (op_operation data) "write") eqn:Ew.
  { apply String.eqb_eq in Ew. rewrite Ew. cbn [String.eqb Ascii.eqb Bool.eqb].
    apply no_emit_either_way. unfold decode, ensureDir, writeFile. frame. }
  destruct (String.eqb (op_operation data) "delete") eqn:Ed.
  { apply String.eqb_eq in Ed. rewrite Ed. cbn [String.eqb Ascii.eqb Bool.eqb].
    apply no_emit_either_way. unfold remove. frame. }
  destruct (String.eqb (op_operation data) "mkdir") eqn:Em.
  { apply String.eqb_eq in Em. rewrite Em. cbn [String.eqb Ascii.eqb Bool.eqb].
    apply no_emit_either_way. unfold ensureDir. frame. }
  destruct (String.eqb (op_operation data) "rename") eqn:Er.
  { apply String.eqb_eq in Er. rewrite Er. cbn [String.eqb Ascii.eqb Bool.eqb].
    apply no_emit_either_way. unfold move. frame. }
  destruct (String.eqb (op_operation data) "chmod") eqn:Ec; [|done].
  destruct (op_mode data) as [mode|]; [|done].
  unfold chmod, fs_update, emit, tell, mbind, M_bind, outcome_of, trace_of.
  destruct (Fs.chmod _ _ _); done.
Qed.

(** X6. How the hub answers an operation of a session: when
    [handleClientOperation] returns, nothing is sent but, for a [chmod], the
    broadcast of the new mode to every session; when it throws, one
    [operationError] with the message of the error goes to the session that
    sent the operation and to no other. The filesystem is as
    [handleClientOperation] left it. *)
Theorem X6_hub_answers_an_operation (sid : string) (data : opData) (h : server) :
  let inner := handleClientOperation data h in
  emitted (trace_of (on_fileOperation sid data h))
  = match outcome_of inner with
    | Return _ =>
        if String.eqb (op_operation data) "chmod" then
          match op_mode data with
          | Some mode =>
              [(ToAll, fileSystemChange (chmod_change (op_path data) mode))]
          | None => []
          end
        else []
    | Throw error =>
        [(ToSocket sid,
          operationError (error_message error) (op_operation data)
            (Some (op_path data)))]
    end
  ∧ fs (state_of (on_fileOperation sid data h)) = fs (state_of inner).
Proof.
  intros inner. pose proof (handleClientOperation_emitted data h) as Hin.
  fold inner in Hin. unfold on_fileOperation, try_catch. fold inner.
  destruct inner as [[o s1] t1]. unfold outcome_of, trace_of, state_of in *.
  cbn [fst snd] in *. destruct o as [[]|e]; [done|].
  unfold emit, tell. cbn [fst snd]. by rewrite emitted_app, Hin.
Qed.

(** [handleFileChange] always ends in one broadcast to every session,
    for the event and the root-relative path; it carries the bytes of the
    file when the event is [add] or [change] and the path still names a
    regular file, and no content otherwise; the filesystem is only read. *)
Lemma handleFileChange_broadcast event watchedPath h :
  let relativePath := Path.relative (watchDir h) watchedPath in
  let fullPath := Path.join (watchDir h) relativePath in
  let r := handleFileChange event watchedPath h in
  state_of r = h
  ∧ ∃ d, emitted (trace_of r) = [(ToAll, fileSystemChange d)]
      ∧ ev_event d = event ∧ ev_path d = relativePath ∧ ev_mode d = None
      ∧ or_base64 (ev_encoding d) = "base64"
      ∧ ev_content d
        = if String.eqb event "add" || String.eqb event "change" then
            match Fs.stat (Path.resolve fullPath) (fs h) with
            | Fs.Ok (Fs.File _ bytes) => Some (Buffer_toString bytes "base64")
            | _ => None
            end
          else None.
Proof.
  intros relativePath fullPath r. subst r. unfold handleFileChange.
  rewrite bind_get. fold relativePath. fold fullPath.
  unfold try_catch, pathExists, stat, readFile, fs_query, Fs.pathExists, Fs.readFile.
  unfold mbind, M_bind, mret, M_ret, emit, tell. cbn [the_fs server_fs].
  destruct (String.eqb event "add" || String.eqb event "change").
  - destruct (Fs.stat (Path.resolve fullPath) (fs h)) as [[m bytes|m es|m]|e] eqn:E;
      cbn; repeat (rewrite E; cbn); (split; [done|]); eexists; split_and!; done.
  - destruct (String.eqb event "addDir"); [cbn; split; [done|]; eexists; split_and!; done|].
    destruct (String.eqb event "unlink"); [cbn; split; [done|]; eexists; split_and!; done|].
    destruct (String.eqb event "unlinkDir"); cbn; (split; [done|]); eexists; split_and!; done.
Qed.


End hub_sends.

(** ** What the edge does with a change of its own *)

Section edge_local.
Context {codec : BufferCodec}.
Import FileSystemClient.

Lemma localBody_keeps {X} (g : client → X) event filePath rel key :
  (∀ m s, g (set_fileModes m s) = g s) →
  (∀ a s, g (set_activeOperations a s) = g s) →
  keeps g (localBody event filePath rel key).
Proof.
  intros Hm Ha. unfold localBody, localSwitch, readFile, stat, cache_set, cache_delete,
    ledger_delete, emit.
  frame; try done; intros s; apply Hm || apply Ha.
Qed.

(** [handleLocalChange] once it is past its three tests. *)
Lemma handleLocalChange_run event filePath c :
  let rel := Path.relative (localDir c) filePath in
  let key := operationKey event rel in
  isInitialSync c = false → rel ≠ EmptyString → key ∉ activeOperations c →
  let c1 := set_activeOperations ({[key]} ∪ activeOperations c) c in
  ∃ c2 t,
    localBody event filePath rel key c1 = (Return tt, c2, t)
    ∧ handleLocalChange event filePath c
      = (Return tt, set_timers (timers c ++ [((now c + 500)%N, key)]) c2,
         LedgerAdd key :: t ++ [SetTimeout 500 key])
    ∧ timers c2 = timers c ∧ now c2 = now c ∧ fs c2 = fs c.
Proof.
  intros rel key Hsync Hrel Hkey c1.
  pose proof (localBody_keeps timers event filePath rel key
                ltac:(by intros ? []) ltac:(by intros ? []) c1) as Ht.
  pose proof (localBody_keeps now event filePath rel key
                ltac:(by intros ? []) ltac:(by intros ? []) c1) as Hn.
  pose proof (localBody_keeps fs event filePath rel key
                ltac:(by intros ? []) ltac:(by intros ? []) c1) as Hf.
  pose proof (try_catch_swallow
                (opData ← localSwitch event filePath rel key;
                 match opData with
                 | Some d => emit ToHub (fileOperation d)
                 | None => mret tt
                 end) c1) as Ho.
  fold (localBody event filePath rel key) in Ho.
  unfold handleLocalChange. rewrite bind_get, Hsync.
  apply String.eqb_neq in Hrel. fold rel. rewrite Hrel. fold key.
  rewrite bool_decide_false by done.
  fold (localBody event filePath rel key).
  unfold ledger_add, setTimeout_delete, finally, mbind, M_bind, modify, tell.
  fold c1. unfold outcome_of, state_of in *.
  destruct (localBody event filePath rel key c1) as [[o c2] t]. cbn in *.
  subst o. exists c2, t. split_and!; try done. by rewrite Ht, Hn.
Qed.


(** The timers that are due take their keys out of the ledger; nothing
    else changes in it. *)
Lemma release_keys due c :
  activeOperations (state_of (for_each due (fun x : N * string => ledger_delete x.2) c))
  = activeOperations c ∖ list_to_set (due.*2).
Proof.
  revert c. induction due as [|[t k] due IH]; intros c.
  { cbn. apply set_eq. intros x. rewrite elem_of_difference, elem_of_empty. tauto. }
  cbn [for_each]. unfold mbind, M_bind. unfold ledger_delete at 1.
  unfold mbind, M_bind, modify, tell. cbn [snd].
  set (c1 := set_activeOperations (activeOperations c ∖ {[k]}) c).
  specialize (IH c1). unfold state_of in *.
  destruct (for_each due _ c1) as [[o c2] tr]. cbn in *. rewrite IH.
  apply set_eq. intros x.
  rewrite !elem_of_difference, elem_of_union, elem_of_singleton. tauto.
Qed.

Lemma advance_ledger dt c :
  activeOperations (state_of (advance dt c))
  = activeOperations c
    ∖ list_to_set ((filter (fun x => (x.1 <=? now c + dt)%N = true) (timers c)).*2).
Proof.
  unfold advance. rewrite bind_get. unfold mbind, M_bind, modify.
  set (c1 := set_timers _ _).
  pose proof (release_keys
                (filter (fun x => (x.1 <=? now c + dt)%N = true) (timers c)) c1) as Hr.
  unfold state_of in *.
  destruct (for_each _ _ c1) as [[o c2] tr]. cbn in *. by rewrite Hr.
Qed.

(** X8. The grace window of a local change: the key [handleLocalChange]
    registers for a watcher event is in the ledger as long as less than
    500 ms have passed since the handler returned, and is out of it from
    then on, whatever the [switch] did. *)
Theorem X8_local_change_key_lives_500ms
    (event filePath : string) (c : client) (dt : N) :
  let rel := Path.relative (localDir c) filePath in
  let key := operationKey event rel in
  let c' := state_of (handleLocalChange event filePath c) in
  isInitialSync c = false → rel ≠ EmptyString → key ∉ activeOperations c →
  event ∈ ["add"; "change"; "unlink"; "addDir"; "unlinkDir"] →
  Forall (fun x => x.2 ≠ key) (timers c) →
  (key ∈ activeOperations (state_of (advance dt c')) ↔ (dt < 500)%N).
Proof.
  intros rel key c' Hsync Hrel Hkey Hevent Hpending.
  destruct (handleLocalChange_run event filePath c Hsync Hrel Hkey)
    as (c2 & t & Hbody & Hrun & Ht & Hn & Hf).
  fold rel key in Hbody, Hrun.
  assert (key ∈ activeOperations c2) as Hin.
  { pose proof (f_equal state_of Hbody) as Hs. cbn in Hs. rewrite <- Hs.
    assert (keeps activeOperations (localBody event filePath rel key)) as Hk.
    { unfold localBody, localSwitch, readFile, stat, cache_set, cache_delete, emit.
      repeat (apply elem_of_cons in Hevent as [-> | Hevent]);
        try (by apply elem_of_nil in Hevent);
        cbn [String.eqb Ascii.eqb Bool.eqb orb]; frame; by intros []. }
    rewrite Hk. cbn. apply elem_of_union. left. by apply elem_of_singleton. }
  subst c'. rewrite Hrun. cbn [state_of fst snd].
  rewrite advance_ledger. cbn [activeOperations timers now set_timers].
  rewrite Hn. rewrite filter_app, fmap_app, list_to_set_app_L.
  rewrite elem_of_difference, elem_of_union.
  assert (key ∉ (list_to_set (filter (fun x : N * string => (x.1 <=? now c + dt)%N = true)
                                (timers c)).*2 : gset string)) as Hold.
  { rewrite elem_of_list_to_set. intros Hx.
    apply list_elem_of_fmap in Hx as ([t0 k0] & Hk0 & Hx). cbn in Hk0. subst k0.
    apply list_elem_of_filter in Hx as [_ Hx].
    rewrite Forall_forall in Hpending. by apply (Hpending _ Hx). }
  rewrite filter_cons, filter_nil. cbn [fst].
  destruct (decide ((now c + 500 <=? now c + dt)%N = true)) as [Hdue | Hnot].
  - apply N.leb_le in Hdue. split; [|lia].
    intros [_ Hno]. exfalso. apply Hno. right. cbn. apply elem_of_union. left.
    by apply elem_of_singleton.
  - assert (dt < 500)%N as Hlt.
    { destruct (N.leb_spec (now c + 500) (now c + dt)); [done | lia]. }
    split; [done|]. intros _. split; [done|].
    intros [Hx | Hx]; [done|]. cbn in Hx. by apply elem_of_empty in Hx.
Qed.

(** X9. A deletion the watcher reports ([unlink] or [unlinkDir]): exactly
    one [delete] operation for the relative path goes to the hub, the mode
    cache forgets the path, and the handler makes no filesystem call. *)
Theorem X9_local_delete_is_forwarded (event filePath : string) (c : client) :
  let rel := Path.relative (localDir c) filePath in
  let key := operationKey event rel in
  let r := handleLocalChange event filePath c in
  isInitialSync c = false → rel ≠ EmptyString → key ∉ activeOperations c →
  event = "unlink" ∨ event = "unlinkDir" →
  emitted (trace_of r) = [(ToHub, fileOperation (plain_op "delete" rel))]
  ∧ fs_targets (trace_of r) = []
  ∧ fileModes (state_of r) = delete rel (fileModes c)
  ∧ fs (state_of r) = fs c.
Proof.
  intros rel key r Hsync Hrel Hkey Hevent. subst r.
  destruct (handleLocalChange_run event filePath c Hsync Hrel Hkey)
    as (c2 & t & Hbody & Hrun & Ht & Hn & Hf).
  fold rel key in Hbody, Hrun. rewrite Hrun.
  assert (localBody event filePath rel key
            (set_activeOperations ({[key]} ∪ activeOperations c) c)
          = (Return tt,
             set_fileModes (delete rel (fileModes c))
               (set_activeOperations ({[key]} ∪ activeOperations c) c),
             [Emit ToHub (fileOperation (plain_op "delete" rel))])) as Hb.
  { destruct Hevent as [-> | ->]; reflexivity. }
  rewrite Hb in Hbody. injection Hbody as <- <-. done.
Qed.

(** What [handleLocalChange] sends once it is past its three tests is
    what the body of its [try] sends. *)
Lemma handleLocalChange_emitted event filePath c :
  let rel := Path.relative (localDir c) filePath in
  let key := operationKey event rel in
  isInitialSync c = false → rel ≠ EmptyString → key ∉ activeOperations c →
  emitted (trace_of (handleLocalChange event filePath c))
  = emitted (trace_of (localBody event filePath rel key
                         (set_activeOperations ({[key]} ∪ activeOperations c) c))).
Proof.
  intros rel key Hsync Hrel Hkey.
  destruct (handleLocalChange_run event filePath c Hsync Hrel Hkey)
    as (c2 & t & Hbody & Hrun & _).
  fold rel key in Hbody, Hrun. rewrite Hrun, Hbody. cbn [trace_of snd].
  change (LedgerAdd key :: t ++ [SetTimeout 500 key])
    with ([LedgerAdd key] ++ t ++ [SetTimeout 500 key]).
  rewrite !emitted_app. cbn [emitted omap app]. by rewrite app_nil_r.
Qed.



(** X11. A [chmod] broadcast is applied only when its mode is a number
    other than 0: then [fs.chmod] on the path joined to the local directory
    is the one filesystem call, and the cache takes the mode when the call
    succeeds and stays as it was when it fails. With no mode or mode 0 the
    broadcast falls through to [handleServerChange], which knows no such
    event: no filesystem call, cache unchanged. Nothing is sent either
    way. *)
Theorem X11_chmod_broadcast_is_applied (data : changeData) (c : client) :
  let fullPath := Path.join (localDir c) (ev_path data) in
  let r := on_fileSystemChange data c in
  ev_event data = "chmod" →
  operationKey (ev_event data) (ev_path data) ∉ activeOperations c →
  emitted (trace_of r) = []
  ∧ match ev_mode data with
    | Some mode =>
        if (mode =? 0)%N then
          fs_targets (trace_of r) = [] ∧ fileModes (state_of r) = fileModes c
          ∧ fs (state_of r) = fs c
        else
          fs_targets (trace_of r) = [fullPath]
          ∧ match Fs.chmod (Path.resolve fullPath) mode (fs c) with
            | Fs.Ok tree =>
                fs (state_of r) = tree
                ∧ fileModes (state_of r) = <[ev_path data := mode]> (fileModes c)
            | Fs.Err _ =>
                fs (state_of r) = fs c ∧ fileModes (state_of r) = fileModes c
            end
    | None =>
        fs_targets (trace_of r) = [] ∧ fileModes (state_of r) = fileModes c
        ∧ fs (state_of r) = fs c
    end.
Proof.
  intros fullPath r Hevent Hkey. subst r. unfold on_fileSystemChange.
  rewrite bind_get, bool_decide_false by done.
  unfold chmod_with_mode. rewrite Hevent. cbn [String.eqb Ascii.eqb Bool.eqb].
  assert (∀ c0, emitted (trace_of (handleServerChange data c0)) = []
            ∧ fs_targets (trace_of (handleServerChange data c0)) = []
            ∧ fileModes (state_of (handleServerChange data c0)) = fileModes c0
            ∧ fs (state_of (handleServerChange data c0)) = fs c0) as Hfall.
  { intros c0. unfold handleServerChange. rewrite bind_get.
    unfold serverSwitch. rewrite Hevent. done. }
  destruct (ev_mode data) as [mode|]; [|apply Hfall].
  destruct (mode =? 0)%N eqn:Ez; [apply Hfall|].
  unfold applyChmod. rewrite bind_get. fold fullPath.
  unfold try_catch, chmod, fs_update, cache_set, modify, mbind, M_bind, mret, M_ret.
  cbn [the_fs client_fs].
  destruct (Fs.chmod (Path.resolve fullPath) mode (fs c)); done.
Qed.

End edge_local.

(** X8 at work: a change of [a.txt] at the synced edge, 100 ms later. *)
Lemma X8_local_change_key_lives_500ms_witness :
  "change-a.txt" ∈ FileSystemClient.activeOperations
      (state_of (FileSystemClient.advance 100
         (state_of (FileSystemClient.handleLocalChange (codec:=node_codec)
                      "change" "/home/u/local/a.txt" edge_synced))))
  ↔ (100 < 500)%N.
Proof.
  apply (X8_local_change_key_lives_500ms (codec:=node_codec)
           "change" "/home/u/local/a.txt" edge_synced 100%N).
  - reflexivity.
  - by_evaluation.
  - by_evaluation.
  - by_evaluation.
  - by_evaluation.
Defined.

(** X9 at work: [a.txt] is deleted at the synced edge. *)
Lemma X9_local_delete_is_forwarded_witness :
  let r := FileSystemClient.handleLocalChange (codec:=node_codec)
             "unlink" "/home/u/local/a.txt" edge_synced in
  emitted (trace_of r)
  = [(ToHub, fileOperation (FileSystemClient.plain_op "delete" "a.txt"))]
  ∧ fs_targets (trace_of r) = []
  ∧ FileSystemClient.fileModes (state_of r)
    = delete "a.txt" (FileSystemClient.fileModes edge_synced)
  ∧ FileSystemClient.fs (state_of r) = FileSystemClient.fs edge_synced.
Proof.
  apply (X9_local_delete_is_forwarded (codec:=node_codec)
           "unlink" "/home/u/local/a.txt" edge_synced).
  - reflexivity.
  - by_evaluation.
  - by_evaluation.
  - left. reflexivity.
Defined.


(** X11 at work: the broadcast of mode 0600 for [a.txt] at the synced
    edge. *)
Lemma X11_chmod_broadcast_is_applied_witness :
  let r := FileSystemClient.on_fileSystemChange (codec:=node_codec)
             chmod_a edge_synced in
  emitted (trace_of r) = []
  ∧ fs_targets (trace_of r) = ["/home/u/local/a.txt"]
  ∧ FileSystemClient.fileModes (state_of r)
    = <["a.txt" := 384%N]> (FileSystemClient.fileModes edge_synced).
Proof.
  destruct (X11_chmod_broadcast_is_applied (codec:=node_codec) chmod_a edge_synced)
    as (Hsent & Hcalls & Happlied).
  - reflexivity.
  - by_evaluation.
  - split_and!; [exact Hsent | exact Hcalls | exact (proj2 Happlied)].
Defined.

(** ** The mode cache and the mode poll *)

Section mode_poll.
Import FileSystemClient.

Lemma pollStep_run dir file c :
  pollStep dir file c
  = match Fs.stat (Path.resolve (Path.join dir (e_path file))) (fs c) with
    | Fs.Ok node =>
        if bool_decide (fileModes c !! e_path file = Some (perm_bits node)) then
          (Return tt, c, [FsCall (stat_call (Path.join dir (e_path file)))])
        else
          (Return tt,
           set_fileModes (<[e_path file := perm_bits node]> (fileModes c)) c,
           [FsCall (stat_call (Path.join dir (e_path file)));
            Emit ToHub (fileOperation (chmod_op (e_path file) (perm_bits node)))])
    | Fs.Err _ =>
        (Return tt, c, [FsCall (stat_call (Path.join dir (e_path file)))])
    end.
Proof.
  unfold pollStep, try_catch, stat, fs_query, cache_set, emit, tell, modify, get,
    mbind, M_bind, mret, M_ret. cbn [the_fs client_fs].
  destruct (Fs.stat _ (fs c)) as [node|e]; [|done].
  case_bool_decide; done.
Qed.

Lemma cacheStep_run dir file c :
  cacheStep dir file c
  = match Fs.stat (Path.resolve (Path.join dir (e_path file))) (fs c) with
    | Fs.Ok node =>
        (Return tt,
         set_fileModes (<[e_path file := perm_bits node]> (fileModes c)) c,
         [FsCall (stat_call (Path.join dir (e_path file)))])
    | Fs.Err _ =>
        (Return tt, c, [FsCall (stat_call (Path.join dir (e_path file)))])
    end.
Proof.
  unfold cacheStep, try_catch, stat, fs_query, cache_set, modify,
    mbind, M_bind, mret, M_ret. cbn [the_fs client_fs].
  by destruct (Fs.stat _ (fs c)) as [node|e].
Qed.

(** One step of either loop brings the cache up to date for its item and
    keeps it so for the items before. *)
Lemma step_current (step : string → fsEntry → M client unit) dir seen file c :
  (step = pollStep ∨ step = cacheStep) →
  cache_current dir seen c →
  let c' := state_of (step dir file c) in
  cache_current dir (seen ++ [file]) c' ∧ fs c' = fs c.
Proof.
  intros Hstep Hseen c'. subst c'.
  assert (∀ node, Fs.stat (Path.resolve (Path.join dir (e_path file))) (fs c) = Fs.Ok node →
            cache_current dir (seen ++ [file])
              (set_fileModes (<[e_path file := perm_bits node]> (fileModes c)) c)) as Hset.
  { intros node E f node' Hf Hs. cbn in *.
    destruct (decide (e_path f = e_path file)) as [Heq | Hne].
    - rewrite Heq in *. rewrite E in Hs. injection Hs as <-.
      by rewrite lookup_insert_eq.
    - rewrite lookup_insert_ne by done.
      apply elem_of_app in Hf as [Hf | Hf]; [by apply (Hseen f)|].
      apply list_elem_of_singleton in Hf. by subst. }
  assert (∀ node, Fs.stat (Path.resolve (Path.join dir (e_path file))) (fs c) = Fs.Ok node →
            fileModes c !! e_path file = Some (perm_bits node) →
            cache_current dir (seen ++ [file]) c) as Hkeep.
  { intros node E Hc f node' Hf Hs.
    apply elem_of_app in Hf as [Hf | Hf]; [by apply (Hseen f)|].
    apply list_elem_of_singleton in Hf. subst f. rewrite E in Hs. by injection Hs as <-. }
  assert ((∀ node, Fs.stat (Path.resolve (Path.join dir (e_path file))) (fs c) ≠ Fs.Ok node) →
            cache_current dir (seen ++ [file]) c) as Hmiss.
  { intros Hno f node' Hf Hs.
    apply elem_of_app in Hf as [Hf | Hf]; [by apply (Hseen f)|].
    apply list_elem_of_singleton in Hf. subst f. by apply Hno in Hs. }
  destruct Hstep as [-> | ->]; [rewrite pollStep_run | rewrite cacheStep_run];
    destruct (Fs.stat _ (fs c)) as [node|e] eqn:E; try case_bool_decide; cbn;
    (split; [|done]); eauto.
  all: apply Hmiss; by intros.
Qed.

Lemma loop_current (step : string → fsEntry → M client unit) dir files :
  (step = pollStep ∨ step = cacheStep) →
  ∀ seen c, cache_current dir seen c →
    let c' := state_of (for_each files (step dir) c) in
    cache_current dir (seen ++ files) c' ∧ fs c' = fs c ∧ localDir c' = localDir c.
Proof.
  intros Hstep. induction files as [|f files IH]; intros seen c Hseen.
  { cbn. by rewrite app_nil_r. }
  cbn [for_each]. unfold mbind, M_bind.
  destruct (step_current step dir seen f c Hstep Hseen) as [Hc Hf].
  assert (localDir (state_of (step dir f c)) = localDir c
          ∧ outcome_of (step dir f c) = Return tt) as [Hl Ho].
  { destruct Hstep as [-> | ->]; [rewrite pollStep_run | rewrite cacheStep_run];
      destruct (Fs.stat _ (fs c)); try case_bool_decide; done. }
  unfold state_of, outcome_of in *.
  destruct (step dir f c) as [[o c1] t1]. cbn in *. subst o.
  specialize (IH (seen ++ [f]) c1 Hc).
  destruct (for_each files (step dir) c1) as [[r c2] t2]. cbn in *.
  destruct IH as (IH1 & IH2 & IH3). rewrite <- app_assoc in IH1.
  split_and!; [done | congruence | congruence].
Qed.

(** With the cache up to date the polling loop sends nothing and changes
    nothing. *)
Lemma poll_quiet dir files c :
  cache_current dir files c →
  emitted (trace_of (for_each files (pollStep dir) c)) = []
  ∧ state_of (for_each files (pollStep dir) c) = c.
Proof.
  revert c. induction files as [|f files IH]; intros c Hc; [done|].
  cbn [for_each]. unfold mbind, M_bind. rewrite pollStep_run.
  assert (cache_current dir files c) as Hc'.
  { intros g node Hg. apply Hc. by right. }
  destruct (IH c Hc') as [IH1 IH2]. unfold state_of, trace_of in *.
  destruct (Fs.stat _ (fs c)) as [node|e] eqn:E.
  - rewrite bool_decide_true by (apply (Hc f); [by left | done]).
    destruct (for_each files (pollStep dir) c) as [[r c2] t2]. cbn in *. done.
  - destruct (for_each files (pollStep dir) c) as [[r c2] t2]. cbn in *. done.
Qed.

Lemma modePoll_run c :
  modePoll c
  = let '(r, c', t) :=
      for_each (snapshot (localDir c) (fs c)) (pollStep (localDir c)) c in
    (r, c', FsCall (readdir_call (localDir c)) :: t).
Proof.
  unfold modePoll. unfold mbind at 1. unfold M_bind at 1. rewrite getLocalFiles_run.
  unfold mbind at 1. unfold M_bind at 1. unfold get at 1.
  change (for_each (snapshot (localDir c) (fs c)) _ c)
    with (for_each (snapshot (localDir c) (fs c)) (pollStep (localDir c)) c).
  by destruct (for_each _ _ c) as [[[] c'] t].
Qed.

Lemma cacheFileModes_run c :
  cacheFileModes c
  = let '(r, c', t) :=
      for_each (snapshot (localDir c) (fs c)) (cacheStep (localDir c)) c in
    (r, c', FsCall (readdir_call (localDir c)) :: t).
Proof.
  unfold cacheFileModes. unfold mbind at 1. unfold M_bind at 1. rewrite getLocalFiles_run.
  unfold mbind at 1. unfold M_bind at 1. unfold get at 1.
  change (for_each (snapshot (localDir c) (fs c)) _ c)
    with (for_each (snapshot (localDir c) (fs c)) (cacheStep (localDir c)) c).
  by destruct (for_each _ _ c) as [[[] c'] t].
Qed.

(** The reports of the polling loop: one for every item whose mode on disk
    is not the cached one, and no other. *)
Lemma poll_reports dir files : ∀ c msg,
  msg ∈ emitted (trace_of (for_each files (pollStep dir) c))
  ↔ ∃ f node, f ∈ files
      ∧ Fs.stat (Path.resolve (Path.join dir (e_path f))) (fs c) = Fs.Ok node
      ∧ fileModes c !! e_path f ≠ Some (perm_bits node)
      ∧ msg = (ToHub, fileOperation (chmod_op (e_path f) (perm_bits node))).
Proof.
  induction files as [|g files IH]; intros c msg.
  { cbn. split; [by intros ?%elem_of_nil|]. by intros (f & node & ?%elem_of_nil & _). }
  cbn [for_each]. unfold mbind, M_bind. rewrite pollStep_run.
  destruct (Fs.stat (Path.resolve (Path.join dir (e_path g))) (fs c)) as [gn|ge] eqn:Eg.
  - case_bool_decide as Hcache.
    + specialize (IH c msg). unfold trace_of in *.
      destruct (for_each files (pollStep dir) c) as [[r c2] t2]. cbn in *.
      rewrite IH. split.
      * intros (f & node & Hf & Hs & Hc & ->). exists f, node. split_and!; try done. by right.
      * intros (f & node & Hf & Hs & Hc & ->). exists f, node. split_and!; try done.
        apply elem_of_cons in Hf as [-> | Hf]; [|done].
        rewrite Eg in Hs. injection Hs as <-. done.
    + specialize (IH (set_fileModes (<[e_path g := perm_bits gn]> (fileModes c)) c) msg).
      unfold trace_of in *.
      destruct (for_each files (pollStep dir) _) as [[r c2] t2]. cbn in *.
      rewrite elem_of_cons, IH. split.
      * intros [-> | (f & node & Hf & Hs & Hc & ->)].
        { exists g, gn. split_and!; try done. by left. }
        exists f, node. split_and!; try done; [by right|].
        destruct (decide (e_path f = e_path g)) as [Heq | Hne].
        { rewrite Heq in *. rewrite Eg in Hs. injection Hs as <-.
          by rewrite lookup_insert_eq in Hc. }
        by rewrite lookup_insert_ne in Hc.
      * intros (f & node & Hf & Hs & Hc & ->).
        destruct (decide (e_path f = e_path g)) as [Heq | Hne].
        { left. rewrite Heq in *. rewrite Eg in Hs. by injection Hs as <-. }
        right. exists f, node. split_and!; try done.
        -- apply elem_of_cons in Hf as [-> | Hf]; done.
        -- by rewrite lookup_insert_ne.
  - specialize (IH c msg). unfold trace_of in *.
    destruct (for_each files (pollStep dir) c) as [[r c2] t2]. cbn in *.
    rewrite IH. split.
    * intros (f & node & Hf & Hs & Hc & ->). exists f, node. split_and!; try done. by right.
    * intros (f & node & Hf & Hs & Hc & ->). exists f, node. split_and!; try done.
      apply elem_of_cons in Hf as [-> | Hf]; [|done]. by rewrite Eg in Hs.
Qed.

(** X12. One run of the mode poll reports to the hub exactly the drift:
    a [chmod] operation, with the mode on disk, for every listed item whose
    mode on disk is not the cached one, and nothing else. *)
Theorem X12_mode_poll_reports_exactly_the_drift (c : client) (msg : dest * message) :
  msg ∈ emitted (trace_of (modePoll c))
  ↔ ∃ f node, f ∈ snapshot (localDir c) (fs c)
      ∧ Fs.stat (Path.resolve (Path.join (localDir c) (e_path f))) (fs c) = Fs.Ok node
      ∧ fileModes c !! e_path f ≠ Some (perm_bits node)
      ∧ msg = (ToHub, fileOperation (chmod_op (e_path f) (perm_bits node))).
Proof.
  rewrite modePoll_run. rewrite <- poll_reports. unfold trace_of.
  by destruct (for_each _ _ c) as [[r c'] t].
Qed.

Lemma loop_then_poll_quiet (step : string → fsEntry → M client unit) c :
  (step = pollStep ∨ step = cacheStep) →
  let c1 := state_of (for_each (snapshot (localDir c) (fs c)) (step (localDir c)) c) in
  emitted (trace_of (modePoll c1)) = [] ∧ state_of (modePoll c1) = c1.
Proof.
  intros Hstep c1.
  destruct (loop_current step (localDir c) (snapshot (localDir c) (fs c)) Hstep [] c)
    as (Hcur & Hfs & Hdir).
  { intros f node Hf. by apply elem_of_nil in Hf. }
  fold c1 in Hcur, Hfs, Hdir. cbn [app] in Hcur.
  rewrite modePoll_run, Hfs, Hdir.
  destruct (poll_quiet (localDir c) (snapshot (localDir c) (fs c)) c1 Hcur) as [Hq Hs].
  unfold trace_of, state_of in *.
  destruct (for_each _ (pollStep (localDir c)) c1) as [[r c'] t]. cbn in *. done.
Qed.

Lemma cacheFileModes_emits_nothing c : emitted (trace_of (cacheFileModes c)) = [].
Proof.
  rewrite cacheFileModes_run.
  assert (∀ l s, emitted (trace_of (for_each l (cacheStep (localDir c)) s)) = []) as H.
  { induction l as [|f l IH]; intros s; [done|].
    cbn [for_each]. unfold mbind, M_bind. rewrite cacheStep_run.
    destruct (Fs.stat _ (fs s)) as [n|e].
    - specialize (IH (set_fileModes (<[e_path f := perm_bits n]> (fileModes s)) s)).
      unfold trace_of in *. by destruct (for_each l _ _) as [[r c2] t2].
    - specialize (IH s).
      unfold trace_of in *. by destruct (for_each l _ _) as [[r c2] t2]. }
  specialize (H (snapshot (localDir c) (fs c)) c). unfold trace_of in *.
  by destruct (for_each _ _ c) as [[r c'] t].
Qed.

(** X13. The mode poll is silent once the cache is warm: the warm-up
    [cacheFileModes] sends nothing, and a run of the poll right after the
    warm-up, or right after another run of the poll, sends nothing and
    changes nothing (the disk not being touched in between). *)
Theorem X13_mode_poll_is_silent_once_cached (c : client) :
  emitted (trace_of (cacheFileModes c)) = []
  ∧ (let c1 := state_of (cacheFileModes c) in
     emitted (trace_of (modePoll c1)) = [] ∧ state_of (modePoll c1) = c1)
  ∧ (let c1 := state_of (modePoll c) in
     emitted (trace_of (modePoll c1)) = [] ∧ state_of (modePoll c1) = c1).
Proof.
  split_and!.
  - apply cacheFileModes_emits_nothing.
  - pose proof (loop_then_poll_quiet cacheStep c (or_intror eq_refl)) as H.
    rewrite cacheFileModes_run. unfold state_of in *.
    by destruct (for_each _ (cacheStep _) c) as [[r c'] t].
  - pose proof (loop_then_poll_quiet pollStep c (or_introl eq_refl)) as H.
    rewrite modePoll_run. unfold state_of in *.
    by destruct (for_each _ (pollStep _) c) as [[r c'] t].
Qed.

End mode_poll.

(** ** What the initial sync sends *)

Lemma emitted_bind {S A B} (m : M S A) (k : A → M S B) s :
  emitted (trace_of ((m ≫= k) s))
  = emitted (trace_of (m s))
    ++ match outcome_of (m s) with
       | Return a => emitted (trace_of (k a (state_of (m s))))
       | Throw _ => []
       end.
Proof.
  unfold mbind, M_bind, trace_of, outcome_of, state_of.
  destruct (m s) as [[[a|e] s1] t1]; cbn [fst snd]; [|by rewrite app_nil_r].
  destruct (k a s1) as [[r s2] t2]; cbn [fst snd]. apply emitted_app.
Qed.

Lemma outcome_bind {S A B} (m : M S A) (k : A → M S B) s :
  outcome_of ((m ≫= k) s)
  = match outcome_of (m s) with
    | Return a => outcome_of (k a (state_of (m s)))
    | Throw e => Throw e
    end.
Proof.
  unfold mbind, M_bind, outcome_of, state_of.
  destruct (m s) as [[[a|e] s1] t1]; cbn [fst snd]; [|done].
  by destruct (k a s1) as [[r s2] t2].
Qed.

Lemma state_bind {S A B} (m : M S A) (k : A → M S B) s :
  state_of ((m ≫= k) s)
  = match outcome_of (m s) with
    | Return a => state_of (k a (state_of (m s)))
    | Throw e => state_of (m s)
    end.
Proof.
  unfold mbind, M_bind, outcome_of, state_of.
  destruct (m s) as [[[a|e] s1] t1]; cbn [fst snd]; [|done].
  by destruct (k a s1) as [[r s2] t2].
Qed.

(** What a loop sends: what its rounds send, up to the round that
    throws. *)
Lemma for_each_emitted {S X} (E : X → list (dest * message)) (f : X → M S unit) l s :
  (∀ x s, emitted (trace_of (f x s)) `prefix_of` E x) →
  (∀ x s, outcome_of (f x s) = Return tt → emitted (trace_of (f x s)) = E x) →
    emitted (trace_of (for_each l f s)) `prefix_of` concat (E <$> l)
    ∧ (outcome_of (for_each l f s) = Return tt →
       emitted (trace_of (for_each l f s)) = concat (E <$> l)).
Proof.
  intros Hp He. revert s. induction l as [|x l IH]; intros s.
  { cbn. split; [done|done]. }
  cbn [for_each fmap list_fmap concat]. rewrite emitted_bind, outcome_bind.
  destruct (outcome_of (f x s)) as [[]|e] eqn:Ho.
  - rewrite (He x s Ho). destruct (IH (state_of (f x s))) as [IH1 IH2]. split.
    + by apply prefix_app.
    + intros Hr. by rewrite IH2.
  - rewrite app_nil_r. split; [|done].
    etrans; [apply Hp|]. by apply prefix_app_r.
Qed.

Lemma concat_requests files :
  concat ((fun f => if String.eqb (e_type f) "directory" then []
                    else [(ToHub, requestFileContent (e_path f))]) <$> files)
  = content_requests files.
Proof.
  unfold content_requests. induction files as [|f files IH]; [done|].
  cbn [fmap list_fmap concat]. rewrite IH.
  destruct (String.eqb (e_type f) "directory") eqn:E.
  - by rewrite filter_cons_False by (by rewrite E).
  - by rewrite filter_cons_True by done.
Qed.

Section sync_sends.
Import FileSystemClient.

Lemma syncWithServer_emitted files c :
  emitted (trace_of (syncWithServer files c)) `prefix_of` content_requests files
  ∧ (outcome_of (syncWithServer files c) = Return tt →
     emitted (trace_of (syncWithServer files c)) = content_requests files).
Proof.
  unfold syncWithServer.
  rewrite emitted_bind, outcome_bind, getLocalFiles_run.
  cbn [outcome_of state_of trace_of fst snd emitted omap app].
  rewrite emitted_bind, outcome_bind.
  cbn [get outcome_of state_of trace_of fst snd emitted omap app].
  rewrite emitted_bind, outcome_bind.
  match goal with |- context [for_each ?l ?f c] =>
    destruct (for_each_emitted (fun _ => []) f l c) as [H1 H1']
  end.
  { intros x s. case_bool_decide; [done|].
    unfold ledger_add, ledger_delete, remove, fs_update, modify, tell, mbind, M_bind.
    cbn. destruct (Fs.remove _ _); done. }
  { intros x s _. case_bool_decide; [done|].
    unfold ledger_add, ledger_delete, remove, fs_update, modify, tell, mbind, M_bind.
    cbn. destruct (Fs.remove _ _); done. }
  assert (∀ l : list string, concat ((fun _ => @nil (dest * message)) <$> l) = []) as Hnil.
  { induction l as [|? l IH]; [done|]. cbn. done. }
  rewrite Hnil in H1, H1'. apply prefix_nil_inv in H1. rewrite H1. cbn [app].
  match goal with |- context [outcome_of (for_each ?l ?f c)] =>
    destruct (outcome_of (for_each l f c)) as [[]|e] eqn:Ho1;
    [generalize (state_of (for_each l f c)); intros c1 | split; [apply prefix_nil | done]]
  end.
  rewrite emitted_bind, outcome_bind.
  match goal with |- context [for_each files ?body c1] =>
    destruct (for_each_emitted
      (fun f => if String.eqb (e_type f) "directory" then []
                else [(ToHub, requestFileContent (e_path f))]) body files c1) as [H2 H2']
  end.
  { intros x s. destruct (String.eqb (e_type x) "directory").
    - unfold ledger_add, ledger_delete, ensureDir, fs_update, modify, tell, mbind, M_bind.
      cbn. destruct (Fs.ensureDir _ _); done.
    - done. }
  { intros x s _. destruct (String.eqb (e_type x) "directory").
    - unfold ledger_add, ledger_delete, ensureDir, fs_update, modify, tell, mbind, M_bind.
      cbn. destruct (Fs.ensureDir _ _); done.
    - done. }
  rewrite concat_requests in H2, H2'.
  match goal with |- context [outcome_of (for_each files ?f c1)] =>
    destruct (outcome_of (for_each files f c1)) as [[]|e] eqn:Ho2
  end.
  - rewrite cacheFileModes_emits_nothing, app_nil_r. split; [done| by intros _; apply H2'].
  - rewrite app_nil_r. split; [done|done].
Qed.

(** X14. What the handler of [fileSystemState] sends: content requests
    and nothing else, in the order of the hub's list, for the items that
    are not directories. When it returns it has sent all of them, the
    initial sync is marked as over and the watcher is attached; when it
    throws, the initial sync stays marked as running and no watcher is
    attached by it. *)
Theorem X14_initial_sync_requests_content_of_every_file
    (files : list fsEntry) (c : client) :
  let r := on_fileSystemState files c in
  emitted (trace_of r) `prefix_of` content_requests files
  ∧ match outcome_of r with
    | Return _ =>
        emitted (trace_of r) = content_requests files
        ∧ isInitialSync (state_of r) = false ∧ watcher (state_of r) = true
    | Throw _ =>
        isInitialSync (state_of r) = true ∧ watcher (state_of r) = watcher c
    end.
Proof.
  intros r. subst r. unfold on_fileSystemState, setupWatcher.
  rewrite emitted_bind, outcome_bind, state_bind.
  cbn [modify outcome_of state_of trace_of fst snd emitted omap app].
  rewrite emitted_bind, outcome_bind, state_bind.
  set (c1 := set_isInitialSync true c).
  destruct (syncWithServer_emitted files c1) as [Hp He].
  assert (isInitialSync (state_of (syncWithServer files c1)) = true
          ∧ watcher (state_of (syncWithServer files c1)) = watcher c) as [Hi Hw].
  { assert (keeps isInitialSync (syncWithServer files)) as Hk1.
    { unfold syncWithServer, getLocalFiles, cacheFileModes, ledger_add, ledger_delete,
        cache_set, remove, ensureDir, stat, emit. frame. }
    assert (keeps watcher (syncWithServer files)) as Hk2.
    { unfold syncWithServer, getLocalFiles, cacheFileModes, ledger_add, ledger_delete,
        cache_set, remove, ensureDir, stat, emit. frame. }
    by rewrite (Hk1 c1), (Hk2 c1). }
  destruct (outcome_of (syncWithServer files c1)) as [[]|e].
  - cbn. rewrite app_nil_r. split; [done|]. by split_and!; [apply He|..].
  - rewrite app_nil_r. split; [done|]. by split.
Qed.

End sync_sends.

(** ** Where a change lands on the other side *)

Lemma call_at_targets P t : Forall (call_at P) t → Forall P (fs_targets t).
Proof.
  unfold fs_targets. induction 1 as [|e t He Ht IH]; [constructor|].
  destruct e; simpl; try done. apply Forall_app. split; done.
Qed.

Lemma sends_emitted P t :
  Forall (sends P) t → Forall (fun x => P x.1 x.2) (emitted t).
Proof.
  induction 1 as [|e t He Ht IH]; [constructor|].
  destruct e; simpl; try done. by constructor.
Qed.

Ltac shape solve_call :=
  repeat first
    [ apply trace_all_ret | apply trace_all_throw | apply trace_all_get
    | apply trace_all_modify
    | apply trace_all_tell; solve_call
    | apply trace_all_fs_query; solve_call
    | apply trace_all_fs_update; solve_call
    | apply trace_all_bind; [|intros ?]
    | apply trace_all_try_catch; [|intros ?]
    | apply trace_all_finally
    | apply trace_all_for_each; intros ?
    | match goal with
      | |- trace_all _ (if ?b then _ else _) => destruct b
      | |- trace_all _ (match ?x with _ => _ end) => destruct x eqn:?
      end ].

Ltac at_call :=
  simpl; unfold at_or_parent;
  repeat match goal with
         | |- Forall _ _ => constructor
         | |- True => exact I
         | |- _ ∨ _ => first [by left | by right]
         end.

(** *** Joining to a root and taking the path relative to it *)

Lemma strip_common_app R segs : Path.strip_common R (R ++ segs) = ([], segs).
Proof.
  induction R as [|r R IH]; simpl; [by destruct segs|].
  by rewrite String.eqb_refl.
Qed.

Lemma valid_not_dotdot segs : Forall valid segs → ".." ∉ segs.
Proof.
  intros Hv Hin. rewrite Forall_forall in Hv. by apply Hv in Hin.
Qed.

Lemma filter_proper_valid segs :
  Forall valid segs → filter (fun s => Path.proper s = true) segs = segs.
Proof.
  induction 1 as [|s segs Hs Hv IH]; [done|].
  rewrite filter_cons_True by (by apply valid_proper). by rewrite IH.
Qed.

Lemma resolve_join_render root segs :
  Path.isAbsolute root = true → Forall valid segs →
  Path.resolve (Path.join root (Path.render segs)) = Path.resolve root ++ segs.
Proof.
  intros Habs Hv. destruct segs as [|s segs].
  - rewrite resolve_join_dotdot_free; [done | done |].
    unfold Path.dotdot_free. cbn. by intros ?%list_elem_of_singleton.
  - rewrite resolve_join_dotdot_free; [| done |].
    + rewrite split_render by done. by rewrite filter_proper_valid.
    + unfold Path.dotdot_free. rewrite split_render by done.
      by apply valid_not_dotdot.
Qed.

Lemma relative_join root segs :
  Path.isAbsolute root = true → Forall valid segs →
  Path.relative root (Path.join root (Path.render segs)) = Path.render segs.
Proof.
  intros Habs Hv. unfold Path.relative.
  rewrite resolve_join_render by done. by rewrite strip_common_app.
Qed.

Lemma render_nonempty segs :
  segs ≠ [] → Forall valid segs → Path.render segs ≠ EmptyString.
Proof.
  intros Hne Hv Heq. pose proof (split_render segs Hne Hv) as Hs.
  rewrite Heq in Hs. cbn in Hs. subst segs. by inversion Hv; subst.
Qed.

Section mirror.
Context {codec : BufferCodec}.

(** Where the edge applies a broadcast: at the path of the message joined
    to its root, or at the parent of that. *)
Lemma edge_change_targets data c :
  Forall (at_or_parent (Path.join (FileSystemClient.localDir c) (ev_path data)))
    (fs_targets (trace_of (FileSystemClient.on_fileSystemChange data c))).
Proof.
  apply call_at_targets.
  unfold FileSystemClient.on_fileSystemChange. rewrite bind_get.
  case_bool_decide; [constructor|].
  destruct (FileSystemClient.chmod_with_mode data) as [mode|].
  - unfold FileSystemClient.applyChmod. rewrite bind_get.
    match goal with |- Forall ?Q (trace_of (?m c)) => assert (trace_all Q m) as Hall end;
      [|apply Hall].
    unfold chmod, FileSystemClient.cache_set. shape at_call.
  - unfold FileSystemClient.handleServerChange. rewrite bind_get.
    match goal with |- Forall ?Q (trace_of (?m c)) => assert (trace_all Q m) as Hall end;
      [|apply Hall].
    unfold FileSystemClient.serverSwitch, FileSystemClient.ledger_add,
      FileSystemClient.ledger_delete, FileSystemClient.decode,
      ensureDir, writeFile, remove.
    shape at_call.
Qed.

(** Where the hub applies an operation that is not a rename. *)
Lemma hub_operation_targets sid data h :
  op_newPath data = None →
  Forall (at_or_parent (Path.join (FileSystemServer.watchDir h) (op_path data)))
    (fs_targets (trace_of (FileSystemServer.on_fileOperation sid data h))).
Proof.
  intros Hnew. apply call_at_targets.
  unfold FileSystemServer.on_fileOperation.
  apply trace_try_catch_at; [|intros e; unfold emit; shape at_call].
  unfold FileSystemServer.handleClientOperation. rewrite bind_get. rewrite Hnew.
  match goal with |- Forall ?Q (trace_of (?m h)) => assert (trace_all Q m) as Hall end;
    [|apply Hall].
  unfold FileSystemServer.decode, ensureDir, writeFile, remove, move, chmod, emit.
  shape at_call.
Qed.

(** The operation [localSwitch] hands back is on the relative path and is
    no rename. *)
Lemma localSwitch_returns event filePath rel key c d :
  outcome_of (FileSystemClient.localSwitch event filePath rel key c) = Return (Some d) →
  op_path d = rel ∧ op_newPath d = None.
Proof.
  unfold FileSystemClient.localSwitch.
  repeat match goal with
         | |- context [if ?b then _ else _] => destruct b
         end; intros H;
  repeat (apply bind_return_inv in H as (? & ? & ? & _ & H & _));
  cbn in H; by simplify_eq.
Qed.

Lemma trace_all_bind_ret {S A B} Q (R : A → Prop) (m : M S A) (k : A → M S B) :
  trace_all Q m → (∀ s a, outcome_of (m s) = Return a → R a) →
  (∀ a, R a → trace_all Q (k a)) → trace_all Q (m ≫= k).
Proof.
  intros Hm Hr Hk s. specialize (Hm s). specialize (Hr s).
  unfold mbind, M_bind, trace_of, outcome_of in *.
  destruct (m s) as [[[a|e] s1] t1]; simpl in *; [|done].
  specialize (Hk a (Hr a eq_refl) s1). unfold trace_of in Hk.
  destruct (k a s1) as [[r s2] t2]; simpl in *. by apply Forall_app.
Qed.

(** What the edge sends for a change of its own: operations on the path
    of the change relative to its root, none of them a rename. *)
Lemma edge_sends_relative event filePath c :
  Forall (sends (fun to m =>
            to = ToHub ∧ ∃ op, m = fileOperation op
              ∧ op_path op = Path.relative (FileSystemClient.localDir c) filePath
              ∧ op_newPath op = None))
    (trace_of (FileSystemClient.handleLocalChange event filePath c)).
Proof.
  unfold FileSystemClient.handleLocalChange. rewrite bind_get.
  destruct (FileSystemClient.isInitialSync c); [constructor|].
  destruct (String.eqb _ EmptyString); [constructor|].
  case_bool_decide; [constructor|].
  match goal with |- Forall ?Q (trace_of (?m c)) => assert (trace_all Q m) as Hall end;
    [|apply Hall].
  apply trace_all_bind;
    [unfold FileSystemClient.ledger_add; shape ltac:(exact I)|intros _].
  apply trace_all_finally;
    [|unfold FileSystemClient.setTimeout_delete; shape ltac:(exact I)].
  apply trace_all_try_catch; [|intros ?; apply trace_all_ret].
  eapply trace_all_bind_ret.
  - unfold FileSystemClient.localSwitch, FileSystemClient.ledger_delete,
      FileSystemClient.cache_set, FileSystemClient.cache_delete, readFile, stat, emit.
    shape ltac:(first [exact I | simpl; split; [done|]; eexists; by split_and!]).
  - intros s a Ha. exact (fun d Hd => localSwitch_returns _ _ _ _ s d (eq_trans Ha (f_equal _ Hd))).
  - intros [d|] Hd; [|apply trace_all_ret].
    apply trace_all_tell. simpl. split; [done|]. exists d. split; [done|].
    by apply Hd.
Qed.

End mirror.

Section mirror_theorems.
Context {codec : BufferCodec}.

(** X15. A change the hub's watcher reports for the entry [segs] below the
    hub's root is broadcast with the root-relative path of the entry, and
    an edge that applies the broadcast touches the entry [segs] below its
    own root, or the parent directory of that entry, and nothing else. *)
Theorem X15_hub_change_lands_at_same_relative_path
    (event : string) (segs : list string)
    (h : FileSystemServer.server) (c : FileSystemClient.client) :
  Path.isAbsolute (FileSystemServer.watchDir h) = true →
  Path.isAbsolute (FileSystemClient.localDir c) = true →
  Forall valid segs →
  ∃ d,
    emitted (trace_of (FileSystemServer.handleFileChange event
               (Path.join (FileSystemServer.watchDir h) (Path.render segs)) h))
    = [(ToAll, fileSystemChange d)]
    ∧ ev_path d = Path.render segs
    ∧ Path.resolve (Path.join (FileSystemClient.localDir c) (ev_path d))
      = Path.resolve (FileSystemClient.localDir c) ++ segs
    ∧ Forall (at_or_parent (Path.join (FileSystemClient.localDir c) (Path.render segs)))
        (fs_targets (trace_of (FileSystemClient.on_fileSystemChange d c))).
Proof.
  intros Hh Hc Hv.
  destruct (handleFileChange_broadcast event
              (Path.join (FileSystemServer.watchDir h) (Path.render segs)) h)
    as (_ & d & Hsent & _ & Hpath & _).
  rewrite relative_join in Hpath by done.
  exists d. split_and!; [done | done | |].
  - rewrite Hpath. by apply resolve_join_render.
  - rewrite <- Hpath. apply edge_change_targets.
Qed.

(** X16. Every message an edge sends for a change its watcher reports for
    the entry [segs] below its root is an operation on the root-relative
    path of the entry, and the hub that applies the operation touches the
    entry [segs] below its own root, or the parent directory of that
    entry, and nothing else. *)
Theorem X16_edge_change_lands_at_same_relative_path
    (event sid : string) (segs : list string)
    (c : FileSystemClient.client) (h : FileSystemServer.server) :
  Path.isAbsolute (FileSystemClient.localDir c) = true →
  Path.isAbsolute (FileSystemServer.watchDir h) = true →
  Forall valid segs →
  Forall (fun sent =>
            sent.1 = ToHub
            ∧ ∃ op, sent.2 = fileOperation op
                ∧ op_path op = Path.render segs
                ∧ Path.resolve (Path.join (FileSystemServer.watchDir h) (op_path op))
                  = Path.resolve (FileSystemServer.watchDir h) ++ segs
                ∧ Forall (at_or_parent
                            (Path.join (FileSystemServer.watchDir h) (Path.render segs)))
                    (fs_targets (trace_of (FileSystemServer.on_fileOperation sid op h))))
    (emitted (trace_of (FileSystemClient.handleLocalChange event
                (Path.join (FileSystemClient.localDir c) (Path.render segs)) c))).
Proof.
  intros Hc Hh Hv.
  pose proof (sends_emitted _ _
    (edge_sends_relative event
       (Path.join (FileSystemClient.localDir c) (Path.render segs)) c)) as Hs.
  eapply Forall_impl; [exact Hs|]. cbn beta.
  intros [to m] (Hto & op & Hm & Hp & Hn). rewrite relative_join in Hp by done.
  split; [done|]. exists op. split_and!; [done | done | |].
  - rewrite Hp. by apply resolve_join_render.
  - rewrite <- Hp. by apply hub_operation_targets.
Qed.

End mirror_theorems.

(** X15 at work: [docs/inner.txt] is added at the hub. *)
Lemma X15_hub_change_lands_at_same_relative_path_witness :
  ∃ d,
    emitted (trace_of (FileSystemServer.handleFileChange (codec:=node_codec) "add"
               (Path.join "/srv/shared" (Path.render ["docs"; "inner.txt"])) hub))
    = [(ToAll, fileSystemChange d)]
    ∧ ev_path d = "docs/inner.txt"
    ∧ Path.resolve (Path.join "/home/u/local" (ev_path d))
      = ["home"; "u"; "local"; "docs"; "inner.txt"]
    ∧ Forall (at_or_parent (Path.join "/home/u/local" (Path.render ["docs"; "inner.txt"])))
        (fs_targets (trace_of (FileSystemClient.on_fileSystemChange
                                 (codec:=node_codec) d edge_steady))).
Proof.
  apply (X15_hub_change_lands_at_same_relative_path (codec:=node_codec)
           "add" ["docs"; "inner.txt"] hub edge_steady).
  - reflexivity.
  - reflexivity.
  - repeat constructor.
Defined.

(** X16 at work: [a.txt] is changed at the synced edge. *)
Lemma X16_edge_change_lands_at_same_relative_path_witness :
  Forall (fun sent =>
            sent.1 = ToHub
            ∧ ∃ op, sent.2 = fileOperation op
                ∧ op_path op = "a.txt"
                ∧ Path.resolve (Path.join "/srv/shared" (op_path op))
                  = ["srv"; "shared"; "a.txt"]
                ∧ Forall (at_or_parent (Path.join "/srv/shared" (Path.render ["a.txt"])))
                    (fs_targets (trace_of (FileSystemServer.on_fileOperation
                                             (codec:=node_codec) "s1" op hub))))
    (emitted (trace_of (FileSystemClient.handleLocalChange (codec:=node_codec) "change"
                (Path.join "/home/u/local" (Path.render ["a.txt"])) edge_synced))).
Proof.
  apply (X16_edge_change_lands_at_same_relative_path (codec:=node_codec)
           "change" "s1" ["a.txt"] edge_synced hub).
  - reflexivity.
  - reflexivity.
  - repeat constructor.
Defined.

(** ** The initial sync and the content replies stay inside *)

(** *** The filesystem calls keep a tree well-formed *)

Lemma wf_entries_intro es :
  Forall (fun x => Fs.wf x.2 = true) es →
  (fix wf_entries (es : list (string * Fs.node)) : bool :=
     match es with
     | [] => true
     | (_, c) :: es' => Fs.wf c && wf_entries es'
     end) es = true.
Proof.
  induction 1 as [|[name c] es Hc Hes IH]; [done|].
  apply andb_true_iff. split; done.
Qed.

Lemma wf_Dir_intro m es :
  Forall valid (es.*1) → NoDup (es.*1) → Forall (fun x => Fs.wf x.2 = true) es →
  Fs.wf (Fs.Dir m es) = true.
Proof.
  intros Hv Hnd Hwf. simpl. rewrite !andb_true_iff. split_and!.
  - apply forallb_forall. intros x Hx. rewrite Forall_forall in Hv.
    apply Hv. by apply list_elem_of_In.
  - by apply bool_decide_eq_true.
  - by apply wf_entries_intro.
Qed.

Lemma del_entry_sub name es x : x ∈ Fs.del_entry name es → x ∈ es.
Proof.
  induction es as [|[n c] es IH]; simpl; [done|].
  destruct (String.eqb n name).
  - intros Hx. by right.
  - intros [-> | Hx]%elem_of_cons; [by left | right; by apply IH].
Qed.

Lemma del_entry_names name es : (Fs.del_entry name es).*1 `sublist_of` es.*1.
Proof.
  induction es as [|[n c] es IH]; simpl; [done|].
  destruct (String.eqb n name); simpl.
  - by apply sublist_cons.
  - by apply sublist_skip.
Qed.

Lemma set_entry_elem name c es x :
  x ∈ Fs.set_entry name c es → x ∈ es ∨ x = (name, c).
Proof.
  induction es as [|[n c0] es IH]; simpl.
  - intros ->%list_elem_of_singleton. by right.
  - destruct (String.eqb n name) eqn:E.
    + apply String.eqb_eq in E as ->.
      intros [-> | Hx]%elem_of_cons; [by right | left; by right].
    + intros [-> | Hx]%elem_of_cons; [left; by left|].
      destruct (IH Hx) as [? | ?]; [left; by right | by right].
Qed.

Lemma set_entry_names_there name c c0 es :
  Fs.assoc name es = Some c0 → (Fs.set_entry name c es).*1 = es.*1.
Proof.
  induction es as [|[n c1] es IH]; simpl; [done|].
  destruct (String.eqb n name) eqn:E; [done|].
  intros H. cbn. f_equal. by apply IH.
Qed.

Lemma set_entry_names_new name c es :
  Fs.assoc name es = None → (Fs.set_entry name c es).*1 = es.*1 ++ [name].
Proof.
  induction es as [|[n c1] es IH]; simpl; [done|].
  destruct (String.eqb n name) eqn:E; [done|].
  intros H. cbn. f_equal. by apply IH.
Qed.

Lemma assoc_None_names name es : Fs.assoc name es = None → name ∉ es.*1.
Proof.
  induction es as [|[n c1] es IH]; simpl; [by intros _ ?%elem_of_nil|].
  destruct (String.eqb n name) eqn:E; [done|].
  apply String.eqb_neq in E. intros H [-> | Hin]%elem_of_cons; [done|].
  by apply IH.
Qed.

Lemma wf_set_entry m name c es :
  valid name → Fs.wf (Fs.Dir m es) = true → Fs.wf c = true →
  Fs.wf (Fs.Dir m (Fs.set_entry name c es)) = true.
Proof.
  intros Hname Hwf Hc. apply wf_Dir_inv in Hwf as (Hv & Hnd & Hwfs).
  assert (Forall (fun x => Fs.wf x.2 = true) (Fs.set_entry name c es)) as Hnew.
  { apply Forall_forall. intros x [Hx | ->]%set_entry_elem; [|done].
    rewrite Forall_forall in Hwfs. by apply Hwfs. }
  destruct (Fs.assoc name es) as [c0|] eqn:E.
  - apply wf_Dir_intro; [| |done]; by rewrite (set_entry_names_there _ _ c0).
  - apply wf_Dir_intro; [| |done]; rewrite set_entry_names_new by done.
    + apply Forall_app. split; [done | by constructor].
    + apply NoDup_app. split_and!; [done | | apply NoDup_singleton].
      intros x Hx ->%list_elem_of_singleton. by apply assoc_None_names in E.
Qed.

Lemma assoc_valid m name es c :
  Fs.wf (Fs.Dir m es) = true → Fs.assoc name es = Some c → valid name ∧ Fs.wf c = true.
Proof.
  intros Hwf E. apply wf_Dir_inv in Hwf as (Hv & _ & Hwfs).
  rewrite Forall_forall in Hv. rewrite Forall_forall in Hwfs. split.
  - apply Hv. by apply assoc_names in E.
  - by apply assoc_elem, Hwfs in E.
Qed.

Lemma remove_wf k : ∀ n n',
  Fs.wf n = true → Fs.remove k n = Fs.Ok n' → Fs.wf n' = true.
Proof.
  induction k as [|name k IH]; intros n n' Hwf Hr.
  { destruct n; done. }
  destruct n as [|m es|]; [done| |done]. cbn [Fs.remove] in Hr.
  destruct k as [|name2 k].
  - injection Hr as <-. apply wf_Dir_inv in Hwf as (Hv & Hnd & Hwfs).
    apply wf_Dir_intro.
    + apply Forall_forall. intros x Hx. rewrite Forall_forall in Hv. apply Hv.
      eapply elem_of_sublist; [exact Hx | apply del_entry_names].
    + eapply sublist_NoDup; [done | apply del_entry_names].
    + apply Forall_forall. intros x Hx%del_entry_sub.
      rewrite Forall_forall in Hwfs. by apply Hwfs.
  - destruct (Fs.assoc name es) as [c|] eqn:E; [|by injection Hr as <-].
    destruct (assoc_valid _ _ _ _ Hwf E) as [Hname Hc].
    destruct (Fs.remove (name2 :: k) c) as [c'|] eqn:Ec; [|done].
    cbn in Hr. injection Hr as <-.
    apply wf_set_entry; [done | done | by apply (IH c)].
Qed.

Lemma ensureDir_wf k : ∀ n n',
  Forall valid k → Fs.wf n = true → Fs.ensureDir k n = Fs.Ok n' → Fs.wf n' = true.
Proof.
  induction k as [|name k IH]; intros n n' Hk Hwf Hr.
  { destruct n; cbn in Hr; by simplify_eq. }
  destruct n as [|m es|]; [done| |done]. cbn [Fs.ensureDir] in Hr.
  inversion Hk as [|? ? Hname Hk']; subst.
  destruct (Fs.ensureDir k _) as [c'|] eqn:Ec; [|done].
  cbn in Hr. injection Hr as <-.
  apply wf_set_entry; [done | done |].
  apply (IH _ c' Hk') in Ec; [done|].
  destruct (Fs.assoc name es) as [c|] eqn:E; [|done].
  by destruct (assoc_valid _ _ _ _ Hwf E).
Qed.

Lemma resolve_valid p : Forall valid (Path.resolve p).
Proof.
  pose proof (resolve_clean p) as Hc. pose proof (resolve_slash_free p) as Hs.
  rewrite Forall_forall in Hc. rewrite Forall_forall in Hs.
  apply Forall_forall. intros x Hx.
  specialize (Hc x Hx). specialize (Hs x Hx).
  unfold valid, Fs.valid_name, Path.proper, Path.slash_free in *.
  apply andb_true_iff in Hc as [Hc1 Hc3]. apply andb_true_iff in Hc1 as [Hc1 Hc2].
  rewrite Hc1, Hc2, Hc3. cbn. apply forallb_forall. intros a Ha.
  rewrite Forall_forall in Hs. apply list_elem_of_In, Hs in Ha.
  apply negb_true_iff. by apply Ascii.eqb_neq.
Qed.

Section maintains_facts.
Context {S : Type} (I : S → Prop) (Q : effect → Prop).

Lemma maintains_ret {A} (a : A) : maintains I Q (mret a).
Proof. intros s Hs. split; [constructor | done]. Qed.

Lemma maintains_tell e : Q e → maintains I Q (tell e).
Proof. intros He s Hs. split; [by repeat constructor | done]. Qed.

Lemma maintains_modify f : (∀ s, I s → I (f s)) → maintains I Q (modify f).
Proof. intros Hf s Hs. split; [constructor | by apply Hf]. Qed.

Lemma maintains_bind {A B} (m : M S A) (k : A → M S B) :
  maintains I Q m → (∀ a, maintains I Q (k a)) → maintains I Q (m ≫= k).
Proof.
  intros Hm Hk s Hs. destruct (Hm s Hs) as [Ht Hi].
  unfold mbind, M_bind, trace_of, state_of in *.
  destruct (m s) as [[[a|e] s1] t1]; simpl in *; [|done].
  destruct (Hk a s1 Hi) as [Ht2 Hi2]. unfold trace_of, state_of in *.
  destruct (k a s1) as [[r s2] t2]; simpl in *. split; [by apply Forall_app | done].
Qed.

Lemma maintains_try_catch {A} (m : M S A) h :
  maintains I Q m → (∀ e, maintains I Q (h e)) → maintains I Q (try_catch m h).
Proof.
  intros Hm Hh s Hs. destruct (Hm s Hs) as [Ht Hi].
  unfold try_catch, trace_of, state_of in *.
  destruct (m s) as [[[a|e] s1] t1]; simpl in *; [done|].
  destruct (Hh e s1 Hi) as [Ht2 Hi2]. unfold trace_of, state_of in *.
  destruct (h e s1) as [[r s2] t2]; simpl in *. split; [by apply Forall_app | done].
Qed.

Lemma maintains_for_each {X} (l : list X) (f : X → M S unit) :
  (∀ x, x ∈ l → maintains I Q (f x)) → maintains I Q (for_each l f).
Proof.
  induction l as [|x l IH]; intros Hf; [apply maintains_ret|].
  cbn [for_each]. apply maintains_bind; [apply Hf; by left|].
  intros _. apply IH. intros y Hy. apply Hf. by right.
Qed.

Context `{HasFs S}.

Lemma maintains_fs_update c p f :
  Q (FsCall c) → (∀ s n, I s → f (the_fs s) = Fs.Ok n → I (with_fs n s)) →
  maintains I Q (fs_update c p f).
Proof.
  intros Hc Hf s Hs. specialize (Hf s). unfold fs_update, trace_of, state_of.
  destruct (f (the_fs s)) as [n|e]; simpl; (split; [by repeat constructor|]);
    [by apply Hf | done].
Qed.

Lemma maintains_fs_query {A} c p (f : Fs.node → Fs.result A) :
  Q (FsCall c) → maintains I Q (fs_query c p f).
Proof.
  intros Hc s Hs. unfold fs_query, trace_of, state_of.
  destruct (f (the_fs s)); simpl; (split; [by repeat constructor | done]).
Qed.

End maintains_facts.

Lemma snapshot_dotdot_free root tree e :
  Fs.wf tree = true → e ∈ snapshot root tree → Path.dotdot_free (e_path e).
Proof.
  intros Hwf He. destruct (snapshot_ok root tree Hwf) as (HA & _ & _).
  destruct (HA e He) as (rest & Hne & Hv & Hp). cbn [app] in Hp.
  unfold Path.dotdot_free. rewrite Hp.
  rewrite split_render by (done || by apply visible_valid).
  by apply valid_not_dotdot, visible_valid.
Qed.

Lemma inside_refl root : Path.inside root root.
Proof. by unfold Path.inside. Qed.

Section sync_inside.
Context {codec : BufferCodec}.
Import FileSystemClient.

Lemma cacheFileModes_inside root :
  Path.isAbsolute root = true →
  maintains (rooted root) (call_inside root) cacheFileModes.
Proof.
  intros Habs c [Hwf Hroot]. rewrite cacheFileModes_run.
  destruct (maintains_for_each (rooted root) (call_inside root)
              (snapshot (localDir c) (fs c)) (cacheStep (localDir c))) with (s:=c)
    as [Ht Hi].
  - intros f Hf. apply maintains_try_catch; [|intros ?; apply maintains_ret].
    apply maintains_bind.
    + apply maintains_fs_query. simpl. repeat constructor. rewrite Hroot.
      apply inside_join; [done|]. by apply (snapshot_dotdot_free (localDir c) (fs c)).
    + intros st. apply maintains_modify. by intros s [? ?].
  - by split.
  - unfold trace_of, state_of in *.
    destruct (for_each _ _ c) as [[r c'] t]; cbn in *.
    split; [|done]. constructor; [|done]. simpl. repeat constructor.
    rewrite Hroot. apply inside_refl.
Qed.

Lemma syncWithServer_run files c :
  syncWithServer files c
  = let '(r, c', t) := syncBody (localDir c) (snapshot (localDir c) (fs c)) files c in
    (r, c', FsCall (readdir_call (localDir c)) :: t).
Proof.
  unfold syncWithServer. unfold mbind at 1. unfold M_bind at 1.
  rewrite getLocalFiles_run.
  unfold mbind at 1. unfold M_bind at 1. unfold get at 1.
  fold (syncBody (localDir c) (snapshot (localDir c) (fs c)) files).
  by destruct (syncBody _ _ _ c) as [[[] c'] t].
Qed.

Lemma syncWithServer_inside root files :
  Path.isAbsolute root = true →
  Forall (fun f => Path.dotdot_free (e_path f)) files →
  maintains (rooted root) (call_inside root) (syncWithServer files).
Proof.
  intros Habs Hfiles c [Hwf Hroot]. rewrite syncWithServer_run.
  assert (maintains (rooted root) (call_inside root)
            (syncBody (localDir c) (snapshot (localDir c) (fs c)) files)) as Hall.
  { unfold syncBody.
    apply maintains_bind; [|intros _; apply maintains_bind;
                             [|intros _; by apply cacheFileModes_inside]].
    - apply maintains_for_each. intros p Hp.
      apply to_set_elem in Hp as [Hp _].
      apply list_elem_of_fmap in Hp as (e & -> & He).
      case_bool_decide; [apply maintains_ret|].
      unfold ledger_add, ledger_delete, remove.
      repeat first
        [ apply maintains_bind; [|intros ?]
        | apply maintains_modify; intros ? [? ?]; by split
        | apply maintains_tell; exact I ].
      apply maintains_fs_update.
      + simpl. repeat constructor. rewrite Hroot. apply inside_join; [done|].
        by apply (snapshot_dotdot_free (localDir c) (fs c)).
      + intros s n [Hs Hr] Hn. split; [|done]. cbn. by apply remove_wf in Hn.
    - apply maintains_for_each. intros f Hf.
      rewrite Forall_forall in Hfiles. specialize (Hfiles f Hf).
      unfold ledger_add, ledger_delete, ensureDir, emit.
      destruct (String.eqb (e_type f) "directory");
      repeat first
        [ apply maintains_bind; [|intros ?]
        | apply maintains_modify; intros ? [? ?]; by split
        | apply maintains_tell; exact I
        | apply maintains_ret ].
      apply maintains_fs_update.
      + simpl. repeat constructor. rewrite Hroot. by apply inside_join.
      + intros s n [Hs Hr] Hn. split; [|done]. cbn.
        apply ensureDir_wf in Hn; [done | apply resolve_valid | done]. }
  destruct (Hall c) as [Ht Hi]; [by split|].
  unfold trace_of, state_of in *.
  destruct (syncBody _ _ _ c) as [[r c'] t]; cbn in *.
  split; [|done]. constructor; [|done]. simpl. repeat constructor.
  rewrite Hroot. apply inside_refl.
Qed.

(** X17. The initial sync stays inside the local directory and keeps the
    tree well-formed: when no path of the hub's list has a [..] segment,
    every filesystem call of the handler of [fileSystemState] is on the
    local directory or on a path below it. *)
Theorem X17_initial_sync_stays_inside_local_directory
    (files : list fsEntry) (c : client) :
  Path.isAbsolute (localDir c) = true →
  Fs.wf (fs c) = true →
  Forall (fun f => Path.dotdot_free (e_path f)) files →
  targets_inside (localDir c) (trace_of (on_fileSystemState files c))
  ∧ Fs.wf (fs (state_of (on_fileSystemState files c))) = true.
Proof.
  intros Habs Hwf Hfiles.
  assert (maintains (rooted (localDir c)) (call_inside (localDir c))
            (on_fileSystemState files)) as Hall.
  { unfold on_fileSystemState, setupWatcher.
    repeat first
      [ by apply syncWithServer_inside
      | apply maintains_modify; intros ? [? ?]; by split
      | apply maintains_bind; [|intros ?] ]. }
  destruct (Hall c) as [Ht [Hi _]]; [by split|].
  split; [by apply call_inside_targets | done].
Qed.

(** X18. A content reply stays inside the local directory: when its path
    has no [..] segment and names an entry, every filesystem call of the
    handler of [fileContent] is on a path at or below the local
    directory. *)
Theorem X18_content_reply_stays_inside_local_directory
    (p content : string) (encoding : option string) (c : client) :
  Path.isAbsolute (localDir c) = true →
  Path.dotdot_free p → Path.names_entry p →
  targets_inside (localDir c) (trace_of (on_fileContent p content encoding c)).
Proof.
  intros Habs Hdd Hne. apply call_inside_targets.
  unfold on_fileContent. rewrite bind_get.
  match goal with |- Forall ?Q (trace_of (?m c)) => assert (trace_all Q m) as Hall end;
    [|apply Hall].
  unfold ledger_add, ledger_delete, decode, ensureDir, writeFile.
  confine.
Qed.

End sync_inside.

(** X17 at work: the fresh edge handles the hub's list. *)
Lemma X17_initial_sync_stays_inside_local_directory_witness :
  targets_inside "/home/u/local"
    (trace_of (FileSystemClient.on_fileSystemState hub_snapshot edge0))
  ∧ Fs.wf (FileSystemClient.fs
             (state_of (FileSystemClient.on_fileSystemState hub_snapshot edge0))) = true.
Proof.
  apply (X17_initial_sync_stays_inside_local_directory hub_snapshot edge0).
  - reflexivity.
  - vm_compute. reflexivity.
  - by_evaluation.
Defined.

(** X18 at work: the content of [a.txt] arrives at the steady edge. *)
Lemma X18_content_reply_stays_inside_local_directory_witness :
  targets_inside "/home/u/local"
    (trace_of (FileSystemClient.on_fileContent (codec:=node_codec)
                 "a.txt" "aGVsbG8=" (Some "base64") edge_steady)).
Proof.
  apply (X18_content_reply_stays_inside_local_directory (codec:=node_codec)
           "a.txt" "aGVsbG8=" (Some "base64") edge_steady).
  - reflexivity.
  - by_evaluation.
  - by_evaluation.
Defined.

(** ** The hub serves what it was given *)

Lemma assoc_set_entry name c es : Fs.assoc name (Fs.set_entry name c es) = Some c.
Proof.
  induction es as [|[n c0] es IH]; simpl.
  - by rewrite String.eqb_refl.
  - destruct (String.eqb n name) eqn:E; simpl; by rewrite E.
Qed.


Section round_trip.
Context {codec : BufferCodec}.


End round_trip.


(** ** A file's content reaches the other side *)

Section replication.
Context {codec : BufferCodec}.



End replication.


Section replication_up.
Context {codec : BufferCodec}.



End replication_up.


(** ** Deletions and new directories reach the other side *)



(** After [ensureDir] succeeded, a directory is at the path. *)
Lemma ensureDir_dir k : ∀ n n',
  Fs.ensureDir k n = Fs.Ok n' → ∃ m es, Fs.stat k n' = Fs.Ok (Fs.Dir m es).
Proof.
  induction k as [|name k IH]; intros n n' He.
  { destruct n as [|m es|]; cbn in He; simplify_eq. by exists m, es. }
  destruct n as [|m es|]; [done| |done]. cbn [Fs.ensureDir] in He.
  destruct (Fs.ensureDir k _) as [c'|] eqn:Ec; [|done].
  cbn in He. injection He as <-. cbn [Fs.stat]. rewrite assoc_set_entry.
  by eapply IH.
Qed.


Section other_changes.
Context {codec : BufferCodec}.


(** What the edge's tree is after a broadcast of a new directory. *)
Lemma edge_apply_mkdir data c :
  let fullPath := Path.join (FileSystemClient.localDir c) (ev_path data) in
  ev_event data = "addDir" →
  FileSystemClient.operationKey (ev_event data) (ev_path data)
    ∉ FileSystemClient.activeOperations c →
  FileSystemClient.fs (state_of (FileSystemClient.on_fileSystemChange data c))
  = match Fs.ensureDir (Path.resolve fullPath) (FileSystemClient.fs c) with
    | Fs.Ok n => n
    | Fs.Err _ => FileSystemClient.fs c
    end.
Proof.
  intros fullPath Hev Hkey.
  unfold FileSystemClient.on_fileSystemChange. rewrite bind_get.
  rewrite bool_decide_false by done.
  assert (FileSystemClient.chmod_with_mode data = None) as ->.
  { unfold FileSystemClient.chmod_with_mode. by rewrite Hev. }
  unfold FileSystemClient.handleServerChange. rewrite bind_get. fold fullPath.
  unfold FileSystemClient.serverSwitch. rewrite Hev.
  unfold FileSystemClient.ledger_add, FileSystemClient.ledger_delete, finally, try_catch,
    ensureDir, fs_update, modify, tell, mbind, M_bind, mret, M_ret, state_of.
  cbn [the_fs with_fs FileSystemClient.client_fs FileSystemClient.fs
       FileSystemClient.set_activeOperations FileSystemClient.set_fs
       String.eqb Ascii.eqb Bool.eqb orb].
  destruct (Fs.ensureDir _ _); done.
Qed.


(** X24. A new directory of the hub is replicated to the edge: when the
    hub's watcher reports [addDir] for the entry [segs] below the hub's
    root, an edge that handles the broadcast, and whose [fs.ensureDir]
    succeeds, has afterwards a directory at [segs] below its own root. *)
Theorem X24_hub_directory_is_replicated_to_the_edge
    (segs : list string)
    (h : FileSystemServer.server) (c : FileSystemClient.client) (n1 : Fs.node) :
  Path.isAbsolute (FileSystemServer.watchDir h) = true →
  Path.isAbsolute (FileSystemClient.localDir c) = true →
  Forall valid segs →
  FileSystemClient.operationKey "addDir" (Path.render segs)
    ∉ FileSystemClient.activeOperations c →
  Fs.ensureDir (Path.resolve (FileSystemClient.localDir c) ++ segs)
    (FileSystemClient.fs c) = Fs.Ok n1 →
  ∃ d,
    emitted (trace_of (FileSystemServer.handleFileChange "addDir"
               (Path.join (FileSystemServer.watchDir h) (Path.render segs)) h))
    = [(ToAll, fileSystemChange d)]
    ∧ let c' := state_of (FileSystemClient.on_fileSystemChange d c) in
      FileSystemClient.fs c' = n1
      ∧ ∃ m es, Fs.stat (Path.resolve (FileSystemClient.localDir c) ++ segs)
                  (FileSystemClient.fs c') = Fs.Ok (Fs.Dir m es).
Proof.
  intros Hh Hc Hv Hkey He.
  destruct (handleFileChange_broadcast "addDir"
              (Path.join (FileSystemServer.watchDir h) (Path.render segs)) h)
    as (_ & d & Hsent & Hevent & Hpath & _).
  rewrite relative_join in Hpath by done.
  exists d. split; [done|]. cbn zeta.
  rewrite edge_apply_mkdir; [| done | by rewrite Hevent, Hpath].
  rewrite Hpath, resolve_join_render by done. rewrite He.
  split; [done|]. by eapply ensureDir_dir.
Qed.

End other_changes.


Lemma chmod_missing k mode : ∀ n,
  Fs.pathExists k n = false → ∃ e, Fs.chmod k mode n = Fs.Err e.
Proof.
  unfold Fs.pathExists. induction k as [|name k IH]; intros n Hn; [done|].
  cbn [Fs.chmod Fs.stat] in *. destruct n as [|m es|]; [by eexists| |by eexists].
  destruct (Fs.assoc name es) as [c|]; [|by eexists].
  destruct (IH c Hn) as [e ->]. by eexists.
Qed.

Section other_changes_up.
Context {codec : BufferCodec}.


(** What a [mkdir] operation does at the hub. *)
Lemma hub_apply_mkdir sid p h :
  let r := FileSystemServer.on_fileOperation sid (FileSystemClient.plain_op "mkdir" p) h in
  match Fs.ensureDir (Path.resolve (Path.join (FileSystemServer.watchDir h) p))
          (FileSystemServer.fs h) with
  | Fs.Ok n => FileSystemServer.fs (state_of r) = n ∧ emitted (trace_of r) = []
  | Fs.Err _ => FileSystemServer.fs (state_of r) = FileSystemServer.fs h
  end.
Proof.
  unfold FileSystemServer.on_fileOperation, try_catch,
    FileSystemServer.handleClientOperation. rewrite bind_get.
  cbn [op_operation FileSystemClient.plain_op String.eqb Ascii.eqb Bool.eqb op_path].
  unfold ensureDir, fs_update, emit, tell, state_of, trace_of.
  cbn [the_fs with_fs FileSystemServer.server_fs].
  destruct (Fs.ensureDir _ _); done.
Qed.

(** What a [chmod] operation does at the hub. *)
Lemma hub_apply_chmod sid p mode h :
  let fullPath := Path.join (FileSystemServer.watchDir h) p in
  let r := FileSystemServer.on_fileOperation sid (FileSystemClient.chmod_op p mode) h in
  match Fs.chmod (Path.resolve fullPath) mode (FileSystemServer.fs h) with
  | Fs.Ok n =>
      FileSystemServer.fs (state_of r) = n
      ∧ emitted (trace_of r)
        = [(ToAll, fileSystemChange (FileSystemServer.chmod_change p mode))]
  | Fs.Err e =>
      FileSystemServer.fs (state_of r) = FileSystemServer.fs h
      ∧ emitted (trace_of r)
        = [(ToSocket sid,
            operationError (error_message (FsError e fullPath)) "chmod" (Some p))]
  end.
Proof.
  unfold FileSystemServer.on_fileOperation, try_catch,
    FileSystemServer.handleClientOperation. rewrite bind_get.
  cbn [op_operation op_mode FileSystemClient.chmod_op String.eqb Ascii.eqb Bool.eqb op_path].
  unfold chmod, fs_update, emit, tell, mbind, M_bind, state_of, trace_of.
  cbn [the_fs with_fs FileSystemServer.server_fs].
  destruct (Fs.chmod _ _ _); done.
Qed.


(** X25. A new directory at the edge: when the edge's watcher reports
    [addDir] for a directory at [segs] below the edge's root, outside the
    initial sync and with no such operation pending, the edge sends a
    [chmod] operation with the directory's mode and then a [mkdir]
    operation, in this order, both for the relative path. A hub that
    handles the [mkdir], and whose [fs.ensureDir] succeeds, has afterwards
    a directory at [segs] below its own root and sends nothing. A hub that
    handles the [chmod] while nothing is at that place answers the sender
    with an [operationError] and changes nothing. *)
Theorem X25_edge_directory_is_replicated_to_the_hub
    (sid : string) (segs : list string) (node : Fs.node)
    (c : FileSystemClient.client) (h : FileSystemServer.server) :
  Path.isAbsolute (FileSystemClient.localDir c) = true →
  Path.isAbsolute (FileSystemServer.watchDir h) = true →
  Forall valid segs → segs ≠ [] →
  FileSystemClient.isInitialSync c = false →
  FileSystemClient.operationKey "addDir" (Path.render segs)
    ∉ FileSystemClient.activeOperations c →
  Fs.stat (Path.resolve (FileSystemClient.localDir c) ++ segs) (FileSystemClient.fs c)
  = Fs.Ok node →
  let rel := Path.render segs in
  let target := Path.resolve (FileSystemServer.watchDir h) ++ segs in
  let chmod_msg := FileSystemClient.chmod_op rel (perm_bits node) in
  let mkdir_msg := FileSystemClient.plain_op "mkdir" rel in
  emitted (trace_of (FileSystemClient.handleLocalChange "addDir"
             (Path.join (FileSystemClient.localDir c) rel) c))
  = [(ToHub, fileOperation chmod_msg); (ToHub, fileOperation mkdir_msg)]
  ∧ (∀ n1, Fs.ensureDir target (FileSystemServer.fs h) = Fs.Ok n1 →
       let r := FileSystemServer.on_fileOperation sid mkdir_msg h in
       emitted (trace_of r) = []
       ∧ FileSystemServer.fs (state_of r) = n1
       ∧ ∃ m es, Fs.stat target (FileSystemServer.fs (state_of r)) = Fs.Ok (Fs.Dir m es))
  ∧ (Fs.pathExists target (FileSystemServer.fs h) = false →
       let r := FileSystemServer.on_fileOperation sid chmod_msg h in
       FileSystemServer.fs (state_of r) = FileSystemServer.fs h
       ∧ ∃ msg, emitted (trace_of r)
                = [(ToSocket sid, operationError msg "chmod" (Some rel))]).
Proof.
  intros Hc Hh Hv Hne Hsync Hkey Hstat rel target chmod_msg mkdir_msg.
  subst chmod_msg mkdir_msg rel target. split_and!.
  - pose proof (handleLocalChange_emitted "addDir"
                  (Path.join (FileSystemClient.localDir c) (Path.render segs)) c) as Hsent.
    cbn zeta in Hsent. rewrite relative_join in Hsent by done.
    rewrite (Hsent Hsync (render_nonempty segs Hne Hv) Hkey).
    unfold localBody, FileSystemClient.localSwitch.
    cbn [String.eqb Ascii.eqb Bool.eqb orb].
    unfold try_catch, stat, fs_query, FileSystemClient.cache_set, emit, tell, modify,
      mbind, M_bind, mret, M_ret, trace_of.
    cbn [the_fs FileSystemClient.client_fs FileSystemClient.fs
         FileSystemClient.set_activeOperations].
    rewrite resolve_join_render by done. rewrite Hstat. done.
  - intros n1 He. cbn zeta.
    pose proof (hub_apply_mkdir sid (Path.render segs) h) as Hm. cbn zeta in Hm.
    rewrite resolve_join_render in Hm by done.
    rewrite He in Hm. destruct Hm as [Hfs Hnone].
    split_and!; [done | done |]. rewrite Hfs. by eapply ensureDir_dir.
  - intros Hmissing. cbn zeta.
    pose proof (hub_apply_chmod sid (Path.render segs) (perm_bits node) h) as Hm.
    cbn zeta in Hm. rewrite resolve_join_render in Hm by done.
    destruct (chmod_missing _ (perm_bits node) _ Hmissing) as [e He].
    rewrite He in Hm. destruct Hm as [Hfs Hsent]. split; [done|]. by eexists.
Qed.

End other_changes_up.


(** X24 at work: the directory [docs] of the hub is reported, and the
    fresh edge, which has no [docs], handles the broadcast. *)
Lemma X24_hub_directory_is_replicated_to_the_edge_witness :
  ∃ d,
    emitted (trace_of (FileSystemServer.handleFileChange (codec:=node_codec) "addDir"
               (Path.join "/srv/shared" (Path.render ["docs"])) hub))
    = [(ToAll, fileSystemChange d)]
    ∧ let c' := state_of (FileSystemClient.on_fileSystemChange (codec:=node_codec)
                            d edge0) in
      FileSystemClient.fs c'
      = match Fs.ensureDir ["home"; "u"; "local"; "docs"] edge_tree with
        | Fs.Ok n => n
        | Fs.Err _ => edge_tree
        end
      ∧ ∃ m es, Fs.stat (Path.resolve "/home/u/local" ++ ["docs"])
                  (FileSystemClient.fs c') = Fs.Ok (Fs.Dir m es).
Proof.
  apply (X24_hub_directory_is_replicated_to_the_edge (codec:=node_codec)
           ["docs"] hub edge0).
  - reflexivity.
  - reflexivity.
  - repeat constructor.
  - by_evaluation.
  - vm_compute. reflexivity.
Defined.

(** X25 at work: the directory [docs] appears at the synced edge; the hub
    of the worked examples has it already. *)
Lemma X25_edge_directory_is_replicated_to_the_hub_witness :
  let target := Path.resolve "/srv/shared" ++ ["docs"] in
  let chmod_msg := FileSystemClient.chmod_op "docs" 493 in
  let mkdir_msg := FileSystemClient.plain_op "mkdir" "docs" in
  emitted (trace_of (FileSystemClient.handleLocalChange (codec:=node_codec) "addDir"
             (Path.join "/home/u/local" "docs") edge_synced))
  = [(ToHub, fileOperation chmod_msg); (ToHub, fileOperation mkdir_msg)]
  ∧ (∀ n1, Fs.ensureDir target hub_tree = Fs.Ok n1 →
       let r := FileSystemServer.on_fileOperation (codec:=node_codec) "s1" mkdir_msg hub in
       emitted (trace_of r) = []
       ∧ FileSystemServer.fs (state_of r) = n1
       ∧ ∃ m es, Fs.stat target (FileSystemServer.fs (state_of r)) = Fs.Ok (Fs.Dir m es))
  ∧ (Fs.pathExists target hub_tree = false →
       let r := FileSystemServer.on_fileOperation (codec:=node_codec) "s1" chmod_msg hub in
       FileSystemServer.fs (state_of r) = hub_tree
       ∧ ∃ msg, emitted (trace_of r)
                = [(ToSocket "s1", operationError msg "chmod" (Some "docs"))]).
Proof.
  apply (X25_edge_directory_is_replicated_to_the_hub (codec:=node_codec)
           "s1" ["docs"] (dir []) edge_synced hub).
  - reflexivity.
  - reflexivity.
  - repeat constructor.
  - discriminate.
  - reflexivity.
  - by_evaluation.
  - vm_compute. reflexivity.
Defined.
